(** * LARPChecker: the resource-aware job orchestration pipeline

    A shallow embedding of the queue, the resource manager, the status and
    retry manager, the cache and the orchestrator's queue loop, with the
    properties of the design specification stated over it.

    Conventions of the embedding.
    - A [Date] is its [getTime()] value, a [Z] in milliseconds; every
      [new Date()] of the source is a [now] argument of the embedded function.
    - A JavaScript [Map<string, V>] is a [gmap string V], a [Set<string>] a
      [gset string]; a Prisma table is the list of its rows in insertion order.
    - [async] functions run their awaits in sequence, so they are embedded as
      state passing; a rejected promise is the [Err] of the type [promise].
    - JavaScript numbers that hold counts, priorities and times are [Z];
      fractions (usage percentages, random jitter) are rationals [Q]: the
      arithmetic on them rounds as binary64 does ([Double]), with the IEEE
      special values written out where a division creates them; a
      fraction that is only stored is written as the decimal of the
      source.
    - Calls of [dequeue()] that overlap are followed from one [await] to
      the next. *)

From Stdlib Require Import ZArith QArith Qround Qminmax Qpower Qabs Lia Lqa
  List.
From stdpp Require Import base gmap sets list strings fin_maps pretty.

#[local] Open Scope Z_scope.

(** ** Enumerations of [src/types/interfaces.ts] *)

Module QueueStatus.
Inductive t := PENDING | PROCESSING | COMPLETED | FAILED | CANCELLED.
#[global] Instance eq_dec : EqDecision t.
Proof. solve_decision. Defined.
End QueueStatus.

Module AnalysisStatus.
Inductive t := PENDING | QUEUED | IN_PROGRESS | COMPLETED | FAILED | CANCELLED.
#[global] Instance eq_dec : EqDecision t.
Proof. solve_decision. Defined.
End AnalysisStatus.

(** A promise that resolves with a value or rejects with an error. *)
Inductive promise (E A : Type) : Type :=
| Ok (a : A)
| Err (e : E).
Arguments Ok {E A} a.
Arguments Err {E A} e.

(** ** Binary64 arithmetic: the numbers of JavaScript

    A double is the rational it stands for; an operation of the source is
    the exact operation followed by [round]. *)

Module Double.

(** The whole part of the binary logarithm of a positive rational. *)
Definition ilog2 (q : Q) : Z :=
  let k := Z.log2 (Qnum q) - Z.log2 (Zpos (Qden q)) in
  if Qle_bool (2 ^ k) q then k else k - 1.

(** The nearest integer, the even one of two that are equally near. *)
Definition nearest_even (t : Q) : Z :=
  let f := Qfloor t in
  match (t - inject_Z f ?= 1 # 2)%Q with
  | Lt => f
  | Gt => f + 1
  | Eq => if Z.even f then f else f + 1
  end.

(** The distance between the doubles next to [q]: 52 binary places below
    the leading bit, and [2^-1074] among the subnormal ones. *)
Definition ulp (q : Q) : Q := (2 ^ (Z.max (ilog2 (Qabs q)) (-1022) - 52))%Q.

(** [q] rounded to the nearest double, ties to even.  The overflow to
    [Infinity] is left to the operations that can reach it. *)
Definition round (q : Q) : Q :=
  if Qeq_bool q 0 then 0%Q
  else (inject_Z (nearest_even (q / ulp q)) * ulp q)%Q.

Lemma two_nonzero : ~ (2 == 0)%Q.
Proof. discriminate. Qed.

Lemma pow2_pos (k : Z) : (0 < 2 ^ k)%Q.
Proof. now apply Qpower_0_lt. Qed.

Lemma pow2_Z (k : Z) : 0 <= k -> (2 ^ k == inject_Z (2 ^ k))%Q.
Proof. intros H. now rewrite (Zpower_Qpower 2 k H). Qed.


(** The doubles next to one tenth and to nine tenths, the sum
    [0.1 + 0.2], which is [0.30000000000000004], and the ties: to the even
    neighbour among the normal doubles and among the subnormal ones. *)
Example round_decimals :
  round (1 # 10) == 3602879701896397 # 2 ^ 55
  /\ round (9 # 10) == 8106479329266893 # 2 ^ 53
  /\ round (round (1 # 10) + round (2 # 10)) == 1351079888211149 # 2 ^ 52
  /\ round (inject_Z (2 ^ 53 + 1)) == inject_Z (2 ^ 53)
  /\ round (inject_Z (2 ^ 53 + 3)) == inject_Z (2 ^ 53 + 4)
  /\ round (1 # 2 ^ 1075) == 0
  /\ round (3 # 2 ^ 1075) == 2 # 2 ^ 1074.
Proof. repeat split; apply Qeq_bool_eq; vm_compute; reflexivity. Qed.


(** ... and does not fall short. *)
Lemma ilog2_lt (q : Q) : (0 < q)%Q -> (q < 2 ^ (ilog2 q + 1))%Q.
Proof.
  destruct q as [n d]. intros Hq. unfold ilog2. cbn [Qnum Qden].
  set (a := Z.log2 n). set (b := Z.log2 (Zpos d)).
  destruct (Qle_bool (2 ^ (a - b)) (n # d)) eqn:Htest.
  - assert (0 < n) as Hn by (unfold Qlt in Hq; simpl in Hq; lia).
    destruct (Z.log2_spec n Hn) as [_ Ha]. fold a in Ha.
    destruct (Z.log2_spec (Zpos d) (Pos2Z.is_pos _)) as [Hb _].
    fold b in Hb.
    assert (0 <= a) as Ha0 by apply Z.log2_nonneg.
    assert (0 <= b) as Hb0 by apply Z.log2_nonneg.
    replace (a - b + 1) with (a + 1 - b) by lia.
    rewrite (Qpower_minus 2 (a + 1) b two_nonzero).
    rewrite (pow2_Z (a + 1)), (pow2_Z b Hb0) by lia.
    rewrite (Qmake_Qdiv n d).
    assert (0 < inject_Z (2 ^ b))%Q as Hpb
      by (rewrite <- (pow2_Z b Hb0); apply pow2_pos).
    apply Qlt_shift_div_l; [exact Hpb |].
    assert (inject_Z n / inject_Z (Z.pos d) * inject_Z (2 ^ b)
            <= inject_Z n)%Q as Hle.
    { unfold Qdiv. rewrite <- Qmult_assoc.
      rewrite <- (Qmult_1_r (inject_Z n)) at 2.
      apply Qmult_le_l; [change 0%Q with (inject_Z 0);
                         rewrite <- Zlt_Qlt; lia |].
      rewrite Qmult_comm. apply Qle_shift_div_r.
      - change 0%Q with (inject_Z 0). rewrite <- Zlt_Qlt. lia.
      - rewrite Qmult_1_l, <- Zle_Qle. lia. }
    eapply Qle_lt_trans; [exact Hle |]. rewrite <- Zlt_Qlt. lia.
  - replace (a - b - 1 + 1) with (a - b) by lia.
    apply Qnot_le_lt. intros Hle. apply Qle_bool_iff in Hle. congruence.
Qed.











End Double.

(** ** The queue: [src/services/queue.service.ts] *)

Module Queue.

Record IQueueConfig := {
  maxRetries : Z;
  retryDelay : Z;
  maxConcurrent : Z;
  priorityLevels : Z;
  defaultPriority : Z;
  processingTimeout : Z
}.

Definition DEFAULT_CONFIG : IQueueConfig := {|
  maxRetries := 3;
  retryDelay := 5000;
  maxConcurrent := 5;
  priorityLevels := 5;
  defaultPriority := 2;
  processingTimeout := 300000
|}.

(** A row of the Prisma model [AnalysisQueue]. *)
Record Row := {
  id : string;
  repositoryUrl : string;
  status : QueueStatus.t;
  priority : Z;
  createdAt : Z;
  startedAt : option Z;
  completedAt : option Z;
  userId : string;
  error : option string
}.

Record QueueService := {
  table : list Row;
  config : IQueueConfig;
  processingItems : gset string
}.

(** [new QueueService(prisma, config)] over a store holding [rows]. *)
Definition new (rows : list Row) (cfg : IQueueConfig) : QueueService :=
  {| table := rows; config := cfg; processingItems := ∅ |}.

(** *** The Prisma operations the service uses *)

(** [orderBy: [{ priority: 'desc' }, { createdAt: 'asc' }]]:
    [a] sorts strictly before [b]. *)
Definition sorts_before (a b : Row) : bool :=
  (priority b <? priority a)
  || ((priority a =? priority b) && (createdAt a <? createdAt b)).

(** The first row of an ordered query: the best row so far is replaced
    only by a row that sorts strictly before it, so rows that agree on both
    keys are served in insertion order. *)
Fixpoint first_ordered (best : Row) (rows : list Row) : Row :=
  match rows with
  | [] => best
  | r :: rest =>
      first_ordered (if sorts_before r best then r else best) rest
  end.

Definition is_pending (r : Row) : bool :=
  bool_decide (status r = QueueStatus.PENDING).

(** [findFirst({ where: { status: PENDING }, orderBy: [...] })] *)
Definition findFirst_pending (rows : list Row) : option Row :=
  match List.filter is_pending rows with
  | [] => None
  | r :: rest => Some (first_ordered r rest)
  end.

(** [create({ data: { repositoryUrl, status, priority, userId } })]; the
    store supplies the [uuid()] and the [now()] defaults. *)
Definition create (uuid : string) (now : Z) (url : string)
    (st : QueueStatus.t) (prio : Z) (user : string) (rows : list Row)
    : list Row :=
  rows ++ [ {| id := uuid; repositoryUrl := url; status := st;
               priority := prio; createdAt := now; startedAt := None;
               completedAt := None; userId := user;
               error := None |} ].

Definition set_processing (now : Z) (r : Row) : Row :=
  {| id := id r; repositoryUrl := repositoryUrl r;
     status := QueueStatus.PROCESSING; priority := priority r;
     createdAt := createdAt r; startedAt := Some now;
     completedAt := completedAt r; userId := userId r; error := error r |}.

(** [update({ where: { id }, data })] *)
Definition update_by_id (i : string) (f : Row -> Row) (rows : list Row)
    : list Row :=
  List.map (fun r => if bool_decide (id r = i) then f r else r) rows.

(** [updateMany({ where: { repositoryUrl }, data })] *)
Definition updateMany_by_url (url : string) (f : Row -> Row)
    (rows : list Row) : list Row :=
  List.map (fun r => if bool_decide (repositoryUrl r = url) then f r else r)
           rows.

(** [deleteMany({ where: { repositoryUrl } })] *)
Definition deleteMany_by_url (url : string) (rows : list Row) : list Row :=
  List.filter (fun r => negb (bool_decide (repositoryUrl r = url))) rows.

(** [findUnique({ where: { id } })] *)
Definition findUnique (i : string) (rows : list Row) : option Row :=
  List.find (fun r => bool_decide (id r = i)) rows.

(** [count({ where: { status } })] *)
Definition count_status (st : QueueStatus.t) (rows : list Row) : Z :=
  Z.of_nat (length (List.filter (fun r => bool_decide (status r = st)) rows)).

(** *** The service *)

Definition with_table (q : QueueService) (rows : list Row) : QueueService :=
  {| table := rows; config := config q;
     processingItems := processingItems q |}.

Definition with_processing (q : QueueService) (s : gset string)
    : QueueService :=
  {| table := table q; config := config q; processingItems := s |}.

(** [enqueue(repositoryUrl, userId)] *)
Definition enqueue (uuid : string) (now : Z) (repositoryUrl userId : string)
    (q : QueueService) : QueueService :=
  with_table q
    (create uuid now repositoryUrl QueueStatus.PENDING
            (defaultPriority (config q)) userId (table q)).

(** [dequeue()] *)
Definition dequeue (now : Z) (q : QueueService)
    : option string * QueueService :=
  if Z.of_nat (size (processingItems q)) >=? maxConcurrent (config q)
  then (None, q)
  else
    match findFirst_pending (table q) with
    | None => (None, q)
    | Some queueItem =>
        let q1 :=
          with_table q
            (update_by_id (id queueItem) (set_processing now) (table q)) in
        (Some (repositoryUrl queueItem),
         with_processing q1
           ({[ repositoryUrl queueItem ]} ∪ processingItems q1))
    end.

(** [mapAnalysisStatusToQueueStatus]; the [default] branch throws. *)
Definition mapAnalysisStatusToQueueStatus (s : AnalysisStatus.t)
    : option QueueStatus.t :=
  match s with
  | AnalysisStatus.QUEUED => Some QueueStatus.PENDING
  | AnalysisStatus.IN_PROGRESS => Some QueueStatus.PROCESSING
  | AnalysisStatus.COMPLETED => Some QueueStatus.COMPLETED
  | AnalysisStatus.FAILED => Some QueueStatus.FAILED
  | AnalysisStatus.CANCELLED => Some QueueStatus.CANCELLED
  | AnalysisStatus.PENDING => None
  end.

(** [[COMPLETED, FAILED, CANCELLED].includes(queueStatus)] *)
Definition is_terminal (s : QueueStatus.t) : bool :=
  match s with
  | QueueStatus.COMPLETED | QueueStatus.FAILED | QueueStatus.CANCELLED => true
  | _ => false
  end.

Definition set_status (now : Z) (s : QueueStatus.t) (r : Row) : Row :=
  {| id := id r; repositoryUrl := repositoryUrl r; status := s;
     priority := priority r; createdAt := createdAt r;
     startedAt := startedAt r;
     completedAt := if is_terminal s then Some now else completedAt r;
     userId := userId r; error := error r |}.

(** [updateStatus(repositoryUrl, status)]; an unknown status rejects and
    leaves the service as it was. *)
Definition updateStatus (now : Z) (url : string) (s : AnalysisStatus.t)
    (q : QueueService) : QueueService :=
  match mapAnalysisStatusToQueueStatus s with
  | None => q
  | Some queueStatus =>
      let q1 :=
        with_table q
          (updateMany_by_url url (set_status now queueStatus) (table q)) in
      if is_terminal queueStatus
      then with_processing q1 (processingItems q1 ∖ {[ url ]})
      else q1
  end.

(** [removeFromQueue(repositoryUrl)] *)
Definition removeFromQueue (url : string) (q : QueueService)
    : QueueService :=
  with_processing (with_table q (deleteMany_by_url url (table q)))
                  (processingItems q ∖ {[ url ]}).

(** [clearQueue()] *)
Definition clearQueue (q : QueueService) : QueueService :=
  with_processing (with_table q []) ∅.

(** [cancel(id)]; an unknown id rejects and leaves the service as it was.
    The subject leaves the processing set [if (item.repositoryUrl)], that
    is unless it is the empty string. *)
Definition cancel (now : Z) (i : string) (q : QueueService) : QueueService :=
  match findUnique i (table q) with
  | None => q
  | Some item =>
      let q1 :=
        with_table q
          (update_by_id i (set_status now QueueStatus.CANCELLED) (table q)) in
      if bool_decide (repositoryUrl item = EmptyString)
      then q1
      else with_processing q1 (processingItems q1 ∖ {[ repositoryUrl item ]})
  end.

(** [getPosition(repositoryUrl)]: [-1] when the subject has no Pending row,
    else one more than the number of Pending rows served before it. *)
Definition getPosition (url : string) (q : QueueService) : Z :=
  match List.find (fun r => bool_decide (repositoryUrl r = url)
                            && is_pending r) (table q) with
  | None => -1
  | Some item =>
      Z.of_nat (length (List.filter
                          (fun r => is_pending r && sorts_before r item)
                          (table q))) + 1
  end.

(** The calls a client can make, with what the environment supplies to
    each (the clock, the store's fresh id). *)
Inductive call :=
| Enqueue (uuid : string) (now : Z) (repositoryUrl userId : string)
| Dequeue (now : Z)
| UpdateStatus (now : Z) (repositoryUrl : string) (s : AnalysisStatus.t)
| RemoveFromQueue (repositoryUrl : string)
| ClearQueue
| Cancel (now : Z) (id : string).

Definition step (q : QueueService) (c : call) : QueueService :=
  match c with
  | Enqueue uuid now url user => enqueue uuid now url user q
  | Dequeue now => snd (dequeue now q)
  | UpdateStatus now url s => updateStatus now url s q
  | RemoveFromQueue url => removeFromQueue url q
  | ClearQueue => clearQueue q
  | Cancel now i => cancel now i q
  end.

Definition run (q : QueueService) (cs : list call) : QueueService :=
  fold_left step cs q.

(** The rows the store holds in status Processing. *)
Definition processing_rows (q : QueueService) : Z :=
  count_status QueueStatus.PROCESSING (table q).

(** *** The ordering of [dequeue] *)

(** [a] is served no later than [b]. *)
Definition no_later (a b : Row) : Prop :=
  priority b <= priority a
  /\ (priority b = priority a -> createdAt a <= createdAt b).

Lemma sorts_before_false a b : sorts_before b a = false <-> no_later a b.
Proof.
  unfold sorts_before, no_later.
  destruct (Z.ltb_spec (priority a) (priority b));
    destruct (Z.eqb_spec (priority b) (priority a));
    destruct (Z.ltb_spec (createdAt b) (createdAt a));
    simpl; split; intros; try discriminate; try lia.
Qed.

Lemma no_later_refl a : no_later a a.
Proof. unfold no_later; lia. Qed.

Lemma no_later_trans a b c : no_later a b -> no_later b c -> no_later a c.
Proof. unfold no_later; lia. Qed.

Lemma first_ordered_in best rows :
  first_ordered best rows = best \/ In (first_ordered best rows) rows.
Proof.
  revert best; induction rows as [|r rest IH]; intros best; simpl.
  - now left.
  - destruct (IH (if sorts_before r best then r else best)) as [E | E].
    + rewrite E. destruct (sorts_before r best); auto.
    + auto.
Qed.

Lemma first_ordered_best best rows :
  no_later (first_ordered best rows) best
  /\ (forall p, In p rows -> no_later (first_ordered best rows) p).
Proof.
  revert best; induction rows as [|r rest IH]; intros best; simpl.
  - split; [apply no_later_refl | tauto].
  - destruct (IH (if sorts_before r best then r else best)) as [Hb Hr].
    destruct (sorts_before r best) eqn:E.
    + assert (no_later r best) as Hrb.
      { unfold sorts_before in E. unfold no_later.
        destruct (Z.ltb_spec (priority best) (priority r));
          destruct (Z.eqb_spec (priority r) (priority best));
          destruct (Z.ltb_spec (createdAt r) (createdAt best));
          simpl in E; try discriminate; lia. }
      split; [eapply no_later_trans; eauto |].
      intros p [<- | Hp]; auto.
    + apply sorts_before_false in E.
      split; [assumption |].
      intros p [<- | Hp]; [eapply no_later_trans; eauto | auto].
Qed.

Lemma findFirst_pending_spec rows r :
  findFirst_pending rows = Some r ->
  In r rows /\ status r = QueueStatus.PENDING
  /\ (forall p, In p rows -> status p = QueueStatus.PENDING -> no_later r p).
Proof.
  unfold findFirst_pending.
  destruct (List.filter is_pending rows) as [|b rest] eqn:F; [discriminate |].
  intros [= <-].
  assert (forall x, In x (b :: rest) <->
                    In x rows /\ status x = QueueStatus.PENDING) as Hin.
  { intros x. rewrite <- F, filter_In. unfold is_pending.
    now rewrite bool_decide_eq_true. }
  assert (In (first_ordered b rest) (b :: rest)) as Hmem.
  { destruct (first_ordered_in b rest) as [-> | ?]; simpl; auto. }
  apply Hin in Hmem as [Hm Hs]. split; [assumption | split; [assumption |]].
  intros p Hp Hps.
  assert (In p (b :: rest)) as [<- | Hp'] by (apply Hin; auto).
  - exact (proj1 (first_ordered_best b rest)).
  - exact (proj2 (first_ordered_best b rest) p Hp').
Qed.


(** *** What [dequeue] returns and marks *)




Lemma dequeue_full now q :
  Z.of_nat (size (processingItems q)) >= maxConcurrent (config q) ->
  dequeue now q = (None, q).
Proof.
  intros H. unfold dequeue.
  destruct (Z.geb_spec (Z.of_nat (size (processingItems q)))
                       (maxConcurrent (config q))); [reflexivity | lia].
Qed.



(** A backlog with priorities 1, 5, 3 and a second row of priority 5 that
    was created earlier than the first. *)
Definition pending_row (i url user : string) (prio created : Z) : Row :=
  {| id := i; repositoryUrl := url; status := QueueStatus.PENDING;
     priority := prio; createdAt := created; startedAt := None;
     completedAt := None; userId := user; error := None |}.

Definition staggered : QueueService :=
  new [ pending_row "q1" "repo-a" "alice" 1 10;
        pending_row "q2" "repo-b" "alice" 5 30;
        pending_row "q3" "repo-c" "alice" 3 20;
        pending_row "q4" "repo-d" "alice" 5 20 ]
      DEFAULT_CONFIG.


Example dequeue_staggered :
  fst (dequeue 40 staggered) = Some "repo-d"
  /\ fst (dequeue 41 (snd (dequeue 40 staggered))) = Some "repo-b"
  /\ fst (dequeue 42 (run staggered [Dequeue 40; Dequeue 41]))
     = Some "repo-c".
Proof. vm_compute. repeat split. Qed.

(** *** The concurrency cap *)

Lemma size_remove (s : gset string) (x : string) :
  (size (s ∖ {[ x ]}) <= size s)%nat.
Proof. apply subseteq_size, subseteq_difference_l. reflexivity. Qed.

Lemma size_add (s : gset string) (x : string) :
  (size ({[ x ]} ∪ s) <= S (size s))%nat.
Proof.
  rewrite size_union_alt, size_singleton.
  pose proof (size_remove s x). lia.
Qed.

Lemma step_config q c : config (step q c) = config q.
Proof.
  destruct c; simpl; try reflexivity.
  - unfold dequeue. destruct (_ >=? _); [reflexivity |].
    destruct (findFirst_pending (table q)); reflexivity.
  - unfold updateStatus.
    destruct (mapAnalysisStatusToQueueStatus s) as [qs|]; [| reflexivity].
    destruct (is_terminal qs); reflexivity.
  - unfold cancel. destruct (findUnique id0 (table q)); [| reflexivity].
    destruct (bool_decide _); reflexivity.
Qed.

Lemma step_cap q c :
  Z.of_nat (size (processingItems q)) <= maxConcurrent (config q) ->
  Z.of_nat (size (processingItems (step q c))) <= maxConcurrent (config q).
Proof.
  intros H. destruct c; simpl.
  - exact H.
  - unfold dequeue.
    destruct (Z.geb_spec (Z.of_nat (size (processingItems q)))
                         (maxConcurrent (config q))) as [Hge | Hlt];
      [exact H |].
    destruct (findFirst_pending (table q)) as [r|]; [| exact H].
    simpl. pose proof (size_add (processingItems q) (repositoryUrl r)). lia.
  - unfold updateStatus.
    destruct (mapAnalysisStatusToQueueStatus s) as [qs|]; [| exact H].
    destruct (is_terminal qs); simpl; [| exact H].
    pose proof (size_remove (processingItems q) repositoryUrl0). lia.
  - pose proof (size_remove (processingItems q) repositoryUrl0). lia.
  - change (Z.of_nat (size (∅ : gset string)) <= maxConcurrent (config q)).
    rewrite size_empty.
    pose proof (Nat2Z.is_nonneg (size (processingItems q))). lia.
  - unfold cancel. destruct (findUnique id0 (table q)) as [item|];
      [| exact H].
    destruct (bool_decide _); simpl; [exact H |].
    pose proof (size_remove (processingItems q) (repositoryUrl item)). lia.
Qed.

Lemma run_cap cs : forall q,
  Z.of_nat (size (processingItems q)) <= maxConcurrent (config q) ->
  Z.of_nat (size (processingItems (run q cs))) <= maxConcurrent (config q)
  /\ config (run q cs) = config q.
Proof.
  induction cs as [|c cs IH]; intros q H; simpl.
  - split; [exact H | reflexivity].
  - pose proof (step_cap q c H) as Hc.
    rewrite <- (step_config q c) in Hc.
    destruct (IH (step q c) Hc) as [IH1 IH2].
    rewrite step_config in IH1, IH2. split; assumption.
Qed.

(** Calls that do not overlap. [dequeue()] returns none, and changes
    nothing, whenever the active-processing count (the number of subjects
    in the processing set) equals or exceeds [maxConcurrent], whatever the
    Pending backlog; and for a non-negative [maxConcurrent], after any
    sequence of calls on a fresh service, each one finished before the
    next begins, the number of subjects the service holds in its
    processing set does not exceed [maxConcurrent]. *)
Theorem dequeue_respects_maxConcurrent
    (rows : list Row) (cfg : IQueueConfig) (cs : list call) (now : Z) :
  0 <= maxConcurrent cfg ->
  let q := run (new rows cfg) cs in
  Z.of_nat (size (processingItems q)) <= maxConcurrent cfg
  /\ (forall q' : QueueService,
        Z.of_nat (size (processingItems q')) >= maxConcurrent (config q') ->
        dequeue now q' = (None, q')).
Proof.
  intros Hmax q. split.
  - assert (Z.of_nat (size (processingItems (new rows cfg)))
            <= maxConcurrent (config (new rows cfg))) as H0.
    { change (Z.of_nat (size (∅ : gset string)) <= maxConcurrent cfg).
      rewrite size_empty. exact Hmax. }
    exact (proj1 (run_cap cs (new rows cfg) H0)).
  - intros q' Hfull. now apply dequeue_full.
Qed.

Definition two_at_a_time : IQueueConfig := {|
  maxRetries := 3; retryDelay := 5000; maxConcurrent := 2;
  priorityLevels := 5; defaultPriority := 2; processingTimeout := 300000
|}.

(** Three requests for three subjects, then three polls. *)
Definition three_subjects : list call :=
  [ Enqueue "q1" 1 "repo-a" "alice"; Enqueue "q2" 2 "repo-b" "alice";
    Enqueue "q3" 3 "repo-c" "alice"; Dequeue 10; Dequeue 11; Dequeue 12 ].

Lemma dequeue_respects_maxConcurrent_witness :
  0 <= maxConcurrent two_at_a_time
  /\ Z.of_nat (size (processingItems
                       (run (new [] two_at_a_time) three_subjects)))
     <= maxConcurrent two_at_a_time.
Proof.
  assert (0 <= maxConcurrent two_at_a_time) as H by (simpl; lia).
  split; [exact H |].
  exact (proj1 (dequeue_respects_maxConcurrent
                  [] two_at_a_time three_subjects 0 H)).
Defined.

Example three_subjects_run :
  let q := run (new [] two_at_a_time) three_subjects in
  processing_rows q = 2 /\ size (processingItems q) = 2%nat
  /\ fst (dequeue 13 q) = None.
Proof. vm_compute. repeat split. Qed.

(** The cap counts subjects, not rows: the processing set is keyed by
    subject, so three Pending rows of one subject are all handed out by
    [dequeue()] while the set holds a single element; with
    [maxConcurrent = 2] the store then holds three rows in status
    Processing, each put there by [dequeue()]. *)
Lemma dequeue_exceeds_maxConcurrent_rows :
  let q0 := run (new [] two_at_a_time)
                [ Enqueue "q1" 1 "repo-a" "alice";
                  Enqueue "q2" 2 "repo-a" "bob";
                  Enqueue "q3" 3 "repo-a" "carol" ] in
  let q1 := snd (dequeue 10 q0) in
  let q2 := snd (dequeue 11 q1) in
  let q3 := snd (dequeue 12 q2) in
  maxConcurrent (config q3) = 2
  /\ fst (dequeue 10 q0) = Some "repo-a"
  /\ fst (dequeue 11 q1) = Some "repo-a"
  /\ fst (dequeue 12 q2) = Some "repo-a"
  /\ processing_rows q3 = 3
  /\ ~ (processing_rows q3 <= maxConcurrent (config q3)).
Proof. vm_compute. repeat split; congruence. Qed.

(** *** Calls of [dequeue()] that overlap

    [dequeue()] reads the size of the processing set before its first
    [await] and adds to the set after its last, and
    [AnalysisOrchestrator] starts [processQueue()] without awaiting it, so
    a call can begin while another is suspended.  A call is followed from
    one suspension to the next; the store runs a query at some moment
    between the call that issues it and the continuation that receives its
    answer. *)

(** Where a call of [dequeue()] stands: about to be made; suspended at
    the [await] of [findFirst], before and after the store has answered;
    suspended at the [await] of [update], before and after the store has
    run it; returned. *)
Inductive Dequeuing :=
| Called
| FindFirstIssued
| FindFirstResolved (queueItem : option Row)
| UpdateIssued (queueItem : Row) (startedAt : Z)
| UpdateResolved (queueItem : Row)
| Returned (result : option string).

(** One move of a call: the test of the cap and the [findFirst] it
    issues; the store answering the query; the continuation, which returns
    or reads the clock and issues the [update]; the store running the
    update; the continuation that adds the subject and returns.  Only
    calls of [dequeue()] overlap here, and they delete no row, so the
    update finds the row it was issued for. *)
Definition resume (now : Z) (c : Dequeuing) (q : QueueService)
    : Dequeuing * QueueService :=
  match c with
  | Called =>
      if Z.of_nat (size (processingItems q)) >=? maxConcurrent (config q)
      then (Returned None, q)
      else (FindFirstIssued, q)
  | FindFirstIssued => (FindFirstResolved (findFirst_pending (table q)), q)
  | FindFirstResolved None => (Returned None, q)
  | FindFirstResolved (Some queueItem) => (UpdateIssued queueItem now, q)
  | UpdateIssued queueItem startedAt =>
      (UpdateResolved queueItem,
       with_table q
         (update_by_id (id queueItem) (set_processing startedAt) (table q)))
  | UpdateResolved queueItem =>
      (Returned (Some (repositoryUrl queueItem)),
       with_processing q ({[ repositoryUrl queueItem ]} ∪ processingItems q))
  | Returned result => (Returned result, q)
  end.

Fixpoint resume_n (n : nat) (now : Z) (c : Dequeuing) (q : QueueService)
    : Dequeuing * QueueService :=
  match n with
  | O => (c, q)
  | S n' => let (c', q') := resume now c q in resume_n n' now c' q'
  end.

(** The calls in flight and the service they share; a turn names the call
    that moves and the reading of the clock at that moment. *)
Definition resume_call (s : list Dequeuing * QueueService) (turn : nat * Z)
    : list Dequeuing * QueueService :=
  match fst s !! fst turn with
  | None => s
  | Some c =>
      let (c', q') := resume (snd turn) c (snd s) in
      (<[ fst turn := c' ]> (fst s), q')
  end.

Definition overlap (schedule : list (nat * Z)) (calls : list Dequeuing)
    (q : QueueService) : list Dequeuing * QueueService :=
  fold_left resume_call schedule (calls, q).

(** A call that nothing interrupts is [dequeue]. *)
Lemma resume_alone now q :
  resume_n 5 now Called q
  = (Returned (fst (dequeue now q)), snd (dequeue now q)).
Proof.
  unfold dequeue. cbn [resume_n resume].
  destruct (Z.of_nat (size (processingItems q)) >=? maxConcurrent (config q));
    [reflexivity |].
  cbn [resume_n resume].
  destruct (findFirst_pending (table q)) as [queueItem |]; reflexivity.
Qed.

Lemma overlap_alone now q :
  overlap (List.repeat (0%nat, now) 5) [Called] q
  = ([Returned (fst (dequeue now q))], snd (dequeue now q)).
Proof.
  unfold dequeue, overlap.
  cbn [List.repeat fold_left]. unfold resume_call at 5.
  cbn [fst snd lookup list_lookup resume].
  destruct (Z.of_nat (size (processingItems q)) >=? maxConcurrent (config q));
    [reflexivity |].
  cbn. destruct (findFirst_pending (table q)) as [queueItem |]; reflexivity.
Qed.

(** Three subjects wait and two may be processed at a time. *)
Definition three_waiting : QueueService :=
  run (new [] two_at_a_time)
      [ Enqueue "q1" 1 "repo-a" "alice"; Enqueue "q2" 2 "repo-b" "alice";
        Enqueue "q3" 3 "repo-c" "alice" ].

(** Three polls, each begun while the one before it awaits its [update]. *)
Definition staggered_polls : list (nat * Z) :=
  List.map (fun turn => (Z.to_nat (fst turn), snd turn))
    [ (0, 10); (0, 10); (0, 10);
      (1, 11); (0, 11); (1, 11); (1, 11);
      (2, 12); (0, 12); (1, 12); (2, 12); (2, 12);
      (1, 13); (2, 13); (2, 13) ].

(** C2, evaluated on the code. With [maxConcurrent = 2] and three subjects
    Pending, three calls of [dequeue()] of which each begins while the one
    before it awaits its [update] all pass the test of the cap, since no
    subject is added to the processing set before the update has been
    awaited: all three return a subject, and the service holds three
    subjects in its processing set and three rows in status Processing,
    one more than [maxConcurrent].  The same three calls, each finished
    before the next begins, hand out two subjects and answer none to the
    third. *)
Theorem overlapping_dequeues_exceed_maxConcurrent :
  let final := overlap staggered_polls [Called; Called; Called]
                       three_waiting in
  let in_turn := run three_waiting [Dequeue 10; Dequeue 11] in
  maxConcurrent (config three_waiting) = 2
  /\ processingItems three_waiting = ∅
  /\ List.map status (table three_waiting)
     = [QueueStatus.PENDING; QueueStatus.PENDING; QueueStatus.PENDING]
  /\ fst final = [ Returned (Some "repo-a"); Returned (Some "repo-b");
                   Returned (Some "repo-c") ]
  /\ size (processingItems (snd final)) = 3%nat
  /\ processing_rows (snd final) = 3
  /\ List.map startedAt (table (snd final)) = [Some 10; Some 11; Some 12]
  /\ ~ (Z.of_nat (size (processingItems (snd final)))
        <= maxConcurrent (config (snd final)))
  /\ size (processingItems in_turn) = 2%nat
  /\ fst (dequeue 12 in_turn) = None.
Proof. vm_compute. repeat split; congruence. Qed.

(** *** The priority of a new item *)

(** The call [enqueue(repositoryUrl, userId, priority)] of
    [AnalysisOrchestrator.startAnalysis]: [enqueue] declares two
    parameters, so the third actual argument is dropped. *)
Definition enqueue_with_priority (uuid : string) (now : Z)
    (repositoryUrl userId : string) (priority : option Z)
    (q : QueueService) : QueueService :=
  enqueue uuid now repositoryUrl userId q.

Lemma enqueue_priority uuid now url user prio q :
  table (enqueue_with_priority uuid now url user prio q)
  = table q ++ [ pending_row uuid url user (defaultPriority (config q)) now ].
Proof. reflexivity. Qed.

(** C8, evaluated on the code. A request submitted with priority 5 (and one
    with priority 1) is stored with the configured default priority 2, and
    [dequeue()] then serves the older, lower-priority request first. *)
Theorem enqueue_drops_caller_priority :
  let q := enqueue_with_priority "q2" 20 "repo-urgent" "bob" (Some 5)
             (enqueue_with_priority "q1" 10 "repo-idle" "alice" (Some 1)
                (new [] DEFAULT_CONFIG)) in
  List.map priority (table q) = [2; 2]
  /\ fst (dequeue 30 q) = Some "repo-idle".
Proof. vm_compute. split; reflexivity. Qed.

End Queue.

(** ** The cache: [CacheService], in
       [src/services/repository-processing/repository-manager.ts] *)

Module Cache.

Section Entries.
(** The type of the cached values ([any] in the source). *)
Context {T : Type}.

Record CacheEntry := {
  data : T;
  timestamp : Z;
  ttl : Z
}.

Definition DEFAULT_TTL : Z := 24 * 60 * 60 * 1000.

(** [isExpired(entry)], the clock reading [now]. *)
Definition isExpired (now : Z) (entry : CacheEntry) : bool :=
  now >? timestamp entry + ttl entry.

(** [set(key, value, ttl = DEFAULT_TTL)] *)
Definition set (key : string) (value : T) (ttl : option Z) (now : Z)
    (cache : gmap string CacheEntry) : gmap string CacheEntry :=
  <[ key := {| data := value; timestamp := now;
               ttl := default DEFAULT_TTL ttl |} ]> cache.

(** [get(key)]: the value if any, and the cache it leaves. *)
Definition get (key : string) (now : Z) (cache : gmap string CacheEntry)
    : option T * gmap string CacheEntry :=
  match cache !! key with
  | None => (None, cache)
  | Some entry =>
      if isExpired now entry
      then (None, delete key cache)
      else (Some (data entry), cache)
  end.

(** [delete(key)] *)
Definition delete_key (key : string) (cache : gmap string CacheEntry)
    : gmap string CacheEntry :=
  delete key cache.

(** [invalidateProgress(repositoryUrl)] *)
Definition invalidateProgress (repositoryUrl : string)
    (cache : gmap string CacheEntry) : gmap string CacheEntry :=
  delete ("repo:" +:+ repositoryUrl +:+ ":progress") cache.

(** *** Time to live *)

Lemma get_set_live key value l t0 t cache :
  t <= l ->
  get key (t0 + t) (set key value (Some l) t0 cache)
  = (Some value, set key value (Some l) t0 cache).
Proof.
  intros H. unfold get, set. rewrite lookup_insert_eq.
  unfold isExpired; simpl.
  destruct (Z.gtb_spec (t0 + t) (t0 + l)); [lia | reflexivity].
Qed.

Lemma get_set_expired key value l t0 t cache :
  l < t ->
  get key (t0 + t) (set key value (Some l) t0 cache)
  = (None, delete key cache).
Proof.
  intros H. unfold get, set. rewrite lookup_insert_eq.
  unfold isExpired; simpl.
  destruct (Z.gtb_spec (t0 + t) (t0 + l)); [| lia].
  now rewrite delete_insert_eq.
Qed.

Lemma get_absent key now cache :
  cache !! key = None -> get key now cache = (None, cache).
Proof. intros H. unfold get. now rewrite H. Qed.

(** C6, as the code has it. Measured from [set(key, value, ttl)],
    [get(key)] returns the stored value at every time [t] with
    [0 <= t <= ttl] and leaves the cache as it is; at every [t > ttl] it
    returns absent and drops the entry, which is the answer and the
    cache that the same [get] produces when the key is not set. *)
Theorem get_within_ttl
    (key : string) (value : T) (l t0 t : Z)
    (cache : gmap string CacheEntry) :
  0 <= t ->
  let stored := set key value (Some l) t0 cache in
  (t <= l -> get key (t0 + t) stored = (Some value, stored))
  /\ (l < t ->
        get key (t0 + t) stored = (None, delete key cache)
        /\ get key (t0 + t) stored = get key (t0 + t) (delete key cache)).
Proof.
  intros _ stored. split.
  - apply get_set_live.
  - intros H. unfold stored.
    rewrite (get_set_expired key value l t0 t cache H).
    rewrite (get_absent key (t0 + t) (delete key cache))
      by apply lookup_delete_eq.
    split; reflexivity.
Qed.

End Entries.

Arguments CacheEntry : clear implicits.

Lemma get_within_ttl_witness :
  0 <= 3
  /\ get "k" (1000 + 3) (set "k" 42 (Some 5) 1000 ∅)
     = (Some 42, set "k" 42 (Some 5) 1000 ∅).
Proof.
  assert (0 <= 3) as H by lia.
  split; [exact H |].
  apply (proj1 (get_within_ttl "k" 42 5 1000 3 ∅ H)). lia.
Defined.

(** C6 as stated fails at [t = ttl]: the entry expires only once the clock
    is strictly past [timestamp + ttl], so a [get] exactly [ttl]
    milliseconds after the [set] still returns the value. *)
Lemma get_at_ttl_returns_value :
  fst (get "k" (1000 + 5) (set "k" 42 (Some 5) 1000 ∅)) = Some 42
  /\ fst (get "k" (1000 + 5) (set "k" 42 (Some 5) 1000 ∅))
     <> fst (get "k" (1000 + 5) (∅ : gmap string (CacheEntry Z))).
Proof.
  rewrite (get_set_live "k" 42 5 1000 5 ∅ (Z.le_refl 5)).
  split; [reflexivity | discriminate].
Qed.

End Cache.

(** ** The status and retry manager:
       [src/services/repository-processing/status-manager.ts] *)

Module Status.

(** A JavaScript [Error]; the retry policy reads its message only. *)
Record Error := { message : string }.

(** [s.includes(sub)] *)
Fixpoint includes (sub s : string) : bool :=
  if String.prefix sub s then true
  else match s with
       | EmptyString => false
       | String _ rest => includes sub rest
       end.

(** [calculateBackoff(attempt)], [random] being the value that
    [Math.random()] returns; every operation rounds to a double.  Where
    [Math.pow] overflows to [Infinity] the embedding has a finite value
    above 30000, of which [Math.min] makes 30000 just the same. *)
Definition calculateBackoff (attempt : Z) (random : Q) : Q :=
  let base :=
    Qmin (Double.round (1000 * Double.round (Qpower 2 attempt))) 30000 in
  let jitter := Double.round (random * 1000) in
  Double.round (base + jitter).

(** [onRetry] resolves once its timer fires; the embedding keeps the delay
    it waited, in milliseconds, as the value of the promise. *)
Record ErrorRecoveryStrategy := {
  maxRetries : Z;
  backoffTime : Z;
  shouldRetry : Error -> bool;
  onRetry : Z -> Q -> promise Error Q
}.

Definition RATE_LIMIT : ErrorRecoveryStrategy := {|
  maxRetries := 3;
  backoffTime := 60000;
  shouldRetry := fun error => includes "rate limit" (message error);
  onRetry := fun attempt random => Ok (calculateBackoff attempt random)
|}.

Definition NETWORK : ErrorRecoveryStrategy := {|
  maxRetries := 5;
  backoffTime := 5000;
  shouldRetry := fun error => includes "network" (message error);
  onRetry := fun _ _ => Ok 5000%Q
|}.

Definition STORAGE : ErrorRecoveryStrategy := {|
  maxRetries := 2;
  backoffTime := 10000;
  shouldRetry := fun error => includes "storage" (message error);
  onRetry := fun _ _ => Ok 0%Q
|}.

(** [initializeRetryStrategies()]: the map in insertion order. *)
Definition retryStrategies : list (string * ErrorRecoveryStrategy) :=
  [ ("RATE_LIMIT"%string, RATE_LIMIT); ("NETWORK"%string, NETWORK);
    ("STORAGE"%string, STORAGE) ].

(** [findRetryStrategy(error)] *)
Definition findRetryStrategy (error : Error)
    : option ErrorRecoveryStrategy :=
  List.find (fun strategy => shouldRetry strategy error)
            (List.map snd retryStrategies).

Section Manager.
(** [IAnalysisResult], which the manager stores and forwards only. *)
Context {IAnalysisResult : Type}.

Record IAnalysisProgress := {
  id : string;
  repositoryUrl : string;
  status : AnalysisStatus.t;
  progress : Z;
  currentStep : string;
  startTime : Z;
  lastUpdate : Z;
  completedAt : option Z;
  result : option IAnalysisResult;
  error : option Error
}.

(** What [NotificationService.notify] appends to its log. *)
Inductive INotification :=
| ANALYSIS_START (repositoryUrl : string) (timestamp : Z)
| ANALYSIS_PROGRESS (repositoryUrl : string) (progress : Z) (timestamp : Z)
| ANALYSIS_COMPLETE (repositoryUrl : string) (result : IAnalysisResult)
                    (timestamp : Z)
| ANALYSIS_ERROR (repositoryUrl : string) (error : Error) (timestamp : Z)
| QUEUE_UPDATE (repositoryUrl : string) (position : Z) (timestamp : Z).

(** The manager with the collaborators it writes to: the log of the
    notification service, the map of the cache service (the manager
    stores progress numbers in it) and the queue service it reads. *)
Record StatusManager := {
  progressMap : gmap string IAnalysisProgress;
  retryAttempts : gmap string Z;
  notifications : list INotification;
  cache : gmap string (Cache.CacheEntry Z);
  queueService : Queue.QueueService
}.

Definition new (queue : Queue.QueueService) : StatusManager :=
  {| progressMap := ∅; retryAttempts := ∅; notifications := [];
     cache := ∅; queueService := queue |}.

(** [cacheService.cacheProgress(repositoryUrl, progress)] *)
Definition cacheProgress (url : string) (p : Z) (now : Z)
    (c : gmap string (Cache.CacheEntry Z))
    : gmap string (Cache.CacheEntry Z) :=
  Cache.set ("progress:" +:+ url) p (Some 3600) now c.

(** [initializeProgress(repositoryUrl)] *)
Definition initializeProgress (url : string) (now : Z)
    (m : StatusManager) : StatusManager :=
  let progress :=
    {| id := url; repositoryUrl := url;
       status := AnalysisStatus.PENDING; progress := 0;
       currentStep := "Initializing"; startTime := now;
       lastUpdate := now; completedAt := None; result := None;
       error := None |} in
  {| progressMap := <[ url := progress ]> (progressMap m);
     retryAttempts := retryAttempts m;
     notifications := notifications m ++ [ANALYSIS_START url now];
     cache := cacheProgress url 0 now (cache m);
     queueService := queueService m |}.

(** [updateProgress(repositoryUrl, progress, status?)] *)
Definition updateProgress (url : string) (p : Z)
    (st : option AnalysisStatus.t) (now : Z) (m : StatusManager)
    : StatusManager :=
  match progressMap m !! url with
  | None => m
  | Some currentProgress =>
      let updated :=
        {| id := id currentProgress;
           repositoryUrl := repositoryUrl currentProgress;
           status := default (status currentProgress) st;
           progress := p;
           currentStep := currentStep currentProgress;
           startTime := startTime currentProgress;
           lastUpdate := lastUpdate currentProgress;
           completedAt := completedAt currentProgress;
           result := result currentProgress;
           error := error currentProgress |} in
      let notified := notifications m ++ [ANALYSIS_PROGRESS url p now] in
      {| progressMap := <[ url := updated ]> (progressMap m);
         retryAttempts := retryAttempts m;
         notifications :=
           if bool_decide (st = Some AnalysisStatus.IN_PROGRESS)
           then notified
                ++ [QUEUE_UPDATE url
                      (Queue.getPosition url (queueService m)) now]
           else notified;
         cache := cacheProgress url p now (cache m);
         queueService := queueService m |}
  end.

(** [completeAnalysis(repositoryUrl, result)] *)
Definition completeAnalysis (url : string) (res : IAnalysisResult)
    (now : Z) (m : StatusManager) : StatusManager :=
  match progressMap m !! url with
  | None => m
  | Some progress0 =>
      let updated :=
        {| id := id progress0; repositoryUrl := repositoryUrl progress0;
           status := AnalysisStatus.COMPLETED; progress := 100;
           currentStep := currentStep progress0;
           startTime := startTime progress0;
           lastUpdate := lastUpdate progress0;
           completedAt := Some now; result := Some res;
           error := error progress0 |} in
      {| progressMap := <[ url := updated ]> (progressMap m);
         retryAttempts := retryAttempts m;
         notifications :=
           notifications m ++ [ANALYSIS_COMPLETE url res now];
         cache := cacheProgress url 100 now (cache m);
         queueService := queueService m |}
  end.

(** [markAsFailed(repositoryUrl, error)] *)
Definition markAsFailed (url : string) (err : Error) (now : Z)
    (m : StatusManager) : StatusManager :=
  match progressMap m !! url with
  | None => m
  | Some progress0 =>
      let updated :=
        {| id := id progress0; repositoryUrl := repositoryUrl progress0;
           status := AnalysisStatus.FAILED; progress := progress progress0;
           currentStep := currentStep progress0;
           startTime := startTime progress0;
           lastUpdate := lastUpdate progress0;
           completedAt := completedAt progress0;
           result := result progress0; error := Some err |} in
      {| progressMap := <[ url := updated ]> (progressMap m);
         retryAttempts := retryAttempts m;
         notifications := notifications m ++ [ANALYSIS_ERROR url err now];
         cache := Cache.invalidateProgress url (cache m);
         queueService := queueService m |}
  end.

(** [handleError(repositoryUrl, error)]: the answer (retry or not) and
    the manager it leaves. *)
Definition handleError (url : string) (err : Error) (now : Z)
    (random : Q) (m : StatusManager) : bool * StatusManager :=
  match progressMap m !! url with
  | None => (false, m)
  | Some _ =>
      match findRetryStrategy err with
      | None => (false, markAsFailed url err now m)
      | Some strategy =>
          let attempts := default 0 (retryAttempts m !! url) in
          if attempts >=? maxRetries strategy
          then (false, markAsFailed url err now m)
          else
            let m1 :=
              {| progressMap := progressMap m;
                 retryAttempts :=
                   <[ url := attempts + 1 ]> (retryAttempts m);
                 notifications := notifications m;
                 cache := cache m;
                 queueService := queueService m |} in
            match onRetry strategy (attempts + 1) random with
            | Ok _ => (true, m1)
            | Err retryError => (false, markAsFailed url retryError now m1)
            end
      end
  end.

(** [getProgress(repositoryUrl)] *)
Definition getProgress (url : string) (m : StatusManager)
    : option IAnalysisProgress :=
  progressMap m !! url.

(** [cleanup(repositoryUrl)] *)
Definition cleanup (url : string) (m : StatusManager) : StatusManager :=
  {| progressMap := delete url (progressMap m);
     retryAttempts := delete url (retryAttempts m);
     notifications := notifications m;
     cache := Cache.invalidateProgress url (cache m);
     queueService := queueService m |}.

(** One [handleError] per reported error, in order: the answers and the
    manager after the last. Each report carries the error, the clock
    and the random reading of that call. *)
Fixpoint handleErrors (url : string) (reports : list (Error * Z * Q))
    (m : StatusManager) : list bool * StatusManager :=
  match reports with
  | [] => ([], m)
  | (err, now, random) :: rest =>
      let '(answer, m1) := handleError url err now random m in
      let '(answers, m2) := handleErrors url rest m1 in
      (answer :: answers, m2)
  end.

(** The status recorded for a subject. *)
Definition status_of (url : string) (m : StatusManager)
    : option AnalysisStatus.t :=
  status <$> progressMap m !! url.

End Manager.

Arguments IAnalysisProgress : clear implicits.
Arguments INotification : clear implicits.
Arguments StatusManager : clear implicits.

(** *** Subjects without a progress record *)

(** C10. For a subject that has no progress record, [updateProgress] and
    [completeAnalysis] return without changing anything, and [handleError]
    answers false and changes nothing either: the subject is not marked
    Failed, nothing is notified, no retry counter moves. *)
Theorem no_record_no_effect {R : Type}
    (url : string) (p : Z) (st : option AnalysisStatus.t) (res : R)
    (err : Error) (now : Z) (random : Q) (m : StatusManager R) :
  progressMap m !! url = None ->
  updateProgress url p st now m = m
  /\ completeAnalysis url res now m = m
  /\ handleError url err now random m = (false, m).
Proof.
  intros H. unfold updateProgress, completeAnalysis, handleError.
  rewrite H. repeat split.
Qed.

(** A manager that lost the record of its subject but kept the rest. *)
Definition forgotten : StatusManager unit :=
  cleanup "repo"
    (snd (handleError "repo" {| message := "rate limit hit" |} 2 (1 # 2)
            (initializeProgress "repo" 1
               (new (Queue.new [] Queue.DEFAULT_CONFIG))))).

Lemma no_record_no_effect_witness :
  progressMap forgotten !! "repo" = None
  /\ handleError "repo" {| message := "rate limit hit" |} 3 (1 # 2) forgotten
     = (false, forgotten).
Proof.
  assert (progressMap forgotten !! "repo" = None) as H
    by apply lookup_delete_eq.
  split; [exact H |].
  exact (proj2 (proj2 (no_record_no_effect
                         "repo" 50 None tt {| message := "rate limit hit" |}
                         3 (1 # 2) forgotten H))).
Defined.

(** *** Retry exhaustion *)

(** The error belongs to a retry class that allows [n] retries. *)
Definition in_class (n : Z) (err : Error) : Prop :=
  exists strategy,
    findRetryStrategy err = Some strategy /\ maxRetries strategy = n.

Lemma onRetry_resolves strategy attempt random :
  In strategy (List.map snd retryStrategies) ->
  exists delay, onRetry strategy attempt random = Ok delay.
Proof.
  simpl. intros [<- | [<- | [<- | []]]]; simpl; eauto.
Qed.

Lemma findRetryStrategy_some err strategy :
  findRetryStrategy err = Some strategy ->
  In strategy (List.map snd retryStrategies).
Proof. intros H. exact (proj1 (find_some _ _ H)). Qed.

Section Exhaustion.
Context {R : Type}.
Implicit Types m : StatusManager R.

Definition attempts_of (url : string) m : Z :=
  default 0 (retryAttempts m !! url).

Lemma handleError_retry url err now random m strategy :
  is_Some (progressMap m !! url) ->
  findRetryStrategy err = Some strategy ->
  attempts_of url m < maxRetries strategy ->
  exists m1,
    handleError url err now random m = (true, m1)
    /\ progressMap m1 = progressMap m
    /\ attempts_of url m1 = attempts_of url m + 1.
Proof.
  intros [p Hp] Hs Hlt. unfold handleError, attempts_of in *.
  rewrite Hp, Hs.
  destruct (Z.geb_spec (default 0 (retryAttempts m !! url))
                       (maxRetries strategy)); [lia |].
  destruct (onRetry_resolves strategy
              (default 0 (retryAttempts m !! url) + 1) random
              (findRetryStrategy_some _ _ Hs)) as [d ->].
  eexists. split; [reflexivity |]. simpl.
  split; [reflexivity |]. now rewrite lookup_insert_eq.
Qed.

Lemma markAsFailed_status url err now m :
  is_Some (progressMap m !! url) ->
  status_of url (markAsFailed url err now m) = Some AnalysisStatus.FAILED
  /\ retryAttempts (markAsFailed url err now m) = retryAttempts m.
Proof.
  intros [p Hp]. unfold markAsFailed, status_of. rewrite Hp. simpl.
  now rewrite lookup_insert_eq.
Qed.

Lemma handleError_exhausted url err now random m strategy :
  is_Some (progressMap m !! url) ->
  findRetryStrategy err = Some strategy ->
  maxRetries strategy <= attempts_of url m ->
  handleError url err now random m = (false, markAsFailed url err now m).
Proof.
  intros [p Hp] Hs Hge. unfold handleError, attempts_of in *.
  rewrite Hp, Hs.
  destruct (Z.geb_spec (default 0 (retryAttempts m !! url))
                       (maxRetries strategy)); [reflexivity | lia].
Qed.

Lemma status_of_is_Some url m st :
  status_of url m = Some st -> is_Some (progressMap m !! url).
Proof.
  unfold status_of. destruct (progressMap m !! url); [eauto | discriminate].
Qed.

Lemma handleErrors_cons url err now random rest m :
  handleErrors url ((err, now, random) :: rest) m
  = (fst (handleError url err now random m)
       :: fst (handleErrors url rest
                 (snd (handleError url err now random m))),
     snd (handleErrors url rest (snd (handleError url err now random m)))).
Proof.
  simpl. destruct (handleError url err now random m) as [a m1]. simpl.
  destruct (handleErrors url rest m1); reflexivity.
Qed.

Lemma handleErrors_class url reports : forall m (k : nat),
  is_Some (progressMap m !! url) ->
  attempts_of url m = Z.of_nat k ->
  (k <= 3)%nat ->
  Forall (fun report => in_class 3 (fst (fst report))) reports ->
  fst (handleErrors url reports m)
  = repeat true (Nat.min (length reports) (3 - k))
    ++ repeat false (length reports - (3 - k))
  /\ is_Some (progressMap (snd (handleErrors url reports m)) !! url)
  /\ attempts_of url (snd (handleErrors url reports m))
     = Z.of_nat (Nat.min 3 (k + length reports))
  /\ ((3 - k < length reports)%nat ->
      status_of url (snd (handleErrors url reports m))
      = Some AnalysisStatus.FAILED).
Proof.
  induction reports as [|[[err now] random] rest IH]; intros m k Hp Hk Hle Hall.
  - cbn [handleErrors fst snd length].
    split; [reflexivity |]. split; [assumption |].
    split; [rewrite Hk; f_equal; lia | lia].
  - rewrite handleErrors_cons.
    apply Forall_cons_1 in Hall as [[strategy [Hs Hmax]] Hall].
    simpl in Hs.
    destruct (Nat.eq_dec k 3%nat) as [-> | Hne].
    + rewrite (handleError_exhausted url err now random m strategy Hp Hs)
        by lia.
      destruct (markAsFailed_status url err now m Hp) as [Hst Hre].
      assert (attempts_of url (markAsFailed url err now m) = Z.of_nat 3)
        as Hk' by (unfold attempts_of in *; now rewrite Hre).
      destruct (IH (markAsFailed url err now m) 3%nat
                   (status_of_is_Some _ _ _ Hst) Hk' Hle Hall)
        as (IHa & IHp & IHk & IHf).
      cbn [fst snd length]. rewrite IHa.
      replace (3 - 3)%nat with 0%nat in * by lia.
      rewrite !Nat.min_0_r, !Nat.sub_0_r. cbn [repeat app].
      split; [reflexivity |]. split; [assumption |].
      split; [rewrite IHk; f_equal; lia |].
      intros _. destruct rest as [|r rest'].
      * exact Hst.
      * apply IHf. simpl. lia.
    + destruct (handleError_retry url err now random m strategy Hp Hs)
        as (m1 & -> & Hpm & Hat); [lia |].
      assert (is_Some (progressMap m1 !! url)) as Hp1
        by now rewrite Hpm.
      assert (attempts_of url m1 = Z.of_nat (S k)) as Hk1 by lia.
      destruct (IH m1 (S k) Hp1 Hk1 ltac:(lia) Hall)
        as (IHa & IHp & IHk & IHf).
      cbn [fst snd length]. rewrite IHa.
      replace (3 - k)%nat with (S (3 - S k)) by lia.
      rewrite <- Nat.succ_min_distr. cbn [repeat app Nat.sub].
      split; [reflexivity |]. split; [assumption |].
      split; [rewrite IHk; f_equal; lia |].
      intros H. apply IHf. lia.
Qed.

Lemma attempts_of_cleanup url now m :
  attempts_of url (initializeProgress url now (cleanup url m)) = 0
  /\ is_Some (progressMap (initializeProgress url now (cleanup url m))
                !! url).
Proof.
  unfold attempts_of. simpl. rewrite lookup_delete_eq, lookup_insert_eq.
  split; [reflexivity | eauto].
Qed.

(** C4, as the code has it. The manager keeps one retry counter per
    subject, shared by all retry classes, and only [cleanup] removes it.
    For a subject that has a progress record and whose counter is unset
    (no retry since the manager was created or since its last [cleanup]),
    and that reports errors which all match a retry class with
    [maxRetries = 3]: [handleError] answers true to the first three and
    false to every later one; once a fourth has been reported the subject
    is marked Failed, and any further matching error is answered false.
    Only after [cleanup] has dropped the subject's record and counter (and
    the record has been initialized again) is a matching error retried
    once more. *)
Theorem retry_exhaustion
    (url : string) (reports : list (Error * Z * Q))
    (err : Error) (now : Z) (random : Q) m :
  is_Some (progressMap m !! url) ->
  retryAttempts m !! url = None ->
  Forall (fun report => in_class 3 (fst (fst report))) reports ->
  in_class 3 err ->
  let answers := fst (handleErrors url reports m) in
  let m' := snd (handleErrors url reports m) in
  answers = repeat true (Nat.min (length reports) 3)
            ++ repeat false (length reports - 3)
  /\ ((3 < length reports)%nat ->
      status_of url m' = Some AnalysisStatus.FAILED)
  /\ ((3 <= length reports)%nat ->
      fst (handleError url err now random m') = false)
  /\ progressMap (cleanup url m') !! url = None
  /\ retryAttempts (cleanup url m') !! url = None
  /\ fst (handleError url err now random
            (initializeProgress url now (cleanup url m'))) = true.
Proof.
  intros Hp Hfresh Hall [strategy [Hs Hmax]] answers m'.
  assert (attempts_of url m = Z.of_nat 0) as Hk
    by (unfold attempts_of; now rewrite Hfresh).
  destruct (handleErrors_class url reports m 0%nat Hp Hk ltac:(lia) Hall)
    as (Ha & Hp' & Hk' & Hf).
  fold m' in Hp', Hk', Hf. fold answers in Ha.
  split; [exact Ha |]. split; [exact Hf |].
  split.
  { intros Hlen.
    rewrite (handleError_exhausted url err now random m' strategy Hp' Hs);
      [reflexivity |].
    rewrite Hk', Hmax. lia. }
  split; [apply lookup_delete_eq |].
  split; [apply lookup_delete_eq |].
  destruct (attempts_of_cleanup url now m') as [H0 Hsome].
  destruct (handleError_retry url err now random _ strategy Hsome Hs)
    as (m1 & -> & _); [lia | reflexivity].
Qed.

End Exhaustion.

Definition rate_limited : Error := {| message := "API rate limit exceeded" |}.

Definition five_reports : list (Error * Z * Q) :=
  [ (rate_limited, 10, 1 # 2); (rate_limited, 20, 1 # 3);
    (rate_limited, 30, 1 # 4); (rate_limited, 40, 1 # 5);
    (rate_limited, 50, 1 # 6) ].

Definition tracked : StatusManager unit :=
  initializeProgress "repo" 1 (new (Queue.new [] Queue.DEFAULT_CONFIG)).

Lemma rate_limited_in_class : in_class 3 rate_limited.
Proof. exists RATE_LIMIT. split; reflexivity. Qed.

Lemma retry_exhaustion_witness :
  is_Some (progressMap tracked !! "repo")
  /\ retryAttempts tracked !! "repo" = None
  /\ fst (handleErrors "repo" five_reports tracked)
     = [true; true; true; false; false]
  /\ status_of "repo" (snd (handleErrors "repo" five_reports tracked))
     = Some AnalysisStatus.FAILED.
Proof.
  assert (is_Some (progressMap tracked !! "repo")) as H1
    by (eexists; apply lookup_insert_eq).
  assert (retryAttempts tracked !! "repo" = None) as H2 by reflexivity.
  assert (Forall (fun report => in_class 3 (fst (fst report))) five_reports)
    as H3 by (repeat constructor; apply rate_limited_in_class).
  destruct (retry_exhaustion "repo" five_reports rate_limited 60 (1 # 2)
              tracked H1 H2 H3 rate_limited_in_class)
    as (Ha & Hf & _).
  split; [exact H1 | split; [exact H2 | split; [exact Ha |]]].
  apply Hf. simpl. lia.
Defined.

Definition network_down : Error := {| message := "network unreachable" |}.

Lemma network_down_in_class : in_class 5 network_down.
Proof. exists NETWORK. split; reflexivity. Qed.

(** A network error reported between the rate-limit errors. *)
Definition mixed_reports : list (Error * Z * Q) :=
  [ (rate_limited, 10, 1 # 2); (network_down, 20, 1 # 3);
    (rate_limited, 30, 1 # 4); (rate_limited, 40, 1 # 5);
    (rate_limited, 50, 1 # 6) ].

(** The answers given to the reports whose error is [err]. *)
Definition answers_to (err : Error) (reports : list (Error * Z * Q))
    (answers : list bool) : list bool :=
  List.map snd
    (List.filter
       (fun pair =>
          String.eqb (message (fst (fst (fst pair)))) (message err))
       (List.combine reports answers)).

(** C4 as stated fails where the subject's counter has moved for another
    reason.  With one network error among them the rate-limit errors are
    retried twice, not three times, before the subject is marked Failed.
    After the rate-limit class is exhausted and the subject Failed, a
    network error is still answered true.  And a subject whose record is
    initialized again without [cleanup] keeps its counter: its first
    rate-limit error is answered false. *)
Lemma retry_exhaustion_shared_counter :
  let exhausted := snd (handleErrors "repo" five_reports tracked) in
  let again := initializeProgress "repo" 60 exhausted in
  in_class 3 rate_limited /\ in_class 5 network_down
  /\ is_Some (progressMap tracked !! "repo")
  /\ retryAttempts tracked !! "repo" = None
  /\ fst (handleErrors "repo" mixed_reports tracked)
     = [true; true; true; false; false]
  /\ answers_to rate_limited mixed_reports
       (fst (handleErrors "repo" mixed_reports tracked))
     = [true; true; false; false]
  /\ status_of "repo" exhausted = Some AnalysisStatus.FAILED
  /\ fst (handleError "repo" network_down 60 (1 # 2) exhausted) = true
  /\ status_of "repo" again = Some AnalysisStatus.PENDING
  /\ retryAttempts again !! "repo" = Some 3
  /\ fst (handleError "repo" rate_limited 70 (1 # 2) again) = false.
Proof.
  split; [apply rate_limited_in_class |].
  split; [apply network_down_in_class |].
  split; [eexists; apply lookup_insert_eq |].
  vm_compute. repeat split.
Qed.

(** *** Backoff *)







End Status.


(** ** The resource manager: [ResourceManager], in [unnamed/part_002] *)

Module Resources.

(** The value of a JavaScript division: a finite quotient, or one of the
    special values that a zero divisor or an overflow produces. *)
Inductive number :=
| Finite (q : Q)
| PosInfinity
| NegInfinity
| NaN.

(** [Number.MAX_VALUE], the largest double. *)
Definition MAX_VALUE : Q := inject_Z (2 ^ 1024 - 2 ^ 971).

(** [x / y]: the quotient rounded to a double. *)
Definition divide (x y : Q) : number :=
  if Qeq_bool y 0
  then if Qeq_bool x 0 then NaN
       else if Qle_bool 0 x then PosInfinity else NegInfinity
  else
    let q := Double.round (x / y) in
    if Qle_bool q MAX_VALUE
    then if Qle_bool (- MAX_VALUE) q then Finite q else NegInfinity
    else PosInfinity.

(** [n < c]; a comparison with [NaN] is false. *)
Definition less (n : number) (c : Q) : bool :=
  match n with
  | Finite q => negb (Qle_bool c q)
  | NegInfinity => true
  | PosInfinity | NaN => false
  end.

(** [n >= c] *)
Definition at_least (n : number) (c : Q) : bool :=
  match n with
  | Finite q => Qle_bool c q
  | PosInfinity => true
  | NegInfinity | NaN => false
  end.

(** The constants [0.9] and [0.1] are the doubles next to those decimals. *)
Definition STORAGE_CLEANUP_THRESHOLD : Q := Double.round (9 # 10).
Definition QUEUE_CLEANUP_AGE : Q := inject_Z (24 * 60 * 60 * 1000).
Definition RATE_LIMIT_BUFFER : Q := Double.round (1 # 10).
Definition SYSTEM_HEALTH_THRESHOLD : Q := Double.round (9 # 10).

Inductive RateLimitType := GITHUB_API | GITHUB_SEARCH | OPENAI_API | TWITTER_API.

Record IRateLimit := {
  remaining : Z;
  limit : Z;
  reset : Z
}.

Record IQueueMetrics := {
  totalItems : Z;
  processingItems : Z;
  failedItems : Z;
  averageWaitTime : Q;
  averageProcessingTime : Q;
  maxConcurrent : Z
}.

Record StorageUsage := {
  used : Q;
  total : Q;
  percentage : number
}.

Record QueueMetrics := {
  queue_length : Z;
  active : Z;
  queue_maxConcurrent : Z;
  queue_averageWaitTime : Q
}.

Record SystemHealth := {
  cpuUsage : number;
  memoryUsage : number;
  isHealthy : bool
}.

Record ResourceMetrics := {
  available : bool;
  storageUsage : StorageUsage;
  queueMetrics : QueueMetrics;
  activeAnalyses : Z;
  rateLimits : list (RateLimitType * IRateLimit);
  systemHealth : SystemHealth
}.

Inductive ResourceErrorCode :=
| STORAGE_FULL | QUEUE_FULL | RATE_LIMIT_EXCEEDED | RESOURCE_NOT_FOUND
| RESOURCE_LOCKED | RESOURCE_INVALID | CLEANUP_FAILED | SYSTEM_ERROR.

(** [ResourceError]: message, code, and the reasons listed in its details
    (empty when the details carry a cause instead). *)
Record ResourceError := {
  message : string;
  code : ResourceErrorCode;
  reasons : list string
}.

(** What the collaborators answer during one [checkResources()]: the
    storage service, the queue service, the repository service (one rate
    limit per type), the operating system, and whether each cleanup pass,
    if started, runs to its end. *)
Record Answers := {
  storage_totalSize : promise string Q;
  storage_totalQuota : Q;
  queue_getMetrics : promise string IQueueMetrics;
  repository_getRateLimit : RateLimitType -> promise string IRateLimit;
  os_loadavg : Q;
  os_cpus : Q;
  os_totalmem : Q;
  os_freemem : Q;
  storageCleanup_completes : bool;
  queueCleanup_completes : bool
}.

(** The cleanup passes that a check starts. *)
Inductive Cleanup := StorageCleanup | QueueCleanup.

(** [isRateLimitCritical(limit)] *)
Definition isRateLimitCritical (l : IRateLimit) : bool :=
  let buffer :=
    Qceiling (Double.round (inject_Z (limit l) * RATE_LIMIT_BUFFER)) in
  remaining l <=? buffer.

(** [getAllRateLimits()]: the types in the order of the enumeration; the
    first failing lookup rejects. *)
Fixpoint collectRateLimits (types : list RateLimitType)
    (lookup : RateLimitType -> promise string IRateLimit)
    : promise ResourceError (list (RateLimitType * IRateLimit)) :=
  match types with
  | [] => Ok []
  | type :: rest =>
      match lookup type with
      | Err _ =>
          Err {| message := "Failed to get rate limit";
                 code := RATE_LIMIT_EXCEEDED; reasons := [] |}
      | Ok l =>
          match collectRateLimits rest lookup with
          | Err e => Err e
          | Ok limits => Ok ((type, l) :: limits)
          end
      end
  end.

Definition getAllRateLimits (a : Answers)
    : promise ResourceError (list (RateLimitType * IRateLimit)) :=
  collectRateLimits [GITHUB_API; GITHUB_SEARCH; OPENAI_API; TWITTER_API]
                    (repository_getRateLimit a).

(** The four sub-checks of [checkResources], as it reads them off the
    metrics it has assembled. *)
Definition isStorageAvailable (m : ResourceMetrics) : bool :=
  less (percentage (storageUsage m)) STORAGE_CLEANUP_THRESHOLD.

Definition isQueueAvailable (m : ResourceMetrics) : bool :=
  active (queueMetrics m) <? queue_maxConcurrent (queueMetrics m).

Definition areRateLimitsAvailable (m : ResourceMetrics) : bool :=
  forallb (fun entry => negb (isRateLimitCritical (snd entry))) (rateLimits m).

Definition isSystemHealthy (m : ResourceMetrics) : bool :=
  isHealthy (systemHealth m).

Definition with_available (m : ResourceMetrics) (b : bool) : ResourceMetrics :=
  {| available := b; storageUsage := storageUsage m;
     queueMetrics := queueMetrics m; activeAnalyses := activeAnalyses m;
     rateLimits := rateLimits m; systemHealth := systemHealth m |}.

Definition check_failed : ResourceError :=
  {| message := "Failed to check resources"; code := SYSTEM_ERROR;
     reasons := [] |}.

(** [checkResources()]: the cleanup passes it started, and the metrics or
    the error it ends with. Whatever is thrown inside its [try] leaves as a
    [SYSTEM_ERROR]. *)
Definition checkResources (a : Answers)
    : list Cleanup * promise ResourceError ResourceMetrics :=
  match storage_totalSize a, queue_getMetrics a, getAllRateLimits a with
  | Ok totalSize, Ok queue, Ok limits =>
      let cpu := divide (os_loadavg a) (os_cpus a) in
      let memory :=
        divide (Double.round (os_totalmem a - os_freemem a))
               (os_totalmem a) in
      let metrics :=
        {| available := false;
           storageUsage :=
             {| used := totalSize; total := storage_totalQuota a;
                percentage := divide totalSize (storage_totalQuota a) |};
           queueMetrics :=
             {| queue_length := totalItems queue;
                active := processingItems queue;
                queue_maxConcurrent := maxConcurrent queue;
                queue_averageWaitTime := averageWaitTime queue |};
           activeAnalyses := processingItems queue;
           rateLimits := limits;
           systemHealth :=
             {| cpuUsage := cpu; memoryUsage := memory;
                isHealthy := less cpu SYSTEM_HEALTH_THRESHOLD
                             && less memory SYSTEM_HEALTH_THRESHOLD |} |} in
      let metrics :=
        with_available metrics
          (isStorageAvailable metrics && isQueueAvailable metrics
           && areRateLimitsAvailable metrics && isSystemHealthy metrics) in
      let stale :=
        negb (Qle_bool (queue_averageWaitTime (queueMetrics metrics))
                       QUEUE_CLEANUP_AGE) in
      if negb (isStorageAvailable metrics)
      then
        if storageCleanup_completes a
        then
          if stale
          then ([StorageCleanup; QueueCleanup],
                if queueCleanup_completes a then Ok metrics
                else Err check_failed)
          else ([StorageCleanup], Ok metrics)
        else ([StorageCleanup], Err check_failed)
      else
        if stale
        then ([QueueCleanup],
              if queueCleanup_completes a then Ok metrics
              else Err check_failed)
        else ([], Ok metrics)
  | _, _, _ => ([], Err check_failed)
  end.

(** [validateResources(repositoryUrl)]: it resolves with [true] or rejects
    with a [ResourceError]; an error of [checkResources] is a
    [ResourceError] and is thrown on as it is. *)
Definition validateResources (repositoryUrl : string) (a : Answers)
    : promise ResourceError bool :=
  match snd (checkResources a) with
  | Err e => Err e
  | Ok metrics =>
      if negb (available metrics)
      then
        let reasons :=
          (if at_least (percentage (storageUsage metrics))
                       STORAGE_CLEANUP_THRESHOLD
           then ["Storage quota exceeded"%string] else [])
          ++ (if active (queueMetrics metrics)
                 >=? queue_maxConcurrent (queueMetrics metrics)
              then ["Queue capacity reached"%string] else [])
          ++ (if negb (isHealthy (systemHealth metrics))
              then ["System resources constrained"%string] else []) in
        Err {| message := "Resources not available";
               code := RESOURCE_INVALID; reasons := reasons |}
      else Ok true
  end.

(** *** The admission gate *)


(** The metrics of a check that ends well: [available] is the conjunction of
    the four sub-checks, and the percentage is the quotient of the storage
    service's numbers. *)
Lemma checkResources_ok a m :
  snd (checkResources a) = Ok m ->
  available m
  = isStorageAvailable m && isQueueAvailable m
    && areRateLimitsAvailable m && isSystemHealthy m
  /\ exists totalSize,
       storage_totalSize a = Ok totalSize
       /\ percentage (storageUsage m)
          = divide totalSize (storage_totalQuota a).
Proof.
  unfold checkResources.
  destruct (storage_totalSize a) as [totalSize|]; [| discriminate].
  destruct (queue_getMetrics a) as [queue|]; [| discriminate].
  destruct (getAllRateLimits a) as [limits|]; [| discriminate].
  set (base := {| available := false;
                  storageUsage := _; queueMetrics := _; activeAnalyses := _;
                  rateLimits := limits; systemHealth := _ |}).
  set (metrics := with_available base _).
  assert (available metrics
          = isStorageAvailable metrics && isQueueAvailable metrics
            && areRateLimitsAvailable metrics && isSystemHealthy metrics
          /\ exists t, Ok (E := string) totalSize = Ok t
               /\ percentage (storageUsage metrics)
                  = divide t (storage_totalQuota a)) as Hm.
  { split; [reflexivity | exists totalSize; split; reflexivity]. }
  clearbody metrics.
  repeat match goal with
         | |- context [if ?b then _ else _] => destruct b
         end;
    simpl; intros H; try discriminate H; injection H as <-; exact Hm.
Qed.

Lemma checkResources_error a e :
  snd (checkResources a) = Err e -> code e = SYSTEM_ERROR.
Proof.
  unfold checkResources.
  repeat match goal with
         | |- context [match ?x with _ => _ end] => destruct x
         end;
    simpl; intros H; try discriminate H; injection H as <-; reflexivity.
Qed.

Lemma validateResources_cases repositoryUrl a :
  match snd (checkResources a) with
  | Err e => validateResources repositoryUrl a = Err e
  | Ok m =>
      if available m
      then validateResources repositoryUrl a = Ok true
      else exists e, validateResources repositoryUrl a = Err e
                     /\ code e = RESOURCE_INVALID
                     /\ (at_least (percentage (storageUsage m))
                                  STORAGE_CLEANUP_THRESHOLD = true ->
                         In "Storage quota exceeded"%string (reasons e))
  end.
Proof.
  unfold validateResources.
  destruct (snd (checkResources a)) as [m | e]; [| reflexivity].
  destruct (available m); simpl; [reflexivity |].
  eexists; split; [reflexivity |]. split; [reflexivity |].
  simpl. intros ->. now left.
Qed.


Definition ample : IRateLimit :=
  {| remaining := 4000; limit := 5000; reset := 3600000 |}.

(** A quiet system whose storage holds [totalSize] of a quota of 100. *)
Definition quiet (totalSize : Q) : Answers := {|
  storage_totalSize := Ok totalSize;
  storage_totalQuota := 100;
  queue_getMetrics :=
    Ok {| totalItems := 3; processingItems := 1; failedItems := 0;
          averageWaitTime := 1000; averageProcessingTime := 2000;
          maxConcurrent := 5 |};
  repository_getRateLimit := fun _ => Ok ample;
  os_loadavg := 1; os_cpus := 4; os_totalmem := 16; os_freemem := 8;
  storageCleanup_completes := true;
  queueCleanup_completes := true
|}.

Example validateResources_quiet :
  validateResources "repo" (quiet 50) = Ok true.
Proof. vm_compute. reflexivity. Qed.

(** The quotient is rounded before it is compared: a usage that is below
    nine tenths of the quota by less than the rounding is the double
    [0.9], which is not below the threshold. *)
Example divide_rounds :
  (3600000000000008 / 4000000000000009 < 9 # 10)%Q
  /\ divide 3600000000000008 4000000000000009
     = Finite STORAGE_CLEANUP_THRESHOLD
  /\ less (divide 3600000000000008 4000000000000009)
          STORAGE_CLEANUP_THRESHOLD = false
  /\ exists e,
       validateResources "repo"
         {| storage_totalSize := Ok 3600000000000008%Q;
            storage_totalQuota := 4000000000000009;
            queue_getMetrics := queue_getMetrics (quiet 50);
            repository_getRateLimit := fun _ => Ok ample;
            os_loadavg := 1; os_cpus := 4; os_totalmem := 16;
            os_freemem := 8;
            storageCleanup_completes := true;
            queueCleanup_completes := true |} = Err e.
Proof.
  split; [reflexivity |]. split; [vm_compute; reflexivity |].
  split; [vm_compute; reflexivity |].
  eexists. vm_compute. reflexivity.
Qed.



End Resources.


(** ** The orchestrator's queue loop: [AnalysisOrchestrator.processQueue],
       in [src/services/repository.service.ts] *)

Module Orchestrator.

Import Status (Error, message).

(** A computation inside a [try] block: it threads the progress record it
    mutates and the log of what it did, and ends with a value or a thrown
    error. *)
Section Effects.
Context {S : Type}.

Definition M (A : Type) : Type := S -> S * promise Error A.

Definition ret {A} (a : A) : M A := fun s => (s, Ok a).

Definition bind {A B} (c : M A) (k : A -> M B) : M B :=
  fun s =>
    match c s with
    | (s1, Ok a) => k a s1
    | (s1, Err e) => (s1, Err e)
    end.

Definition throw {A} (e : Error) : M A := fun s => (s, Err e).

(** [try { body } catch (error) { handler }] *)
Definition try_catch {A} (body : M A) (handler : Error -> M A) : M A :=
  fun s =>
    match body s with
    | (s1, Ok a) => (s1, Ok a)
    | (s1, Err e) => handler e s1
    end.

Definition modify (f : S -> S) : M unit := fun s => (f s, Ok tt).

(** What an awaited promise settles to. *)
Definition settle {A} (outcome : promise Error A) : M A :=
  fun s => (s, outcome).

Definition read : M S := fun s => (s, Ok s).

End Effects.

Arguments M : clear implicits.

#[local] Instance M_bind {S} : MBind (M S) := fun A B k c => bind c k.
#[local] Instance M_ret {S} : MRet (M S) := fun A a => ret a.

Section Pipeline.

(** [AnalysisMethod] as the orchestrator imports it from the analysis
    router: the loop names the members [API], [CLONE] and [FAILED] and
    prints a method in a step label. *)
Context {AnalysisMethod : Type} `{EqDecision AnalysisMethod}.
Variables API CLONE FAILED : AnalysisMethod.
Variable method_name : AnalysisMethod -> string.

(** The fetched content and the analysis result, which the loop forwards. *)
Context {Content AnalysisResult : Type}.

Record IQueueItem := {
  item_id : string;
  repositoryUrl : string
}.

(** What [determineAnalysisMethod] resolves with. *)
Record Route := {
  method : AnalysisMethod;
  route_fallbackAvailable : bool;
  reason : string
}.

Record IAnalysisProgress := {
  id : string;
  status : AnalysisStatus.t;
  progress : Z;
  currentStep : string;
  analysisMethod : AnalysisMethod;
  fallbackAvailable : bool;
  result : option AnalysisResult
}.

(** What the loop does that others can observe: the assignments to
    [progress.progress] with the step label, and the calls to its
    collaborators; a status update records whether the queue resolved it. *)
Inductive Event :=
| Assign (progress : Z) (currentStep : string)
| DetermineAnalysisMethod (repositoryUrl : string)
| ExecuteAnalysis (repositoryUrl : string) (method : AnalysisMethod)
| AnalyzeCode (content : Content)
| UpdateStatus (id : string) (status : QueueStatus.t) (error : option string)
               (resolved : bool).

(** How each call of one pass resolves or rejects, per call site. *)
Record Outcomes := {
  route : promise Error Route;
  primary_content : promise Error Content;
  primary_analysis : promise Error AnalysisResult;
  primary_completed : promise Error unit;
  fallback_content : promise Error Content;
  fallback_analysis : promise Error AnalysisResult;
  fallback_completed : promise Error unit;
  failure_recorded : promise Error unit
}.

Record State := {
  current : IAnalysisProgress;
  log : list Event
}.

Definition emit (e : Event) : M State unit :=
  modify (fun s => {| current := current s; log := log s ++ [e] |}).

(** [await] of a collaborator's call. *)
Definition await {A} (call : Event) (outcome : promise Error A) : M State A :=
  emit call ;; settle outcome.

(** [progress.currentStep = step; progress.progress = p] *)
Definition step (label : string) (p : Z) : M State unit :=
  modify (fun s =>
    {| current :=
         {| id := id (current s); status := status (current s);
            progress := p; currentStep := label;
            analysisMethod := analysisMethod (current s);
            fallbackAvailable := fallbackAvailable (current s);
            result := result (current s) |};
       log := log s ++ [Assign p label] |}).

(** [progress.analysisMethod = route.method;
     progress.fallbackAvailable = route.fallbackAvailable] *)
Definition adopt (r : Route) : M State unit :=
  modify (fun s =>
    {| current :=
         {| id := id (current s); status := status (current s);
            progress := progress (current s);
            currentStep := currentStep (current s);
            analysisMethod := method r;
            fallbackAvailable := route_fallbackAvailable r;
            result := result (current s) |};
       log := log s |}).

(** [progress.result = result] *)
Definition keep (res : AnalysisResult) : M State unit :=
  modify (fun s =>
    {| current :=
         {| id := id (current s); status := status (current s);
            progress := progress (current s);
            currentStep := currentStep (current s);
            analysisMethod := analysisMethod (current s);
            fallbackAvailable := fallbackAvailable (current s);
            result := Some res |};
       log := log s |}).

(** [queueService.updateStatus(item.id, status, error)] *)
Definition updateStatus (item : IQueueItem) (st : QueueStatus.t)
    (error : option string) (outcome : promise Error unit) : M State unit :=
  await (UpdateStatus (item_id item) st error
                      (match outcome with Ok _ => true | Err _ => false end))
        outcome.

(** The body of the loop's [try]: the primary attempt. *)
Definition primary (item : IQueueItem) (o : Outcomes) : M State unit :=
  step "Determining analysis method" 10 ;;
  r ← await (DetermineAnalysisMethod (repositoryUrl item)) (route o);
  (if bool_decide (method r = FAILED)
   then throw {| message := reason r |} else ret tt) ;;
  step ("Analyzing via " +:+ method_name (method r)) 20 ;;
  adopt r ;;
  content ← await (ExecuteAnalysis (repositoryUrl item) (method r))
                   (primary_content o);
  step "Running AI analysis" 80 ;;
  res ← await (AnalyzeCode content) (primary_analysis o);
  step "Finalizing analysis" 90 ;;
  keep res ;;
  updateStatus item QueueStatus.COMPLETED None (primary_completed o) ;;
  step "Analysis completed" 100.

(** The body of the inner [try]: the fallback attempt. *)
Definition fallback (item : IQueueItem) (o : Outcomes) : M State unit :=
  content ← await (ExecuteAnalysis (repositoryUrl item) CLONE)
                   (fallback_content o);
  step "Running AI analysis" 80 ;;
  res ← await (AnalyzeCode content) (fallback_analysis o);
  step "Finalizing analysis" 90 ;;
  keep res ;;
  updateStatus item QueueStatus.COMPLETED None (fallback_completed o) ;;
  step "Analysis completed (via fallback)" 100.

(** The loop's [catch (error)]. *)
Definition recover (item : IQueueItem) (o : Outcomes) (error : Error)
    : M State unit :=
  s ← read;
  if fallbackAvailable (current s)
     && bool_decide (analysisMethod (current s) = API)
  then
    step "Attempting fallback to clone" 30 ;;
    try_catch (fallback item o)
      (fun fallbackError =>
         updateStatus item QueueStatus.FAILED
           (Some ("Analysis failed (including fallback): "
                  +:+ message fallbackError))
           (failure_recorded o))
  else
    updateStatus item QueueStatus.FAILED (Some (message error))
                 (failure_recorded o).

(** One dequeued item, from the first assignment to the end of the
    [catch]. *)
Definition processItem (item : IQueueItem) (o : Outcomes) : M State unit :=
  try_catch (primary item o) (recover item o).

(** When the loop runs next. *)
Inductive Next := Stop | Immediately | After (ms : Z).

(** [processQueue()]: one pass over what [dequeue()] hands out. An item
    without a progress record is left alone; an error that escapes the
    item's handling reschedules the loop after five seconds. *)
Definition processQueue (dequeued : promise Error (option IQueueItem))
    (o : Outcomes) (progressMap : gmap string IAnalysisProgress)
    : gmap string IAnalysisProgress * list Event * Next :=
  match dequeued with
  | Err _ => (progressMap, [], After 5000)
  | Ok None => (progressMap, [], Stop)
  | Ok (Some item) =>
      match progressMap !! item_id item with
      | None => (progressMap, [], Stop)
      | Some p =>
          let '(s, outcome) :=
            processItem item o {| current := p; log := [] |} in
          (<[ item_id item := current s ]> progressMap, log s,
           match outcome with Ok _ => Immediately | Err _ => After 5000 end)
      end
  end.

(** The methods executed, in order. *)
Definition executions (events : list Event) : list AnalysisMethod :=
  omap (fun e => match e with
                 | ExecuteAnalysis _ m => Some m
                 | _ => None
                 end) events.

(** The values assigned to [progress.progress], in order. *)
Definition progress_values (events : list Event) : list Z :=
  omap (fun e => match e with
                 | Assign p _ => Some p
                 | _ => None
                 end) events.

(** Whether a promise resolved. *)
Definition resolved {A} (outcome : promise Error A) : bool :=
  match outcome with Ok _ => true | Err _ => false end.

(** Every assignment of 100 comes right after a status update to Completed
    that the queue resolved. *)
Fixpoint completed_before_100 (previous : option Event)
    (events : list Event) : bool :=
  match events with
  | [] => true
  | e :: rest =>
      match e with
      | Assign p _ =>
          if p =? 100
          then match previous with
               | Some (UpdateStatus _ QueueStatus.COMPLETED _ true) => true
               | _ => false
               end
          else true
      | _ => true
      end && completed_before_100 (Some e) rest
  end.

(** *** Evaluating one pass *)

Lemma processItem_failed item o s failed error :
  primary item o s = (failed, Err error) ->
  processItem item o s = recover item o error failed.
Proof. intros H. unfold processItem, try_catch. now rewrite H. Qed.

Lemma processItem_done item o s final :
  primary item o s = (final, Ok tt) ->
  processItem item o s = (final, Ok tt).
Proof. intros H. unfold processItem, try_catch. now rewrite H. Qed.

Ltac evaluate :=
  cbv [primary recover fallback try_catch mbind M_bind mret M_ret bind ret
       throw modify read settle emit await step adopt keep updateStatus
       fst snd current log id status progress currentStep analysisMethod
       fallbackAvailable result andb].

Ltac flatten := repeat rewrite <- app_assoc; cbn [app].

(** The fallback branch of the handler: one execution with [CLONE], then
    either the completion or the record of the failure. *)
Lemma recover_fallback item o error s :
  fallbackAvailable (current s) = true ->
  analysisMethod (current s) = API ->
  exists tail,
    log (fst (recover item o error s))
    = log s ++ Assign 30 "Attempting fallback to clone"
            :: ExecuteAnalysis (repositoryUrl item) CLONE :: tail
    /\ executions tail = []
    /\ (resolved (fallback_content o) && resolved (fallback_analysis o)
        && resolved (fallback_completed o) = false ->
        exists why,
          last tail
          = Some (UpdateStatus (item_id item) QueueStatus.FAILED (Some why)
                               (resolved (failure_recorded o))))
    /\ (resolved (fallback_content o) && resolved (fallback_analysis o)
        && resolved (fallback_completed o) = true ->
        last tail = Some (Assign 100 "Analysis completed (via fallback)")).
Proof.
  intros Hfb Hm. destruct s as [[pid pst ppr pcs pam pfa pres] l].
  simpl in Hfb, Hm. subst pfa pam.
  evaluate. rewrite bool_decide_eq_true_2 by reflexivity.
  destruct (fallback_content o) as [content | e1]; cbn [log current].
  2:{ flatten. eexists. split; [reflexivity |]. split; [reflexivity |].
      split; [intros _; eexists; reflexivity | discriminate]. }
  destruct (fallback_analysis o) as [res | e2]; cbn [log current].
  2:{ flatten. eexists. split; [reflexivity |]. split; [reflexivity |].
      split; [intros _; eexists; reflexivity | discriminate]. }
  destruct (fallback_completed o) as [[] | e3]; cbn [log current].
  2:{ flatten. eexists. split; [reflexivity |]. split; [reflexivity |].
      split; [intros _; eexists; reflexivity | discriminate]. }
  flatten. eexists. split; [reflexivity |]. split; [reflexivity |].
  split; [discriminate | reflexivity].
Qed.

(** The other branch: the failure is recorded and nothing else happens. *)
Lemma recover_no_fallback item o error s :
  fallbackAvailable (current s) = false \/ analysisMethod (current s) <> API ->
  log (fst (recover item o error s))
  = log s ++ [UpdateStatus (item_id item) QueueStatus.FAILED
                           (Some (message error))
                           (resolved (failure_recorded o))].
Proof.
  intros Hgate. destruct s as [[pid pst ppr pcs pam pfa pres] l].
  simpl in Hgate. evaluate.
  destruct Hgate as [-> | Hne].
  - destruct (failure_recorded o); reflexivity.
  - rewrite bool_decide_eq_false_2 by assumption.
    destruct pfa; destruct (failure_recorded o); reflexivity.
Qed.

(** C5, as the code has it. When the primary attempt of a request fails
    while its progress record says [fallbackAvailable] and names [API] as
    the method, the loop makes exactly one fallback attempt, an execution
    with [CLONE], and executes nothing after it; if that attempt fails too,
    the last thing the loop does for the request is to set its queue status
    to Failed.  When the record names another method, or no fallback is
    available, the loop makes no fallback attempt and sets the status to
    Failed at once. *)
Theorem fallback_once
    (item : IQueueItem) (o : Outcomes) (p : IAnalysisProgress)
    (error : Error) :
  let s0 := {| current := p; log := [] |} in
  let failed := fst (primary item o s0) in
  let final := fst (processItem item o s0) in
  snd (primary item o s0) = Err error ->
  (fallbackAvailable (current failed) = true ->
   analysisMethod (current failed) = API ->
   exists tail,
     log final
     = log failed ++ Assign 30 "Attempting fallback to clone"
                  :: ExecuteAnalysis (repositoryUrl item) CLONE :: tail
     /\ executions tail = []
     /\ (resolved (fallback_content o) && resolved (fallback_analysis o)
         && resolved (fallback_completed o) = false ->
         exists why,
           last tail
           = Some (UpdateStatus (item_id item) QueueStatus.FAILED (Some why)
                                (resolved (failure_recorded o)))))
  /\ (fallbackAvailable (current failed) = false
      \/ analysisMethod (current failed) <> API ->
      log final
      = log failed ++ [UpdateStatus (item_id item) QueueStatus.FAILED
                                    (Some (message error))
                                    (resolved (failure_recorded o))]).
Proof.
  intros s0 failed final Hfail. subst failed final.
  destruct (primary item o s0) as [failed outcome] eqn:Hp.
  simpl in Hfail. subst outcome.
  rewrite (processItem_failed item o s0 failed error Hp). cbn [fst].
  split.
  - intros Hfb Hm.
    destruct (recover_fallback item o error failed Hfb Hm)
      as (tail & Hlog & Hex & Hfailed & _).
    exists tail. auto.
  - apply recover_no_fallback.
Qed.

Ltac by_cases o :=
  repeat (evaluate;
          first
            [ match goal with
              | |- context [route o] => destruct (route o) as [[? ? ?] | ?]
              end
            | match goal with
              | |- context [bool_decide (?m = FAILED)] =>
                  destruct (bool_decide (m = FAILED))
              end
            | match goal with
              | |- context [primary_content o] => destruct (primary_content o)
              end
            | match goal with
              | |- context [primary_analysis o] =>
                  destruct (primary_analysis o)
              end
            | match goal with
              | |- context [primary_completed o] =>
                  destruct (primary_completed o)
              end
            | match goal with
              | |- context [if ?b then _ else _] => destruct b
              end
            | match goal with
              | |- context [fallback_content o] =>
                  destruct (fallback_content o)
              end
            | match goal with
              | |- context [fallback_analysis o] =>
                  destruct (fallback_analysis o)
              end
            | match goal with
              | |- context [fallback_completed o] =>
                  destruct (fallback_completed o)
              end
            | match goal with
              | |- context [failure_recorded o] =>
                  destruct (failure_recorded o)
              end ]).

Ltac segments first :=
  exists first; eexists;
  split; [reflexivity | split; eexists; reflexivity].

(** The values that one pass assigns to [progress.progress]: a beginning of
    the primary attempt's 10, 20, 80, 90, 100 and then, if the fallback was
    entered, a beginning of its 30, 80, 90, 100. *)
Lemma processItem_values item o p :
  let final := fst (processItem item o {| current := p; log := [] |}) in
  (exists first second,
     progress_values (log final) = first ++ second
     /\ first `prefix_of` [10; 20; 80; 90; 100]
     /\ second `prefix_of` [30; 80; 90; 100])
  /\ completed_before_100 None (log final) = true.
Proof.
  intros final. subst final. unfold processItem.
  destruct p as [pid pst ppr pcs pam pfa pres].
  by_cases o; cbn;
    (split; [| reflexivity]);
    first [ segments [10; 20; 80; 90; 100] | segments [10; 20; 80; 90]
          | segments [10; 20; 80] | segments [10; 20] | segments [10] ].
Qed.

(** C7, as the code has it. Within one attempt of the queue loop the
    values assigned to [progress] do not decrease: the primary attempt
    assigns a beginning of 10, 20, 80, 90, 100, and a fallback attempt
    starts over with a beginning of 30, 80, 90, 100; [progress] becomes 100
    only right after the queue resolved the update of the item's status to
    Completed.  The status manager's [updateProgress] stores whatever value
    it is given, and its [completeAnalysis] sets [progress] to 100 together
    with the status Completed. *)
Theorem progress_by_attempt
    (item : IQueueItem) (o : Outcomes) (p : IAnalysisProgress) :
  let final := fst (processItem item o {| current := p; log := [] |}) in
  (exists first second,
     progress_values (log final) = first ++ second
     /\ first `prefix_of` [10; 20; 80; 90; 100]
     /\ second `prefix_of` [30; 80; 90; 100])
  /\ completed_before_100 None (log final) = true
  /\ (forall (R : Type) (url : string) (v : Z) (st : option AnalysisStatus.t)
        (now : Z) (m : Status.StatusManager R),
        is_Some (Status.progressMap m !! url) ->
        Status.progress
          <$> Status.progressMap (Status.updateProgress url v st now m) !! url
        = Some v)
  /\ (forall (R : Type) (url : string) (res : R) (now : Z)
        (m : Status.StatusManager R),
        is_Some (Status.progressMap m !! url) ->
        (fun r => (Status.progress r, Status.status r))
          <$> Status.progressMap (Status.completeAnalysis url res now m) !! url
        = Some (100, AnalysisStatus.COMPLETED)).
Proof.
  intros final.
  destruct (processItem_values item o p) as [Hseg Hdone].
  split; [exact Hseg |]. split; [exact Hdone |]. split.
  - intros R url v st now m [r Hr]. unfold Status.updateProgress.
    rewrite Hr. cbn [Status.progressMap]. now rewrite lookup_insert_eq.
  - intros R url res now m [r Hr]. unfold Status.completeAnalysis.
    rewrite Hr. cbn [Status.progressMap]. now rewrite lookup_insert_eq.
Qed.

End Pipeline.

(** The members of [AnalysisMethod] that the loop names, to run it on
    examples. *)
Module AnalysisMethod.
Inductive t := API | CLONE | FAILED.
#[global] Instance eq_dec : EqDecision t.
Proof. solve_decision. Defined.
Definition name (m : t) : string :=
  match m with API => "api" | CLONE => "clone" | FAILED => "failed" end.
End AnalysisMethod.

Definition run_item (o : Outcomes (AnalysisMethod := AnalysisMethod.t))
    (p : IAnalysisProgress (AnalysisMethod := AnalysisMethod.t)
                           (AnalysisResult := string))
    : State (Content := string) * promise Error unit :=
  processItem AnalysisMethod.API AnalysisMethod.CLONE AnalysisMethod.FAILED
              AnalysisMethod.name
              {| item_id := "q1"; repositoryUrl := "repo" |} o
              {| current := p; log := [] |}.

Definition queued (m : AnalysisMethod.t) (fb : bool)
    : IAnalysisProgress (AnalysisMethod := AnalysisMethod.t)
                        (AnalysisResult := string) :=
  {| id := "q1"; status := AnalysisStatus.PENDING; progress := 0;
     currentStep := "Queued for analysis"; analysisMethod := m;
     fallbackAvailable := fb; result := None |}.

(** The content is fetched by [m], then the analysis fails; everything the
    fallback would call works. *)
Definition analysis_fails (m : AnalysisMethod.t)
    : Outcomes (AnalysisMethod := AnalysisMethod.t) (Content := string)
               (AnalysisResult := string) :=
  {| route := Ok {| method := m; route_fallbackAvailable := true;
                    reason := EmptyString |};
     primary_content := Ok "code"%string;
     primary_analysis := Err {| message := "model unavailable" |};
     primary_completed := Ok tt;
     fallback_content := Ok "code"%string;
     fallback_analysis := Ok "verdict"%string;
     fallback_completed := Ok tt;
     failure_recorded := Ok tt |}.

Lemma fallback_once_witness :
  let item := {| item_id := "q1"; repositoryUrl := "repo" |} in
  let o := analysis_fails AnalysisMethod.API in
  let p := queued AnalysisMethod.API true in
  let failed :=
    fst (primary AnalysisMethod.FAILED AnalysisMethod.name item o
                 {| current := p; log := [] |}) in
  snd (primary AnalysisMethod.FAILED AnalysisMethod.name item o
               {| current := p; log := [] |})
  = Err {| message := "model unavailable" |}
  /\ fallbackAvailable (current failed) = true
  /\ analysisMethod (current failed) = AnalysisMethod.API
  /\ exists tail,
       log (fst (run_item o p))
       = log failed ++ Assign 30 "Attempting fallback to clone"
                    :: ExecuteAnalysis "repo" AnalysisMethod.CLONE :: tail
       /\ executions tail = [].
Proof.
  intros item o p failed.
  assert (snd (primary AnalysisMethod.FAILED AnalysisMethod.name item o
                       {| current := p; log := [] |})
          = Err {| message := "model unavailable" |}) as H by reflexivity.
  assert (fallbackAvailable (current failed) = true) as Hfb by reflexivity.
  assert (analysisMethod (current failed) = AnalysisMethod.API) as Hm
    by reflexivity.
  split; [exact H | split; [exact Hfb | split; [exact Hm |]]].
  destruct (proj1 (fallback_once AnalysisMethod.API AnalysisMethod.CLONE
                     AnalysisMethod.FAILED AnalysisMethod.name item o p
                     {| message := "model unavailable" |} H) Hfb Hm)
    as (tail & Hlog & Hex & _).
  exists tail. split; [exact Hlog | exact Hex].
Defined.

(** C5 as stated fails when the method is not [API]: the route chose
    [CLONE] with [fallbackAvailable] set, the primary attempt fails, and the
    loop records the failure without any fallback attempt. *)
Lemma no_fallback_after_clone :
  let final := fst (run_item (analysis_fails AnalysisMethod.CLONE)
                             (queued AnalysisMethod.CLONE true)) in
  fallbackAvailable (current final) = true
  /\ executions (log final) = [AnalysisMethod.CLONE]
  /\ log final
     = [ Assign 10 "Determining analysis method";
         DetermineAnalysisMethod "repo";
         Assign 20 "Analyzing via clone";
         ExecuteAnalysis "repo" AnalysisMethod.CLONE;
         Assign 80 "Running AI analysis";
         AnalyzeCode "code"%string;
         UpdateStatus "q1" QueueStatus.FAILED (Some "model unavailable"%string)
                      true ].
Proof. vm_compute. repeat split. Qed.

(** C7 as stated fails twice over.  In the queue loop a fallback that
    starts after the analysis step takes [progress] from 80 back to 30 while
    the request is still in progress; and the status manager stores a lower
    value after a higher one, and the value 100, for a subject whose status
    stays Pending. *)
Lemma progress_decreases :
  progress_values
    (log (fst (run_item (analysis_fails AnalysisMethod.API)
                        (queued AnalysisMethod.API true))))
  = [10; 20; 80; 30; 80; 90; 100]
  /\ (let observe (m : Status.StatusManager unit) :=
        (fun r => (Status.progress r, Status.status r))
          <$> Status.progressMap m !! "repo" in
      let m1 := Status.updateProgress "repo" 50 None 2 Status.tracked in
      let m2 := Status.updateProgress "repo" 20 None 3 m1 in
      let m3 := Status.updateProgress "repo" 100 None 4 m2 in
      observe m1 = Some (50, AnalysisStatus.PENDING)
      /\ observe m2 = Some (20, AnalysisStatus.PENDING)
      /\ observe m3 = Some (100, AnalysisStatus.PENDING)).
Proof. vm_compute. repeat split. Qed.

Lemma progress_by_attempt_witness :
  completed_before_100 None
    (log (fst (run_item (analysis_fails AnalysisMethod.API)
                        (queued AnalysisMethod.API true)))) = true.
Proof.
  exact (proj1 (proj2 (progress_by_attempt
                         AnalysisMethod.API AnalysisMethod.CLONE
                         AnalysisMethod.FAILED AnalysisMethod.name
                         {| item_id := "q1"; repositoryUrl := "repo" |}
                         (analysis_fails AnalysisMethod.API)
                         (queued AnalysisMethod.API true)))).
Defined.

End Orchestrator.


(** ** The queue, continued: the remaining operations of
       [src/services/queue.service.ts] *)

Module QueueOps.

Import Queue.

(** [getQueueLength()] *)
Definition getQueueLength (q : QueueService) : Z :=
  count_status QueueStatus.PENDING (table q).

(** [isQueued(repositoryUrl)] *)
Definition isQueued (url : string) (q : QueueService) : bool :=
  Z.of_nat
    (length
       (List.filter
          (fun r => bool_decide (repositoryUrl r = url)
                    && (bool_decide (status r = QueueStatus.PENDING)
                        || bool_decide (status r = QueueStatus.PROCESSING)))
          (table q)))
  >? 0.

(** The rows of a subject that wait to be served. *)
Definition pending_of (url : string) (q : QueueService) : list Row :=
  List.filter (fun r => bool_decide (repositoryUrl r = url) && is_pending r)
              (table q).

(** *** Counting rows *)

Lemma filter_length_le {A} (f : A -> bool) (l : list A) :
  (length (List.filter f l) <= length l)%nat.
Proof.
  induction l as [|x l IH]; simpl; [lia |]. destruct (f x); simpl; lia.
Qed.

Lemma filter_length_weaken {A} (f g : A -> bool) (l : list A) :
  (forall x, In x l -> f x = true -> g x = true) ->
  (length (List.filter f l) <= length (List.filter g l))%nat.
Proof.
  induction l as [|x l IH]; intros H; simpl; [lia |].
  assert (length (List.filter f l) <= length (List.filter g l))%nat as IH'
    by (apply IH; intros y Hy; apply H; now right).
  destruct (f x) eqn:Hf.
  - rewrite (H x (or_introl eq_refl) Hf). simpl. lia.
  - destruct (g x); simpl; lia.
Qed.

Lemma filter_length_strict {A} (f g : A -> bool) (l : list A) (a : A) :
  (forall x, In x l -> f x = true -> g x = true) ->
  In a l -> g a = true -> f a = false ->
  (length (List.filter f l) < length (List.filter g l))%nat.
Proof.
  induction l as [|x l IH]; intros H Ha Hg Hf; [destruct Ha |].
  simpl. destruct Ha as [-> | Ha].
  - rewrite Hf, Hg. simpl.
    pose proof (filter_length_weaken f g l
                  (fun y Hy => H y (or_intror Hy))). lia.
  - assert (length (List.filter f l) < length (List.filter g l))%nat as IH'
      by (apply IH; auto; intros y Hy; apply H; now right).
    destruct (f x) eqn:Hfx.
    + rewrite (H x (or_introl eq_refl) Hfx). simpl. lia.
    + destruct (g x); simpl; lia.
Qed.

Lemma sorts_before_irrefl r : sorts_before r r = false.
Proof. apply sorts_before_false, no_later_refl. Qed.

Lemma getPosition_none url q :
  pending_of url q = [] -> getPosition url q = -1.
Proof.
  unfold getPosition, pending_of. intros H.
  destruct (List.find _ (table q)) as [item|] eqn:F; [| reflexivity].
  apply find_some in F as [Hin Hp].
  assert (In item (List.filter
                     (fun r => bool_decide (repositoryUrl r = url)
                               && is_pending r) (table q))) as Hf
    by (apply filter_In; auto).
  rewrite H in Hf. destruct Hf.
Qed.

Lemma getPosition_some url q r rest :
  pending_of url q = r :: rest ->
  getPosition url q
  = Z.of_nat (length (List.filter
                        (fun x => is_pending x && sorts_before x r)
                        (table q))) + 1
  /\ In r (table q) /\ repositoryUrl r = url
  /\ status r = QueueStatus.PENDING.
Proof.
  unfold getPosition, pending_of. intros H.
  assert (List.find (fun r => bool_decide (repositoryUrl r = url)
                              && is_pending r) (table q) = Some r) as F.
  { induction (table q) as [|x l IH]; simpl in *; [discriminate |].
    destruct (bool_decide (repositoryUrl x = url) && is_pending x).
    - now injection H as -> _.
    - now apply IH. }
  rewrite F. split; [reflexivity |].
  apply find_some in F as [Hin Hp].
  apply andb_prop in Hp as [Hu Hs].
  apply bool_decide_eq_true in Hu. unfold is_pending in Hs.
  apply bool_decide_eq_true in Hs. auto.
Qed.

(** X1. [getPosition] answers [-1] exactly when the subject has no Pending
    row; otherwise the position is at least 1 and at most the number of
    Pending rows, which is what [getQueueLength] returns. *)
Theorem getPosition_range (url : string) (q : QueueService) :
  (getPosition url q = -1 <-> pending_of url q = [])
  /\ (pending_of url q <> [] ->
      1 <= getPosition url q <= getQueueLength q).
Proof.
  destruct (pending_of url q) as [|r rest] eqn:P.
  - split; [split; [reflexivity | intros _; now apply getPosition_none] |].
    intros H. now destruct H.
  - destruct (getPosition_some url q r rest P) as (-> & Hin & Hu & Hs).
    assert (length (List.filter (fun x => is_pending x && sorts_before x r)
                                (table q))
            < length (List.filter
                        (fun x => bool_decide (status x = QueueStatus.PENDING))
                        (table q)))%nat as Hlt.
    { apply (filter_length_strict _ _ _ r).
      - intros x _ Hx. apply andb_prop in Hx as [Hx _]. exact Hx.
      - exact Hin.
      - now apply bool_decide_eq_true.
      - rewrite sorts_before_irrefl. apply andb_false_r. }
    unfold getQueueLength, count_status.
    split; [split; [lia | discriminate] |]. intros _. lia.
Qed.

(** *** Who is served *)

Lemma dequeue_some now q url :
  fst (dequeue now q) = Some url ->
  exists r,
    findFirst_pending (table q) = Some r /\ repositoryUrl r = url
    /\ Z.of_nat (size (processingItems q)) < maxConcurrent (config q)
    /\ snd (dequeue now q)
       = {| table := update_by_id (id r) (set_processing now) (table q);
            config := config q;
            processingItems := {[ repositoryUrl r ]} ∪ processingItems q |}.
Proof.
  unfold dequeue.
  destruct (Z.geb_spec (Z.of_nat (size (processingItems q)))
                       (maxConcurrent (config q))); [discriminate |].
  destruct (findFirst_pending (table q)) as [r|]; [| discriminate].
  simpl. intros [= <-]. exists r. repeat split; auto; lia.
Qed.

Lemma NoDup_map_eq {A B} (f : A -> B) (l : list A) (a b : A) :
  List.NoDup (List.map f l) -> In a l -> In b l -> f a = f b -> a = b.
Proof.
  induction l as [|x l IH]; intros Hnd Ha Hb Hf; [destruct Ha |].
  simpl in Hnd. apply NoDup_cons_iff in Hnd as [Hx Hnd].
  destruct Ha as [-> | Ha], Hb as [-> | Hb]; auto.
  - exfalso. apply Hx. rewrite Hf. now apply in_map.
  - exfalso. apply Hx. rewrite <- Hf. now apply in_map.
Qed.

Lemma filter_nil_length {A} (f : A -> bool) (l : list A) :
  (forall x, In x l -> f x = false) -> List.filter f l = [].
Proof.
  induction l as [|x l IH]; intros H; simpl; [reflexivity |].
  rewrite (H x (or_introl eq_refl)). apply IH. intros y Hy. apply H. now right.
Qed.

(** X2. When the Pending rows belong to pairwise different subjects, the
    subject that [dequeue()] hands out is the one [getPosition] ranks first,
    and once handed out it has no position any more. *)
Theorem dequeue_serves_position_one (now : Z) (q : QueueService) (url : string) :
  List.NoDup (List.map repositoryUrl (List.filter is_pending (table q))) ->
  fst (dequeue now q) = Some url ->
  getPosition url q = 1
  /\ getPosition url (snd (dequeue now q)) = -1.
Proof.
  intros Hnd Hd.
  destruct (dequeue_some now q url Hd) as (r & F & Hu & _ & ->).
  destruct (findFirst_pending_spec _ _ F) as (Hin & Hs & Hbest).
  assert (forall x, In x (table q) -> repositoryUrl x = url ->
                    status x = QueueStatus.PENDING -> x = r) as Huniq.
  { intros x Hx Hxu Hxs.
    apply (NoDup_map_eq repositoryUrl (List.filter is_pending (table q)));
      auto.
    - apply filter_In. split; [assumption |].
      unfold is_pending. now apply bool_decide_eq_true.
    - apply filter_In. split; [assumption |].
      unfold is_pending. now apply bool_decide_eq_true.
    - congruence. }
  split.
  - destruct (pending_of url q) as [|r' rest] eqn:P.
    + exfalso.
      assert (In r (pending_of url q)) as Hr.
      { apply filter_In. split; [assumption |].
        rewrite (bool_decide_eq_true_2 _ Hu). unfold is_pending.
        now rewrite bool_decide_eq_true_2. }
      rewrite P in Hr. destruct Hr.
    + destruct (getPosition_some url q r' rest P) as (-> & Hin' & Hu' & Hs').
      rewrite (Huniq r' Hin' Hu' Hs').
      rewrite filter_nil_length; [reflexivity |].
      intros x Hx. destruct (is_pending x) eqn:Hp; [| reflexivity].
      unfold is_pending in Hp. apply bool_decide_eq_true in Hp.
      simpl. apply sorts_before_false. exact (Hbest x Hx Hp).
  - apply getPosition_none. unfold pending_of. cbn [table].
    apply filter_nil_length. intros x Hx.
    unfold update_by_id in Hx. apply in_map_iff in Hx as (y & <- & Hy).
    destruct (bool_decide (id y = id r)) eqn:Hid.
    + unfold is_pending. simpl. apply andb_false_r.
    + destruct (bool_decide (repositoryUrl y = url)) eqn:Hyu; [| reflexivity].
      apply bool_decide_eq_true in Hyu.
      destruct (is_pending y) eqn:Hp; [| reflexivity].
      unfold is_pending in Hp. apply bool_decide_eq_true in Hp.
      rewrite (Huniq y Hy Hyu Hp) in Hid.
      now rewrite bool_decide_eq_true_2 in Hid.
Qed.

Lemma dequeue_serves_position_one_witness :
  List.NoDup (List.map repositoryUrl
                (List.filter is_pending (table staggered)))
  /\ fst (dequeue 40 staggered) = Some "repo-d"
  /\ getPosition "repo-d" staggered = 1.
Proof.
  assert (List.NoDup (List.map repositoryUrl
                        (List.filter is_pending (table staggered)))) as H1.
  { vm_compute.
    repeat (apply List.NoDup_cons;
            [ intros H; repeat (destruct H as [H | H]; [discriminate H |]);
              exact H | ]).
    apply List.NoDup_nil. }
  assert (fst (dequeue 40 staggered) = Some "repo-d") as H2
    by (vm_compute; reflexivity).
  split; [exact H1 | split; [exact H2 |]].
  exact (proj1 (dequeue_serves_position_one 40 staggered "repo-d" H1 H2)).
Defined.

(** *** Finished and cancelled subjects *)

Lemma dequeue_pending now q url :
  fst (dequeue now q) = Some url -> pending_of url q <> [].
Proof.
  intros Hd. destruct (dequeue_some now q url Hd) as (r & F & Hu & _).
  destruct (findFirst_pending_spec _ _ F) as (Hin & Hs & _).
  intros E.
  assert (In r (pending_of url q)) as Hr.
  { apply filter_In. split; [assumption |].
    rewrite (bool_decide_eq_true_2 _ Hu). unfold is_pending.
    now rewrite bool_decide_eq_true_2. }
  rewrite E in Hr. destruct Hr.
Qed.

(** X3. Once [updateStatus] has moved a subject to Completed, Failed or
    Cancelled, the subject has no Pending row and no position, it is out of
    the processing set, and [dequeue()] does not hand it out. *)
Theorem finished_is_not_served
    (now later : Z) (url : string) (s : AnalysisStatus.t) (q : QueueService) :
  s = AnalysisStatus.COMPLETED \/ s = AnalysisStatus.FAILED
  \/ s = AnalysisStatus.CANCELLED ->
  let q' := updateStatus now url s q in
  pending_of url q' = []
  /\ getPosition url q' = -1
  /\ (url ∉ processingItems q')
  /\ fst (dequeue later q') <> Some url.
Proof.
  intros Hs q'.
  assert (exists qs, mapAnalysisStatusToQueueStatus s = Some qs
                     /\ is_terminal qs = true /\ qs <> QueueStatus.PENDING)
    as (qs & Hmap & Hterm & Hnp).
  { destruct Hs as [-> | [-> | ->]]; eexists; repeat split; discriminate. }
  assert (pending_of url q' = []) as Hnone.
  { unfold q', updateStatus. rewrite Hmap, Hterm.
    unfold pending_of. cbn [table with_processing with_table].
    apply filter_nil_length. intros x Hx.
    unfold updateMany_by_url in Hx. apply in_map_iff in Hx as (y & <- & Hy).
    destruct (bool_decide (repositoryUrl y = url)) eqn:Hyu.
    - unfold is_pending. cbn [status set_status].
      rewrite (bool_decide_eq_false_2 _ Hnp). apply andb_false_r.
    - now rewrite Hyu. }
  split; [exact Hnone |]. split; [now apply getPosition_none |]. split.
  - unfold q', updateStatus. rewrite Hmap, Hterm.
    cbn [processingItems with_processing with_table].
    intros [_ Hn]%elem_of_difference. apply Hn. now apply elem_of_singleton.
  - intros Hd. exact (dequeue_pending later q' url Hd Hnone).
Qed.

Lemma finished_is_not_served_witness :
  (AnalysisStatus.COMPLETED = AnalysisStatus.COMPLETED
   \/ AnalysisStatus.COMPLETED = AnalysisStatus.FAILED
   \/ AnalysisStatus.COMPLETED = AnalysisStatus.CANCELLED)
  /\ fst (dequeue 60
            (updateStatus 50 "repo-d" AnalysisStatus.COMPLETED
               (snd (dequeue 40 staggered)))) <> Some "repo-d".
Proof.
  assert (AnalysisStatus.COMPLETED = AnalysisStatus.COMPLETED
          \/ AnalysisStatus.COMPLETED = AnalysisStatus.FAILED
          \/ AnalysisStatus.COMPLETED = AnalysisStatus.CANCELLED) as H
    by (left; reflexivity).
  split; [exact H |].
  exact (proj2 (proj2 (proj2 (finished_is_not_served
                                50 60 "repo-d" AnalysisStatus.COMPLETED
                                (snd (dequeue 40 staggered)) H)))).
Defined.


(** *** The backlog *)

Lemma filter_map_length {A} (p : A -> bool) (f : A -> A) (l : list A) :
  length (List.filter p (List.map f l))
  = length (List.filter (fun x => p (f x)) l).
Proof.
  induction l as [|x l IH]; simpl; [reflexivity |].
  destruct (p (f x)); simpl; now rewrite IH.
Qed.

(** X5. Every [dequeue()] that hands out a subject leaves fewer Pending rows
    than it found. *)
Theorem dequeue_shrinks_backlog (now : Z) (q : QueueService) (url : string) :
  fst (dequeue now q) = Some url ->
  getQueueLength (snd (dequeue now q)) < getQueueLength q.
Proof.
  intros Hd. destruct (dequeue_some now q url Hd) as (r & F & Hu & _ & ->).
  destruct (findFirst_pending_spec _ _ F) as (Hin & Hs & _).
  unfold getQueueLength, count_status. cbn [table].
  unfold update_by_id. rewrite filter_map_length.
  apply inj_lt, (filter_length_strict _ _ _ r).
  - intros x _. destruct (bool_decide (id x = id r)); [discriminate | auto].
  - exact Hin.
  - now apply bool_decide_eq_true.
  - cbv beta. rewrite (bool_decide_eq_true_2 (id r = id r)) by reflexivity.
    reflexivity.
Qed.

Lemma dequeue_shrinks_backlog_witness :
  fst (dequeue 40 staggered) = Some "repo-d"
  /\ getQueueLength (snd (dequeue 40 staggered)) < getQueueLength staggered.
Proof.
  assert (fst (dequeue 40 staggered) = Some "repo-d") as H
    by (vm_compute; reflexivity).
  split; [exact H |].
  exact (dequeue_shrinks_backlog 40 staggered "repo-d" H).
Defined.

(** X6. [removeFromQueue] undoes [enqueue]: a subject that had no row is
    queued after [enqueue] and, after [removeFromQueue], the table is the one
    from before; whatever the table was, a removed subject is not queued,
    has no position and is out of the processing set. *)
Theorem enqueue_removeFromQueue
    (uuid : string) (now : Z) (url user : string) (q : QueueService) :
  isQueued url (enqueue uuid now url user q) = true
  /\ isQueued url (removeFromQueue url q) = false
  /\ getPosition url (removeFromQueue url q) = -1
  /\ (url ∉ processingItems (removeFromQueue url q))
  /\ ((forall r, In r (table q) -> repositoryUrl r <> url) ->
      table (removeFromQueue url (enqueue uuid now url user q)) = table q).
Proof.
  assert (forall rows,
            List.filter
              (fun r => bool_decide (repositoryUrl r = url)
                        && (bool_decide (status r = QueueStatus.PENDING)
                            || bool_decide (status r = QueueStatus.PROCESSING)))
              (deleteMany_by_url url rows) = []) as Hgone.
  { intros rows. apply filter_nil_length. intros x Hx.
    apply filter_In in Hx as [_ Hx].
    destruct (bool_decide (repositoryUrl x = url)); [discriminate | auto]. }
  split; [| split; [| split; [| split]]].
  - unfold isQueued, enqueue, create. cbn [table with_table].
    rewrite List.filter_app, List.length_app. simpl.
    rewrite bool_decide_eq_true_2 by reflexivity. simpl.
    match goal with
    | |- (?n >? 0) = true => destruct (Z.gtb_spec n 0); [reflexivity | lia]
    end.
  - unfold isQueued, removeFromQueue. cbn [table with_processing with_table].
    now rewrite Hgone.
  - apply getPosition_none. unfold pending_of, removeFromQueue.
    cbn [table with_processing with_table].
    apply filter_nil_length. intros x Hx.
    apply filter_In in Hx as [_ Hx].
    destruct (bool_decide (repositoryUrl x = url)); [discriminate | auto].
  - unfold removeFromQueue. cbn [processingItems with_processing].
    intros [_ Hn]%elem_of_difference. apply Hn. now apply elem_of_singleton.
  - intros Hfresh. unfold removeFromQueue, enqueue, create, deleteMany_by_url.
    cbn [table with_processing with_table].
    rewrite List.filter_app. simpl.
    rewrite bool_decide_eq_true_2 by reflexivity. simpl.
    rewrite app_nil_r.
    induction (table q) as [|x l IH]; simpl; [reflexivity |].
    rewrite bool_decide_eq_false_2
      by (apply Hfresh; now left).
    simpl. f_equal. apply IH. intros r Hr. apply Hfresh. now right.
Qed.

End QueueOps.


(** ** The cache, continued: the sweep, the invalidation by subject and the
       typed helpers of [CacheService] *)

Module CacheOps.

Import Cache.

Section Entries.
Context {T : Type}.
Implicit Types cache : gmap string (CacheEntry T).

(** [cleanup()]: the periodic sweep. *)
Definition cleanup (now : Z) cache : gmap string (CacheEntry T) :=
  filter (fun kv => isExpired now (snd kv) = false) cache.

(** [clear()] *)
Definition clear cache : gmap string (CacheEntry T) := ∅.

(** [invalidateAll(repositoryUrl)] *)
Definition invalidateAll (repositoryUrl : string) cache
    : gmap string (CacheEntry T) :=
  let prefix := "repo:" +:+ repositoryUrl +:+ ":" in
  filter (fun kv => String.prefix prefix (fst kv) = false) cache.

(** [setAnalysisResult(repositoryUrl, result)] *)
Definition setAnalysisResult (repositoryUrl : string) (result : T) (now : Z)
    cache : gmap string (CacheEntry T) :=
  set ("repo:" +:+ repositoryUrl +:+ ":analysis") result None now cache.

(** [getAnalysisResult(repositoryUrl)] *)
Definition getAnalysisResult (repositoryUrl : string) (now : Z) cache
    : option T * gmap string (CacheEntry T) :=
  get ("repo:" +:+ repositoryUrl +:+ ":analysis") now cache.

(** [setRepositoryMetadata(repositoryUrl, metadata)] *)
Definition setRepositoryMetadata (repositoryUrl : string) (metadata : T)
    (now : Z) cache : gmap string (CacheEntry T) :=
  set ("repo:" +:+ repositoryUrl +:+ ":metadata") metadata None now cache.

(** [getRepositoryMetadata(repositoryUrl)] *)
Definition getRepositoryMetadata (repositoryUrl : string) (now : Z) cache
    : option T * gmap string (CacheEntry T) :=
  get ("repo:" +:+ repositoryUrl +:+ ":metadata") now cache.

(** [cacheProgress(repositoryUrl, progress)] *)
Definition cacheProgress (repositoryUrl : string) (progress : T) (now : Z)
    cache : gmap string (CacheEntry T) :=
  set ("progress:" +:+ repositoryUrl) progress (Some 3600) now cache.

(** *** The sweep *)

(** X7. The periodic sweep is invisible to readers: after [cleanup()] every
    [get] returns what it would have returned without it, every entry that
    is left is one that was there and has not expired, and no entry that has
    not expired is lost. *)
Theorem cleanup_is_transparent (now : Z) (key : string) cache :
  fst (get key now (cleanup now cache)) = fst (get key now cache)
  /\ (forall k entry,
        cleanup now cache !! k = Some entry <->
        cache !! k = Some entry /\ isExpired now entry = false).
Proof.
  assert (forall k entry,
            cleanup now cache !! k = Some entry <->
            cache !! k = Some entry /\ isExpired now entry = false) as Hl.
  { intros k entry. unfold cleanup. now rewrite map_lookup_filter_Some. }
  split; [| exact Hl].
  unfold get.
  destruct (cache !! key) as [entry|] eqn:E.
  - destruct (isExpired now entry) eqn:X.
    + assert (cleanup now cache !! key = None) as ->; [| reflexivity].
      destruct (cleanup now cache !! key) as [e'|] eqn:E'; [| reflexivity].
      apply Hl in E' as [E1 E2]. congruence.
    + assert (cleanup now cache !! key = Some entry) as ->
        by (apply Hl; auto).
      now rewrite X.
  - assert (cleanup now cache !! key = None) as ->; [| reflexivity].
    destruct (cleanup now cache !! key) as [e'|] eqn:E'; [| reflexivity].
    apply Hl in E' as [E1 _]. congruence.
Qed.

(** *** Invalidation by subject *)

Lemma prefix_append (p s : string) : String.prefix p (p +:+ s) = true.
Proof.
  induction p as [|a p IH]; simpl.
  - now destruct s.
  - destruct (Ascii.ascii_dec a a); [exact IH | congruence].
Qed.

Lemma append_assoc (a b c : string) : (a +:+ b) +:+ c = a +:+ b +:+ c.
Proof.
  induction a as [|x a IH]; [reflexivity |].
  change (String x ((a +:+ b) +:+ c) = String x (a +:+ b +:+ c)).
  now rewrite IH.
Qed.

Lemma append_inv_head (p a b : string) : p +:+ a = p +:+ b -> a = b.
Proof. induction p as [|x p IH]; simpl; [auto | intros [= H]; auto]. Qed.

Lemma subject_key_prefix (url rest : string) :
  String.prefix ("repo:" +:+ url +:+ ":") ("repo:" +:+ url +:+ ":" +:+ rest)
  = true.
Proof.
  assert (url +:+ ":" +:+ rest = (url +:+ ":") +:+ rest) as ->
    by (symmetry; apply append_assoc).
  exact (prefix_append ("repo:" +:+ url +:+ ":") rest).
Qed.

(** X8. The typed helpers and the invalidation of a subject: a stored
    analysis result is read back for 24 hours and is not disturbed by
    storing the subject's metadata; [invalidateAll] of the subject makes
    both unreadable, and it leaves every entry alone whose key does not
    start with [repo:<url>:]. *)
Theorem invalidateAll_subject
    (url : string) (result metadata : T) (t0 t : Z) cache :
  0 <= t <= DEFAULT_TTL ->
  let stored :=
    setRepositoryMetadata url metadata t0
      (setAnalysisResult url result t0 cache) in
  fst (getAnalysisResult url (t0 + t) stored) = Some result
  /\ fst (getRepositoryMetadata url (t0 + t) stored) = Some metadata
  /\ fst (getAnalysisResult url (t0 + t) (invalidateAll url stored)) = None
  /\ fst (getRepositoryMetadata url (t0 + t) (invalidateAll url stored)) = None
  /\ (forall k, String.prefix ("repo:" +:+ url +:+ ":") k = false ->
        invalidateAll url stored !! k = cache !! k).
Proof.
  intros Ht stored.
  assert ("repo:" +:+ url +:+ ":metadata" <> "repo:" +:+ url +:+ ":analysis")
    as Hne.
  { intros H. apply append_inv_head, append_inv_head in H. discriminate H. }
  assert (forall k e, invalidateAll url stored !! k = Some e ->
                      String.prefix ("repo:" +:+ url +:+ ":") k = false)
    as Hinv.
  { intros k e H. unfold invalidateAll in H.
    apply map_lookup_filter_Some in H as [_ H]. exact H. }
  assert (forall rest,
            invalidateAll url stored !! ("repo:" +:+ url +:+ ":" +:+ rest)
            = None) as Hgone.
  { intros rest.
    destruct (invalidateAll url stored !! _) as [e|] eqn:E; [| reflexivity].
    apply Hinv in E. rewrite subject_key_prefix in E. discriminate. }
  split; [| split; [| split; [| split]]].
  - unfold getAnalysisResult, stored, setRepositoryMetadata, set at 1.
    unfold get. rewrite lookup_insert_ne by exact Hne.
    unfold setAnalysisResult, set. rewrite lookup_insert_eq.
    unfold isExpired. simpl.
    destruct (Z.gtb_spec (t0 + t) (t0 + DEFAULT_TTL)); [lia | reflexivity].
  - unfold getRepositoryMetadata, stored, setRepositoryMetadata, set.
    unfold get. rewrite lookup_insert_eq. unfold isExpired. simpl.
    destruct (Z.gtb_spec (t0 + t) (t0 + DEFAULT_TTL)); [lia | reflexivity].
  - unfold getAnalysisResult, get.
    change ("repo:" +:+ url +:+ ":analysis")
      with ("repo:" +:+ url +:+ ":" +:+ "analysis").
    now rewrite Hgone.
  - unfold getRepositoryMetadata, get.
    change ("repo:" +:+ url +:+ ":metadata")
      with ("repo:" +:+ url +:+ ":" +:+ "metadata").
    now rewrite Hgone.
  - intros k Hk.
    assert (k <> "repo:" +:+ url +:+ ":" +:+ "metadata"
            /\ k <> "repo:" +:+ url +:+ ":" +:+ "analysis") as [Hk1 Hk2].
    { split; intros ->; rewrite subject_key_prefix in Hk; discriminate. }
    unfold invalidateAll.
    destruct (cache !! k) as [e|] eqn:E.
    + apply map_lookup_filter_Some. split; [| exact Hk].
      unfold stored, setRepositoryMetadata, setAnalysisResult, set.
      rewrite lookup_insert_ne by (intros H; apply Hk1; now rewrite <- H).
      rewrite lookup_insert_ne by (intros H; apply Hk2; now rewrite <- H).
      exact E.
    + apply map_lookup_filter_None. left.
      unfold stored, setRepositoryMetadata, setAnalysisResult, set.
      rewrite lookup_insert_ne by (intros H; apply Hk1; now rewrite <- H).
      rewrite lookup_insert_ne by (intros H; apply Hk2; now rewrite <- H).
      exact E.
Qed.

(** X9. The progress that [cacheProgress] stores lives under another key
    than the one [invalidateProgress] and [invalidateAll] delete: after
    either of them it is still read back, for 3600 milliseconds from the
    moment it was stored, and not after. *)
Theorem cached_progress_survives_invalidation
    (url : string) (progress : T) (t0 t : Z) cache :
  0 <= t ->
  let key := "progress:" +:+ url in
  let stored := cacheProgress url progress t0 cache in
  (t <= 3600 ->
   fst (get key (t0 + t) (invalidateProgress url stored)) = Some progress
   /\ fst (get key (t0 + t) (invalidateAll url stored)) = Some progress)
  /\ (3600 < t -> fst (get key (t0 + t) stored) = None).
Proof.
  intros _ key stored.
  assert (stored !! key
          = Some {| data := progress; timestamp := t0; ttl := 3600 |}) as Hs
    by apply lookup_insert_eq.
  split.
  - intros Ht.
    assert (isExpired (t0 + t)
              {| data := progress; timestamp := t0; ttl := 3600 |} = false)
      as Hlive.
    { unfold isExpired. simpl.
      destruct (Z.gtb_spec (t0 + t) (t0 + 3600)); [lia | reflexivity]. }
    split; unfold get.
    + unfold invalidateProgress.
      rewrite lookup_delete_ne by (unfold key; simpl; discriminate).
      now rewrite Hs, Hlive.
    + assert (invalidateAll url stored !! key
              = Some {| data := progress; timestamp := t0; ttl := 3600 |})
        as ->.
      { unfold invalidateAll. apply map_lookup_filter_Some.
        split; [exact Hs | reflexivity]. }
      now rewrite Hlive.
  - intros Ht. unfold get. rewrite Hs. unfold isExpired. simpl.
    destruct (Z.gtb_spec (t0 + t) (t0 + 3600)); [reflexivity | lia].
Qed.

End Entries.

Lemma invalidateAll_subject_witness :
  0 <= 5 <= DEFAULT_TTL
  /\ fst (getAnalysisResult "repo" (100 + 5)
            (setRepositoryMetadata "repo" 2 100
               (setAnalysisResult "repo" 1 100 ∅))) = Some 1.
Proof.
  assert (0 <= 5 <= DEFAULT_TTL) as H by (unfold DEFAULT_TTL; lia).
  split; [exact H |].
  exact (proj1 (invalidateAll_subject "repo" 1 2 100 5 ∅ H)).
Defined.

Lemma cached_progress_survives_invalidation_witness :
  0 <= 7
  /\ fst (get "progress:repo" (100 + 7)
            (invalidateProgress "repo" (cacheProgress "repo" 40 100 ∅)))
     = Some 40.
Proof.
  assert (0 <= 7) as H by lia.
  split; [exact H |].
  apply (proj1 (cached_progress_survives_invalidation "repo" 40 100 7 ∅ H)).
  lia.
Defined.

End CacheOps.


(** ** The status and retry manager, continued: the retry decision, the
       retry budget of a subject and the independence of subjects *)

Module Retry.

Import Status.

Section Subjects.
Context {R : Type}.
Implicit Types m : StatusManager R.

Lemma maxRetries_at_most_5 strategy :
  In strategy (List.map snd retryStrategies) -> maxRetries strategy <= 5.
Proof. simpl. intros [<- | [<- | [<- | []]]]; simpl; lia. Qed.

Lemma handleError_unmatched url err now random m :
  is_Some (progressMap m !! url) ->
  findRetryStrategy err = None ->
  handleError url err now random m = (false, markAsFailed url err now m).
Proof.
  intros [p Hp] Hs. unfold handleError. now rewrite Hp, Hs.
Qed.

Lemma markAsFailed_effect url err now m :
  is_Some (progressMap m !! url) ->
  attempts_of url (markAsFailed url err now m) = attempts_of url m
  /\ status_of url (markAsFailed url err now m) = Some AnalysisStatus.FAILED
  /\ notifications (markAsFailed url err now m)
     = notifications m ++ [ANALYSIS_ERROR url err now].
Proof.
  intros Hp. destruct (markAsFailed_status url err now m Hp) as [Hs Hr].
  split; [unfold attempts_of; now rewrite Hr |]. split; [exact Hs |].
  destruct Hp as [p Hp]. unfold markAsFailed. now rewrite Hp.
Qed.

(** X10. The retry decision for a subject that has a progress record:
    [handleError] answers true exactly when a retry class matches the error
    and the subject's counter is below that class's [maxRetries].  A retry
    only moves the counter up by one: the record, the notifications and the
    cache stay as they were.  A refusal keeps the counter, marks the subject
    Failed and notifies the error once. *)
Theorem handleError_decision
    (url : string) (err : Error) (now : Z) (random : Q) m :
  is_Some (progressMap m !! url) ->
  let answer := fst (handleError url err now random m) in
  let m' := snd (handleError url err now random m) in
  (answer = true <->
   exists strategy, findRetryStrategy err = Some strategy
                    /\ attempts_of url m < maxRetries strategy)
  /\ (answer = true ->
      attempts_of url m' = attempts_of url m + 1
      /\ progressMap m' = progressMap m
      /\ notifications m' = notifications m
      /\ cache m' = cache m)
  /\ (answer = false ->
      attempts_of url m' = attempts_of url m
      /\ status_of url m' = Some AnalysisStatus.FAILED
      /\ notifications m' = notifications m ++ [ANALYSIS_ERROR url err now]).
Proof.
  intros Hp answer m'. subst answer m'.
  destruct (findRetryStrategy err) as [strategy|] eqn:Hs.
  - destruct (Z.lt_ge_cases (attempts_of url m) (maxRetries strategy))
      as [Hlt | Hge].
    + pose proof Hp as [p Hp'].
      unfold handleError. rewrite Hp', Hs. fold (attempts_of url m).
      destruct (Z.geb_spec (attempts_of url m) (maxRetries strategy));
        [lia |].
      destruct (onRetry_resolves strategy (attempts_of url m + 1) random
                  (findRetryStrategy_some _ _ Hs)) as [d ->].
      cbn [fst snd progressMap notifications cache].
      split; [split; [eauto | reflexivity] |].
      split; [| discriminate].
      intros _. unfold attempts_of at 1. cbn [retryAttempts].
      rewrite lookup_insert_eq. auto.
    + rewrite (handleError_exhausted url err now random m strategy Hp Hs Hge).
      cbn [fst snd].
      split; [split; [discriminate |] |].
      { intros (s' & [= <-] & Hlt). lia. }
      split; [discriminate |]. intros _.
      exact (markAsFailed_effect url err now m Hp).
  - rewrite (handleError_unmatched url err now random m Hp Hs).
    cbn [fst snd].
    split; [split; [discriminate | intros (s' & [=] & _)] |].
    split; [discriminate |]. intros _.
    exact (markAsFailed_effect url err now m Hp).
Qed.

(** The number of retries granted in a list of answers. *)
Definition retries (answers : list bool) : nat :=
  length (List.filter (fun b => b) answers).

Lemma handleErrors_budget url reports : forall m,
  is_Some (progressMap m !! url) ->
  attempts_of url (snd (handleErrors url reports m))
  = attempts_of url m + Z.of_nat (retries (fst (handleErrors url reports m)))
  /\ (attempts_of url m <= 5 ->
      attempts_of url (snd (handleErrors url reports m)) <= 5)
  /\ is_Some (progressMap (snd (handleErrors url reports m)) !! url).
Proof.
  induction reports as [|[[err now] random] rest IH]; intros m Hp.
  - cbn [handleErrors fst snd retries List.filter length].
    split; [lia |]. split; [auto | exact Hp].
  - rewrite handleErrors_cons. cbn [fst snd].
    destruct (handleError_decision url err now random m Hp)
      as (Hiff & Htrue & Hfalse).
    destruct (fst (handleError url err now random m)) eqn:A.
    + destruct (Htrue eq_refl) as (Hat & Hpm & _).
      destruct (proj1 Hiff eq_refl) as (strategy & Hs & Hlt).
      pose proof (maxRetries_at_most_5 strategy
                    (findRetryStrategy_some _ _ Hs)) as H5.
      assert (is_Some (progressMap
                         (snd (handleError url err now random m)) !! url))
        as Hp1 by now rewrite Hpm.
      destruct (IH _ Hp1) as (IHa & IHb & IHp).
      unfold retries in *. cbn [List.filter length].
      split; [rewrite IHa, Hat; lia |].
      split; [intros _; apply IHb; lia | exact IHp].
    + destruct (Hfalse eq_refl) as (Hat & Hst & _).
      pose proof (status_of_is_Some _ _ _ Hst) as Hp1.
      destruct (IH _ Hp1) as (IHa & IHb & IHp).
      unfold retries in *. cbn [List.filter].
      split; [rewrite IHa, Hat; lia |].
      split; [intros H; apply IHb; lia | exact IHp].
Qed.

(** X11. The retry budget of a subject: whatever errors are reported for a
    subject that starts with no retries behind it, and in whatever order,
    [handleError] grants at most five retries in all, and the subject's
    counter is the number of retries granted. *)
Theorem retry_budget (url : string) (reports : list (Error * Z * Q)) m :
  is_Some (progressMap m !! url) ->
  retryAttempts m !! url = None ->
  (retries (fst (handleErrors url reports m)) <= 5)%nat
  /\ attempts_of url (snd (handleErrors url reports m))
     = Z.of_nat (retries (fst (handleErrors url reports m))).
Proof.
  intros Hp Hfresh.
  assert (attempts_of url m = 0) as H0
    by (unfold attempts_of; now rewrite Hfresh).
  destruct (handleErrors_budget url reports m Hp) as (Ha & Hb & _).
  rewrite H0 in Ha, Hb. split; [| lia].
  specialize (Hb ltac:(lia)). lia.
Qed.

(** X12. [initializeProgress] does not give retries back: it resets the
    record of the subject and keeps its counter, so an error of a class
    whose [maxRetries] the counter has reached is refused right after a new
    initialization, and the fresh record ends Failed. *)
Theorem initializeProgress_keeps_counter
    (url : string) (err : Error) (strategy : ErrorRecoveryStrategy)
    (now later : Z) (random : Q) m :
  findRetryStrategy err = Some strategy ->
  maxRetries strategy <= attempts_of url m ->
  let m0 := initializeProgress url now m in
  attempts_of url m0 = attempts_of url m
  /\ status_of url m0 = Some AnalysisStatus.PENDING
  /\ fst (handleError url err later random m0) = false
  /\ status_of url (snd (handleError url err later random m0))
     = Some AnalysisStatus.FAILED.
Proof.
  intros Hs Hge m0.
  assert (is_Some (progressMap m0 !! url)) as Hp
    by (unfold m0; cbn [initializeProgress progressMap];
        rewrite lookup_insert_eq; eauto).
  assert (attempts_of url m0 = attempts_of url m) as Hat by reflexivity.
  split; [exact Hat |]. split.
  { unfold status_of, m0. cbn [initializeProgress progressMap].
    now rewrite lookup_insert_eq. }
  rewrite (handleError_exhausted url err later random m0 strategy Hp Hs)
    by (rewrite Hat; exact Hge).
  split; [reflexivity |].
  exact (proj1 (markAsFailed_status url err later m0 Hp)).
Qed.

(** X13. Subjects are independent: whatever the manager does for one
    subject (initialize, update, complete, handle an error, clean up), the
    progress record and the retry counter of every other subject stay as
    they were. *)
Theorem other_subjects_untouched
    (url other : string) (p : Z) (st : option AnalysisStatus.t) (res : R)
    (err : Error) (now : Z) (random : Q) m :
  url <> other ->
  let same m' :=
    progressMap m' !! other = progressMap m !! other
    /\ retryAttempts m' !! other = retryAttempts m !! other in
  same (initializeProgress url now m)
  /\ same (updateProgress url p st now m)
  /\ same (completeAnalysis url res now m)
  /\ same (snd (handleError url err now random m))
  /\ same (cleanup url m).
Proof.
  intros Hne same. subst same. cbv beta.
  split; [| split; [| split; [| split]]].
  - cbn [initializeProgress progressMap retryAttempts].
    now rewrite lookup_insert_ne.
  - unfold updateProgress. destruct (progressMap m !! url); [| auto].
    cbn [progressMap retryAttempts]. now rewrite lookup_insert_ne.
  - unfold completeAnalysis. destruct (progressMap m !! url); [| auto].
    cbn [progressMap retryAttempts]. now rewrite lookup_insert_ne.
  - assert (forall e t m0,
              progressMap (markAsFailed url e t m0) !! other
              = progressMap m0 !! other
              /\ retryAttempts (markAsFailed url e t m0) !! other
                 = retryAttempts m0 !! other) as Hmark.
    { intros e t m0. unfold markAsFailed.
      destruct (progressMap m0 !! url); [| auto].
      cbn [progressMap retryAttempts]. now rewrite lookup_insert_ne. }
    unfold handleError. destruct (progressMap m !! url); [| auto].
    destruct (findRetryStrategy err) as [strategy|]; [| apply Hmark].
    destruct (_ >=? _); [apply Hmark |].
    destruct (onRetry strategy _ random).
    + cbn [snd progressMap retryAttempts]. now rewrite lookup_insert_ne.
    + cbn [snd]. destruct (Hmark e now
        {| progressMap := progressMap m;
           retryAttempts :=
             <[url:=default 0 (retryAttempts m !! url) + 1]> (retryAttempts m);
           notifications := notifications m; cache := cache m;
           queueService := queueService m |}) as [H1 H2].
      rewrite H1, H2. cbn [progressMap retryAttempts].
      now rewrite lookup_insert_ne.
  - cbn [cleanup progressMap retryAttempts].
    now rewrite !lookup_delete_ne.
Qed.

End Subjects.

Definition network_down : Error := {| message := "network unreachable" |}.

(** Three network errors that were retried. *)
Definition after_three_network : StatusManager unit :=
  snd (handleErrors "repo"
         [ (network_down, 10, 1 # 2); (network_down, 20, 1 # 2);
           (network_down, 30, 1 # 2) ] tracked).

Lemma handleError_decision_witness :
  is_Some (progressMap after_three_network !! "repo")
  /\ fst (handleError "repo" rate_limited 40 (1 # 2) after_three_network)
     = false.
Proof.
  assert (is_Some (progressMap after_three_network !! "repo")) as H
    by (vm_compute; eauto).
  split; [exact H |].
  destruct (handleError_decision "repo" rate_limited 40 (1 # 2)
              after_three_network H) as (Hiff & _).
  destruct (fst (handleError "repo" rate_limited 40 (1 # 2)
                   after_three_network)); [| reflexivity].
  destruct (proj1 Hiff eq_refl) as (strategy & Hs & Hlt).
  injection Hs as <-. vm_compute in Hlt. discriminate Hlt.
Defined.

Lemma retry_budget_witness :
  is_Some (progressMap tracked !! "repo")
  /\ retryAttempts tracked !! "repo" = None
  /\ (retries (fst (handleErrors "repo" five_reports tracked)) <= 5)%nat.
Proof.
  assert (is_Some (progressMap tracked !! "repo")) as H1
    by (eexists; apply lookup_insert_eq).
  assert (retryAttempts tracked !! "repo" = None) as H2 by reflexivity.
  split; [exact H1 | split; [exact H2 |]].
  exact (proj1 (retry_budget "repo" five_reports tracked H1 H2)).
Defined.

Lemma initializeProgress_keeps_counter_witness :
  findRetryStrategy rate_limited = Some RATE_LIMIT
  /\ maxRetries RATE_LIMIT <= attempts_of "repo" after_three_network
  /\ fst (handleError "repo" rate_limited 60 (1 # 2)
            (initializeProgress "repo" 50 after_three_network)) = false.
Proof.
  assert (findRetryStrategy rate_limited = Some RATE_LIMIT) as H1
    by reflexivity.
  assert (maxRetries RATE_LIMIT <= attempts_of "repo" after_three_network)
    as H2 by (vm_compute; discriminate).
  split; [exact H1 | split; [exact H2 |]].
  exact (proj1 (proj2 (proj2 (initializeProgress_keeps_counter
                                "repo" rate_limited RATE_LIMIT 50 60 (1 # 2)
                                after_three_network H1 H2)))).
Defined.

Lemma other_subjects_untouched_witness :
  "repo" <> "other"
  /\ progressMap (cleanup "repo" tracked) !! "other"
     = progressMap tracked !! "other".
Proof.
  assert ("repo" <> "other") as H by discriminate.
  split; [exact H |].
  exact (proj1 (proj2 (proj2 (proj2 (proj2 (other_subjects_untouched
           "repo" "other" 0 None tt rate_limited 0 (1 # 2) tracked H)))))).
Defined.

End Retry.


(** ** The resource manager, continued: what a rejection carries and when
       the cleanup passes start *)

Module Admission.

Import Resources.

Lemma less_not_at_least n c : less n c = true -> at_least n c = false.
Proof.
  destruct n as [q| | |]; simpl; try discriminate; [| reflexivity].
  intros H. now destruct (Qle_bool c q).
Qed.

Lemma getAllRateLimits_rejected a type cause :
  repository_getRateLimit a type = Err cause ->
  exists e, getAllRateLimits a = Err e.
Proof.
  intros H. unfold getAllRateLimits. cbn [collectRateLimits].
  destruct type; rewrite ?H;
    repeat match goal with
           | |- context [match repository_getRateLimit a ?t with _ => _ end] =>
               destruct (repository_getRateLimit a t); try discriminate
           end; eauto.
Qed.

Lemma checkResources_lookup_rejected a type cause :
  repository_getRateLimit a type = Err cause ->
  checkResources a = ([], Err check_failed).
Proof.
  intros H. destruct (getAllRateLimits_rejected a type cause H) as [e He].
  unfold checkResources. rewrite He.
  destruct (storage_totalSize a); [| reflexivity].
  destruct (queue_getMetrics a); reflexivity.
Qed.

Lemma checkResources_cleanup_rejected a :
  (In StorageCleanup (fst (checkResources a))
   /\ storageCleanup_completes a = false)
  \/ (In QueueCleanup (fst (checkResources a))
      /\ queueCleanup_completes a = false) ->
  snd (checkResources a) = Err check_failed.
Proof.
  unfold checkResources.
  destruct (storage_totalSize a); [| reflexivity].
  destruct (queue_getMetrics a); [| reflexivity].
  destruct (getAllRateLimits a); [| reflexivity].
  repeat match goal with
         | |- context [if ?b then _ else _] => destruct b eqn:?
         end;
    cbn [fst snd In]; try reflexivity;
    intros [[Hin Hc] | [Hin Hc]]; try discriminate Hc;
    repeat match goal with
           | H : _ \/ _ |- _ => destruct H
           | H : False |- _ => destruct H
           end;
    discriminate.
Qed.

(** X14. A rejection of [validateResources] carries one of two codes and
    no other: [RESOURCE_INVALID] when the check ended with metrics that are
    not available, [SYSTEM_ERROR] when the check itself failed, the error
    being the one of the check.  A rate-limit lookup that fails, and a
    cleanup pass that the check starts and that does not run to its end,
    make [validateResources] reject with [SYSTEM_ERROR]. *)
Theorem validateResources_error_codes
    (repositoryUrl : string) (a : Answers) :
  (forall e, validateResources repositoryUrl a = Err e ->
     (code e = RESOURCE_INVALID
      /\ exists m, snd (checkResources a) = Ok m /\ available m = false)
     \/ (code e = SYSTEM_ERROR /\ snd (checkResources a) = Err e))
  /\ (forall type cause,
        repository_getRateLimit a type = Err cause ->
        exists e, validateResources repositoryUrl a = Err e
                  /\ code e = SYSTEM_ERROR)
  /\ ((In StorageCleanup (fst (checkResources a))
        /\ storageCleanup_completes a = false)
       \/ (In QueueCleanup (fst (checkResources a))
           /\ queueCleanup_completes a = false) ->
      exists e, validateResources repositoryUrl a = Err e
                /\ code e = SYSTEM_ERROR).
Proof.
  split; [| split].
  - intros e H. pose proof (validateResources_cases repositoryUrl a) as Hc.
    destruct (snd (checkResources a)) as [m | e'] eqn:Hm.
    + destruct (available m) eqn:Hav.
      * congruence.
      * destruct Hc as (e0 & He & Hcode & _). left.
        split; [congruence | eauto].
    + right. rewrite Hc in H. injection H as <-.
      split; [exact (checkResources_error a e' Hm) | reflexivity].
  - intros type cause H. exists check_failed.
    unfold validateResources.
    rewrite (checkResources_lookup_rejected a type cause H).
    split; reflexivity.
  - intros H. exists check_failed. unfold validateResources.
    rewrite (checkResources_cleanup_rejected a H). split; reflexivity.
Qed.

(** A quiet system whose OpenAI rate limit cannot be read. *)
Definition lookup_fails : Answers := {|
  storage_totalSize := Ok 50%Q;
  storage_totalQuota := 100;
  queue_getMetrics := queue_getMetrics (quiet 50);
  repository_getRateLimit :=
    fun type => match type with
                | OPENAI_API => Err "timeout"%string
                | _ => Ok ample
                end;
  os_loadavg := 1; os_cpus := 4; os_totalmem := 16; os_freemem := 8;
  storageCleanup_completes := true;
  queueCleanup_completes := true
|}.

(** A system at 95% of its storage quota whose storage cleanup fails. *)
Definition cleanup_fails : Answers := {|
  storage_totalSize := Ok 95%Q;
  storage_totalQuota := 100;
  queue_getMetrics := queue_getMetrics (quiet 95);
  repository_getRateLimit := fun _ => Ok ample;
  os_loadavg := 1; os_cpus := 4; os_totalmem := 16; os_freemem := 8;
  storageCleanup_completes := false;
  queueCleanup_completes := true
|}.

Lemma validateResources_error_codes_witness :
  (exists e, validateResources "repo" (quiet 95) = Err e
             /\ code e = RESOURCE_INVALID)
  /\ (repository_getRateLimit lookup_fails OPENAI_API = Err "timeout"%string
      /\ exists e, validateResources "repo" lookup_fails = Err e
                   /\ code e = SYSTEM_ERROR)
  /\ (In StorageCleanup (fst (checkResources cleanup_fails))
      /\ storageCleanup_completes cleanup_fails = false
      /\ exists e, validateResources "repo" cleanup_fails = Err e
                   /\ code e = SYSTEM_ERROR).
Proof.
  split; [| split].
  - assert (validateResources "repo" (quiet 95)
            = Err {| message := "Resources not available";
                     code := RESOURCE_INVALID;
                     reasons := ["Storage quota exceeded"%string] |}) as Hv
      by (vm_compute; reflexivity).
    eexists. split; [exact Hv |].
    destruct (proj1 (validateResources_error_codes "repo" (quiet 95))
                _ Hv) as [[Hc _] | [Hc _]]; [exact Hc | discriminate Hc].
  - split; [reflexivity |].
    exact (proj1 (proj2 (validateResources_error_codes "repo" lookup_fails))
             OPENAI_API "timeout"%string eq_refl).
  - assert (In StorageCleanup (fst (checkResources cleanup_fails))) as Hin
      by (vm_compute; left; reflexivity).
    split; [exact Hin |]. split; [reflexivity |].
    exact (proj2 (proj2 (validateResources_error_codes "repo" cleanup_fails))
             (or_introl (conj Hin eq_refl))).
Defined.

(** X15. The reasons of a rejection list storage, queue and system health
    only: when a rate limit at or below its buffer is all that is wrong,
    [validateResources] rejects with [RESOURCE_INVALID] and an empty list of
    reasons. *)
Theorem rate_limit_rejection_lists_no_reason
    (repositoryUrl : string) (a : Answers) (m : ResourceMetrics) :
  snd (checkResources a) = Ok m ->
  isStorageAvailable m = true -> isQueueAvailable m = true ->
  isSystemHealthy m = true -> areRateLimitsAvailable m = false ->
  validateResources repositoryUrl a
  = Err {| message := "Resources not available";
           code := RESOURCE_INVALID; reasons := [] |}.
Proof.
  intros Hm H1 H2 H4 H3.
  destruct (checkResources_ok a m Hm) as [Hav _].
  rewrite H1, H2, H3, H4 in Hav. simpl in Hav.
  unfold validateResources. rewrite Hm, Hav. cbn [negb].
  unfold isStorageAvailable in H1. rewrite (less_not_at_least _ _ H1).
  unfold isQueueAvailable in H2.
  assert ((active (queueMetrics m) >=? queue_maxConcurrent (queueMetrics m))
          = false) as ->.
  { apply Z.ltb_lt in H2.
    destruct (Z.geb_spec (active (queueMetrics m))
                         (queue_maxConcurrent (queueMetrics m)));
      [lia | reflexivity]. }
  unfold isSystemHealthy in H4. rewrite H4. reflexivity.
Qed.

(** A quiet system whose GitHub API budget is nearly used up. *)
Definition throttled : Answers := {|
  storage_totalSize := Ok 50%Q;
  storage_totalQuota := 100;
  queue_getMetrics :=
    Ok {| totalItems := 3; processingItems := 1; failedItems := 0;
          averageWaitTime := 1000; averageProcessingTime := 2000;
          maxConcurrent := 5 |};
  repository_getRateLimit :=
    fun type => match type with
                | GITHUB_API =>
                    Ok {| remaining := 40; limit := 5000; reset := 3600000 |}
                | _ => Ok ample
                end;
  os_loadavg := 1; os_cpus := 4; os_totalmem := 16; os_freemem := 8;
  storageCleanup_completes := true;
  queueCleanup_completes := true
|}.

Lemma rate_limit_rejection_lists_no_reason_witness :
  exists m,
    snd (checkResources throttled) = Ok m
    /\ isStorageAvailable m = true /\ isQueueAvailable m = true
    /\ isSystemHealthy m = true /\ areRateLimitsAvailable m = false
    /\ validateResources "repo" throttled
       = Err {| message := "Resources not available";
                code := RESOURCE_INVALID; reasons := [] |}.
Proof.
  eexists.
  split; [reflexivity |].
  assert (forall m, snd (checkResources throttled) = Ok m ->
            isStorageAvailable m = true /\ isQueueAvailable m = true
            /\ isSystemHealthy m = true /\ areRateLimitsAvailable m = false)
    as H.
  { intros m0 Hm0. vm_compute in Hm0. injection Hm0 as <-.
    vm_compute. auto. }
  destruct (H _ eq_refl) as (H1 & H2 & H4 & H3).
  split; [exact H1 | split; [exact H2 | split; [exact H4 |
    split; [exact H3 |]]]].
  exact (rate_limit_rejection_lists_no_reason "repo" throttled _
           eq_refl H1 H2 H4 H3).
Defined.

(** X16. When a check ends with metrics, it has started the storage cleanup
    exactly if the storage sub-check failed, and the queue cleanup exactly
    if the average queue wait exceeds 24 hours; the storage cleanup comes
    first. *)
Theorem cleanups_started
    (a : Answers) (cleanups : list Cleanup) (m : ResourceMetrics) :
  checkResources a = (cleanups, Ok m) ->
  (In StorageCleanup cleanups <-> isStorageAvailable m = false)
  /\ (In QueueCleanup cleanups <->
      Qle_bool (queue_averageWaitTime (queueMetrics m)) QUEUE_CLEANUP_AGE
      = false)
  /\ (cleanups = [] \/ cleanups = [StorageCleanup]
      \/ cleanups = [QueueCleanup]
      \/ cleanups = [StorageCleanup; QueueCleanup]).
Proof.
  unfold checkResources.
  destruct (storage_totalSize a) as [totalSize|]; [| discriminate].
  destruct (queue_getMetrics a) as [queue|]; [| discriminate].
  destruct (getAllRateLimits a) as [limits|]; [| discriminate].
  set (base := {| available := false;
                  storageUsage := _; queueMetrics := _; activeAnalyses := _;
                  rateLimits := limits; systemHealth := _ |}).
  set (metrics := with_available base _).
  clearbody metrics.
  destruct (isStorageAvailable metrics) eqn:Hs;
    destruct (Qle_bool (queue_averageWaitTime (queueMetrics metrics))
                       QUEUE_CLEANUP_AGE) eqn:Hq;
    cbn [negb];
    repeat match goal with
           | |- context [if ?b then _ else _] => destruct b
           end;
    intros H; try discriminate H; injection H as <- <-;
    rewrite ?Hs, ?Hq; cbn [In];
    intuition (discriminate || congruence || auto).
Qed.

Lemma cleanups_started_witness :
  checkResources (quiet 95)
  = ([StorageCleanup], snd (checkResources (quiet 95)))
  /\ In StorageCleanup (fst (checkResources (quiet 95))).
Proof.
  assert (exists m, checkResources (quiet 95) = ([StorageCleanup], Ok m))
    as [m Hm] by (eexists; vm_compute; reflexivity).
  split; [rewrite Hm; reflexivity |].
  destruct (cleanups_started (quiet 95) [StorageCleanup] m Hm) as (H & _).
  rewrite Hm. now left.
Defined.

End Admission.


(** ** Rate limits and the clone decision: [RepositoryService], in
       [src/services/repository.service.ts] *)

Module RateLimits.

Import Resources.

#[global] Instance RateLimitType_eq_dec : EqDecision RateLimitType.
Proof. solve_decision. Defined.

Definition LARGE_REPO_SIZE : Z := 100000.
Definition RATE_LIMIT_THRESHOLD : Z := 100.

(** The service with the tables it reads: its in-memory map of rate
    limits, the [RateLimit] table (unique by type) and the [size] column of
    the [RepositoryMetadata] table (unique by url). *)
Record RepositoryService := {
  rateLimits : RateLimitType -> option IRateLimit;
  rateLimit_table : RateLimitType -> option IRateLimit;
  metadata_size : string -> option Z
}.

(** [Map.set] and [upsert] on a table that is unique by type. *)
Definition put (type : RateLimitType) (l : IRateLimit)
    (f : RateLimitType -> option IRateLimit)
    : RateLimitType -> option IRateLimit :=
  fun t => if decide (t = type) then Some l else f t.

(** [updateRateLimit(type, limit)] *)
Definition updateRateLimit (type : RateLimitType) (l : IRateLimit)
    (s : RepositoryService) : RepositoryService :=
  {| rateLimits := put type l (rateLimits s);
     rateLimit_table := put type l (rateLimit_table s);
     metadata_size := metadata_size s |}.

(** [getRateLimit(type)]: the limit and the service it leaves. *)
Definition getRateLimit (type : RateLimitType) (now : Z)
    (s : RepositoryService) : IRateLimit * RepositoryService :=
  match rateLimits s type with
  | Some cachedLimit =>
      if reset cachedLimit >? now then (cachedLimit, s)
      else
        match rateLimit_table s type with
        | None =>
            let defaultLimit :=
              {| remaining := RATE_LIMIT_THRESHOLD + 1; limit := 5000;
                 reset := now + 3600000 |} in
            (defaultLimit, updateRateLimit type defaultLimit s)
        | Some rateLimit =>
            (rateLimit,
             {| rateLimits := put type rateLimit (rateLimits s);
                rateLimit_table := rateLimit_table s;
                metadata_size := metadata_size s |})
        end
  | None =>
      match rateLimit_table s type with
      | None =>
          let defaultLimit :=
            {| remaining := RATE_LIMIT_THRESHOLD + 1; limit := 5000;
               reset := now + 3600000 |} in
          (defaultLimit, updateRateLimit type defaultLimit s)
      | Some rateLimit =>
          (rateLimit,
           {| rateLimits := put type rateLimit (rateLimits s);
              rateLimit_table := rateLimit_table s;
              metadata_size := metadata_size s |})
      end
  end.

(** [shouldUseClone(url)]: a repository without metadata makes
    [getMetadata] throw, and every error answers true; [metadata_size] is
    the size as [getMetadata] returns it, [metadata.size || 0]. *)
Definition shouldUseClone (url : string) (now : Z) (s : RepositoryService)
    : bool * RepositoryService :=
  match metadata_size s url with
  | None => (true, s)
  | Some size =>
      if size >? LARGE_REPO_SIZE then (true, s)
      else
        let '(rateLimit, s1) := getRateLimit GITHUB_API now s in
        if remaining rateLimit <? RATE_LIMIT_THRESHOLD
        then (true, s1) else (false, s1)
  end.

Lemma put_eq (type : RateLimitType) (l : IRateLimit)
    (f : RateLimitType -> option IRateLimit) :
  put type l f type = Some l.
Proof. unfold put. now rewrite decide_True. Qed.

Lemma put_ne (type other : RateLimitType) (l : IRateLimit)
    (f : RateLimitType -> option IRateLimit) :
  other <> type -> put type l f other = f other.
Proof. intros H. unfold put. now rewrite decide_False. Qed.

(** X17. [getRateLimit] after [updateRateLimit] returns the limit that was
    stored (its remaining, limit and reset), at any time, and the limits of
    the other types are answered as before. *)
Theorem getRateLimit_updateRateLimit
    (type other : RateLimitType) (l : IRateLimit) (now : Z)
    (s : RepositoryService) :
  fst (getRateLimit type now (updateRateLimit type l s)) = l
  /\ (other <> type ->
      fst (getRateLimit other now (updateRateLimit type l s))
      = fst (getRateLimit other now s)).
Proof.
  split.
  - unfold getRateLimit, updateRateLimit.
    cbn [rateLimits rateLimit_table]. rewrite !put_eq.
    destruct (reset l >? now); reflexivity.
  - intros Hne.
    unfold getRateLimit, updateRateLimit.
    cbn [rateLimits rateLimit_table]. rewrite !(put_ne _ _ _ _ Hne).
    destruct (rateLimits s other) as [c|];
      [destruct (reset c >? now); [reflexivity |] |];
      destruct (rateLimit_table s other); reflexivity.
Qed.

(** The limit that [getRateLimit] makes up when it knows nothing. *)
Definition defaultLimit (now : Z) : IRateLimit :=
  {| remaining := 101; limit := 5000; reset := now + 3600000 |}.

Lemma critical_limit_blocks (a : Answers) (type : RateLimitType)
    (l : IRateLimit) (m : ResourceMetrics) :
  repository_getRateLimit a type = Ok l ->
  isRateLimitCritical l = true ->
  snd (checkResources a) = Ok m ->
  areRateLimitsAvailable m = false.
Proof.
  intros Hl Hc Hm.
  assert (exists limits, getAllRateLimits a = Ok limits
                         /\ Resources.rateLimits m = limits)
    as (limits & Hg & Hr).
  { revert Hm. unfold checkResources.
    destruct (storage_totalSize a); [| discriminate].
    destruct (queue_getMetrics a); [| discriminate].
    destruct (getAllRateLimits a) as [limits|]; [| discriminate].
    exists limits. split; [reflexivity |].
    revert Hm.
    repeat match goal with
           | |- context [if ?b then _ else _] => destruct b
           end;
      simpl; intros H; try discriminate H; injection H as <-; reflexivity. }
  assert (In (type, l) limits) as Hin.
  { revert Hg. unfold getAllRateLimits. cbn [collectRateLimits].
    destruct (repository_getRateLimit a GITHUB_API) as [l1|] eqn:E1;
      [| discriminate].
    destruct (repository_getRateLimit a GITHUB_SEARCH) as [l2|] eqn:E2;
      [| discriminate].
    destruct (repository_getRateLimit a OPENAI_API) as [l3|] eqn:E3;
      [| discriminate].
    destruct (repository_getRateLimit a TWITTER_API) as [l4|] eqn:E4;
      [| discriminate].
    intros [= <-]. destruct type; simpl;
      [ rewrite E1 in Hl | rewrite E2 in Hl | rewrite E3 in Hl
      | rewrite E4 in Hl ]; injection Hl as ->; auto. }
  unfold areRateLimitsAvailable. rewrite Hr.
  apply not_true_is_false. intros Hall.
  rewrite forallb_forall in Hall. specialize (Hall _ Hin).
  cbn [snd] in Hall. rewrite Hc in Hall. discriminate.
Qed.

(** X18. With no rate limit known for a type, neither in memory nor in the
    table, [getRateLimit] makes one up (101 of 5000 remaining, reset in an
    hour), remembers it, and answers the same until that hour has passed.
    The resource manager counts that limit as critical: a check that sees
    it for any type reports the resources as not available, and
    [validateResources] does not return true. *)
Theorem unknown_rate_limit_blocks_admission
    (type : RateLimitType) (now later : Z) (s : RepositoryService)
    (a : Answers) (repositoryUrl : string) :
  rateLimits s type = None -> rateLimit_table s type = None ->
  now <= later < now + 3600000 ->
  let first := getRateLimit type now s in
  fst first = defaultLimit now
  /\ fst (getRateLimit type later (snd first)) = defaultLimit now
  /\ rateLimit_table (snd first) type = Some (defaultLimit now)
  /\ isRateLimitCritical (defaultLimit now) = true
  /\ (repository_getRateLimit a type = Ok (defaultLimit now) ->
      (forall m, snd (checkResources a) = Ok m -> available m = false)
      /\ validateResources repositoryUrl a <> Ok true).
Proof.
  intros Hc Ht Hl first.
  assert (first = (defaultLimit now, updateRateLimit type (defaultLimit now) s))
    as -> by (unfold first, getRateLimit; now rewrite Hc, Ht).
  cbn [fst snd].
  split; [reflexivity |]. split.
  { unfold getRateLimit, updateRateLimit. cbn [rateLimits].
    rewrite put_eq. cbn [reset defaultLimit].
    destruct (Z.gtb_spec (now + 3600000) later); [reflexivity | lia]. }
  split.
  { unfold updateRateLimit. cbn [rateLimit_table]. apply put_eq. }
  split; [reflexivity |].
  intros Ha.
  assert (forall m, snd (checkResources a) = Ok m -> available m = false)
    as Hav.
  { intros m Hm.
    rewrite (proj1 (checkResources_ok a m Hm)).
    rewrite (critical_limit_blocks a type (defaultLimit now) m Ha eq_refl Hm).
    now rewrite andb_false_r. }
  split; [exact Hav |].
  intros Hok.
  pose proof (validateResources_cases repositoryUrl a) as Hcase.
  destruct (snd (checkResources a)) as [m | e]; [| congruence].
  rewrite (Hav m eq_refl) in Hcase.
  destruct Hcase as (e & He & _). congruence.
Qed.

(** X19. [shouldUseClone] never fails and answers false, that is "use the
    API", exactly when the repository's metadata is known, its size is at
    most 100000 and the GitHub API limit that [getRateLimit] returns has at
    least 100 requests remaining. *)
Theorem shouldUseClone_decision
    (url : string) (now : Z) (s : RepositoryService) :
  fst (shouldUseClone url now s) = false <->
  exists size,
    metadata_size s url = Some size /\ size <= LARGE_REPO_SIZE
    /\ RATE_LIMIT_THRESHOLD <= remaining (fst (getRateLimit GITHUB_API now s)).
Proof.
  unfold shouldUseClone.
  destruct (metadata_size s url) as [size|].
  - destruct (Z.gtb_spec size LARGE_REPO_SIZE).
    + split; [discriminate | intros (sz & [= <-] & H1 & _); lia].
    + destruct (getRateLimit GITHUB_API now s) as [rateLimit s1]. cbn [fst].
      destruct (Z.ltb_spec (remaining rateLimit) RATE_LIMIT_THRESHOLD);
        cbn [fst].
      * split; [discriminate | intros (sz & _ & _ & H2); lia].
      * split; [intros _; exists size; auto | reflexivity].
  - split; [discriminate | intros (sz & [=] & _)].
Qed.

Definition nothing_known : RepositoryService :=
  {| rateLimits := fun _ => None; rateLimit_table := fun _ => None;
     metadata_size := fun _ => None |}.

Lemma unknown_rate_limit_blocks_admission_witness :
  rateLimits nothing_known GITHUB_API = None
  /\ rateLimit_table nothing_known GITHUB_API = None
  /\ 10 <= 20 < 10 + 3600000
  /\ fst (getRateLimit GITHUB_API 20
            (snd (getRateLimit GITHUB_API 10 nothing_known)))
     = defaultLimit 10.
Proof.
  assert (rateLimits nothing_known GITHUB_API = None) as H1 by reflexivity.
  assert (rateLimit_table nothing_known GITHUB_API = None) as H2
    by reflexivity.
  assert (10 <= 20 < 10 + 3600000) as H3 by lia.
  split; [exact H1 | split; [exact H2 | split; [exact H3 |]]].
  exact (proj1 (proj2 (unknown_rate_limit_blocks_admission
                         GITHUB_API 10 20 nothing_known (quiet 50) "repo"
                         H1 H2 H3))).
Defined.

End RateLimits.


(** ** What one pass of the orchestrator's loop leaves behind:
       [AnalysisOrchestrator.processQueue], in
       [src/services/repository.service.ts] *)

Module Loop.

Import Status (Error, message).
Import Orchestrator.

Section Pass.

Context {AnalysisMethod : Type} `{EqDecision AnalysisMethod}.
Variables API CLONE FAILED : AnalysisMethod.
Variable method_name : AnalysisMethod -> string.
Context {Content AnalysisResult : Type}.

#[local] Abbreviation Progress :=
  (IAnalysisProgress (AnalysisMethod := AnalysisMethod)
                     (AnalysisResult := AnalysisResult)).
#[local] Abbreviation Calls :=
  (Outcomes (AnalysisMethod := AnalysisMethod) (Content := Content)
            (AnalysisResult := AnalysisResult)).

(** One dequeued item whose record is [p]. *)
Definition pass (item : IQueueItem) (o : Calls) (p : Progress)
    : State (Content := Content) * promise Error unit :=
  processItem API CLONE FAILED method_name item o
              {| current := p; log := [] |}.

(** The calls of [analyzeCode], in order. *)
Definition analyses (events : list (Event (AnalysisMethod := AnalysisMethod)
                                          (Content := Content)))
    : list Content :=
  omap (fun e => match e with
                 | AnalyzeCode content => Some content
                 | _ => None
                 end) events.

Ltac run_pass :=
  cbv [pass processItem primary recover fallback try_catch mbind M_bind mret
       M_ret bind ret throw modify read settle emit await step adopt keep
       updateStatus fst snd current log id status progress currentStep
       analysisMethod fallbackAvailable result andb].

Ltac split_calls o :=
  repeat (run_pass;
          first
            [ match goal with
              | |- context [route o] => destruct (route o) as [[? ? ?] | ?]
              end
            | match goal with
              | |- context [bool_decide (?m = FAILED)] =>
                  destruct (bool_decide (m = FAILED))
              end
            | match goal with
              | |- context [primary_content o] => destruct (primary_content o)
              end
            | match goal with
              | |- context [primary_analysis o] =>
                  destruct (primary_analysis o)
              end
            | match goal with
              | |- context [primary_completed o] =>
                  destruct (primary_completed o)
              end
            | match goal with
              | |- context [if ?b then _ else _] => destruct b
              end
            | match goal with
              | |- context [fallback_content o] =>
                  destruct (fallback_content o)
              end
            | match goal with
              | |- context [fallback_analysis o] =>
                  destruct (fallback_analysis o)
              end
            | match goal with
              | |- context [fallback_completed o] =>
                  destruct (fallback_completed o)
              end
            | match goal with
              | |- context [failure_recorded o] =>
                  destruct (failure_recorded o)
              end ]).

(** X20. Every pass over a dequeued item ends in one of two ways.  Either
    the pass resolves with [progress] at 100, a result stored in the record
    and the assignment of 100 as the last thing done; or the last thing done
    is the update of the queue status to Failed, [progress] is below 100,
    and the pass resolves exactly if the queue accepted that update.  The
    pass never writes the record's [status] or [id], fetches the content at
    most twice and calls the analysis at most twice. *)
Theorem pass_settles_item (item : IQueueItem) (o : Calls) (p : Progress) :
  let final := fst (pass item o p) in
  let outcome := snd (pass item o p) in
  ((resolved outcome = true
    /\ progress (current final) = 100
    /\ is_Some (result (current final))
    /\ exists label, last (log final) = Some (Assign 100 label))
   \/ (resolved outcome = resolved (failure_recorded o)
       /\ progress (current final) < 100
       /\ exists why,
            last (log final)
            = Some (UpdateStatus (item_id item) QueueStatus.FAILED (Some why)
                                 (resolved (failure_recorded o)))))
  /\ status (current final) = status p
  /\ id (current final) = id p
  /\ (length (executions (log final)) <= 2)%nat
  /\ (length (analyses (log final)) <= 2)%nat.
Proof.
  intros final outcome. subst final outcome.
  destruct p as [pid pst ppr pcs pam pfa pres].
  split_calls o; cbn;
    (split;
     [ first [ left; split; [reflexivity |]; split; [reflexivity |];
               split; [eexists; reflexivity |]; eexists; reflexivity
             | right; split; [reflexivity |]; split; [lia |];
               eexists; reflexivity ]
     | split; [reflexivity |]; split; [reflexivity |]; split; lia ]).
Qed.

(** One pass of [processQueue()]. *)
Definition loop (dequeued : promise Error (option IQueueItem)) (o : Calls)
    (progressMap : gmap string Progress) :=
  processQueue API CLONE FAILED method_name dequeued o progressMap.

(** X21. What one pass of the loop does to the map of records and when the
    loop runs again.  A pass writes no record but the dequeued item's, and
    adds or removes none.  The loop stops, with nothing done and nothing
    scheduled, when the queue handed out nothing and also when it handed
    out an item that has no record; it waits five seconds when [dequeue]
    rejected or the queue rejected the record of the item's failure; in
    every other case it runs again at once. *)
Theorem loop_next
    (dequeued : promise Error (option IQueueItem)) (o : Calls)
    (progressMap : gmap string Progress) :
  let after := fst (fst (loop dequeued o progressMap)) in
  let events := snd (fst (loop dequeued o progressMap)) in
  let next := snd (loop dequeued o progressMap) in
  (forall key,
     (forall item, dequeued = Ok (Some item) -> item_id item <> key) ->
     after !! key = progressMap !! key)
  /\ (forall key, is_Some (after !! key) <-> is_Some (progressMap !! key))
  /\ (next = Stop <->
      dequeued = Ok None
      \/ exists item, dequeued = Ok (Some item)
                      /\ progressMap !! item_id item = None)
  /\ (next = Stop -> events = [] /\ after = progressMap)
  /\ (next = After 5000 <->
      (exists e, dequeued = Err e)
      \/ exists item p,
           dequeued = Ok (Some item) /\ progressMap !! item_id item = Some p
           /\ resolved (snd (pass item o p)) = false)
  /\ (forall item p,
        dequeued = Ok (Some item) -> progressMap !! item_id item = Some p ->
        resolved (snd (pass item o p)) = false ->
        resolved (failure_recorded o) = false
        /\ exists why,
             last events
             = Some (UpdateStatus (item_id item) QueueStatus.FAILED
                                  (Some why) false)).
Proof.
  intros after events next. subst after events next.
  unfold loop, processQueue.
  destruct dequeued as [[item |] | e]; cbn [fst snd].
  2,3: solve
    [ repeat split; try discriminate; eauto;
      try (intros [Hq | (? & Hq & ?)]; discriminate Hq);
      try (intros [(? & Hq) | (? & ? & Hq & ?)]; discriminate Hq);
      try (intros ? ? Hq; discriminate Hq) ].
  destruct (progressMap !! item_id item) as [p |] eqn:Hp.
  2:{ cbn [fst snd].
      split; [reflexivity |]. split; [reflexivity |].
      split; [split; [intros _; right; eauto | reflexivity] |].
      split; [auto |].
      split.
      - split; [discriminate |].
        intros [(e & Hq) | (item' & p' & Hq & Hp' & _)]; [discriminate Hq |].
        injection Hq as <-. congruence.
      - intros item' p' Hq Hp'. injection Hq as <-. congruence. }
  fold (pass item o p).
  destruct (pass item o p) as [s outcome] eqn:Hpass. cbn [fst snd].
  pose proof (pass_settles_item item o p) as Hsettle.
  rewrite Hpass in Hsettle. cbn [fst snd] in Hsettle.
  destruct Hsettle as (Hend & _).
  split.
  { intros key Hkey. apply lookup_insert_ne.
    specialize (Hkey item eq_refl). congruence. }
  split.
  { intros key. destruct (decide (key = item_id item)) as [-> |].
    - rewrite lookup_insert_eq, Hp. split; eauto.
    - now rewrite lookup_insert_ne by congruence. }
  split.
  { split.
    - destruct outcome; discriminate.
    - intros [Hq | (item' & Hq & Hn)]; [discriminate Hq |].
      injection Hq as <-. congruence. }
  split; [destruct outcome; discriminate |].
  split.
  { split.
    - intros Hn. right. exists item, p. rewrite Hpass.
      destruct outcome; [discriminate | auto].
    - intros [(e & Hq) | (item' & p' & Hq & Hp' & Hr)]; [discriminate Hq |].
      injection Hq as <-.
      assert (p' = p) as -> by congruence.
      rewrite Hpass in Hr. destruct outcome; [discriminate | reflexivity]. }
  intros item' p' Hq Hp' Hr. injection Hq as <-.
  assert (p' = p) as -> by congruence.
  rewrite Hpass in Hr. cbn [snd] in Hr.
  destruct Hend as [(Hok & _) | (Hres & _ & why & Hlast)]; [congruence |].
  rewrite Hr in Hres. rewrite <- Hres in Hlast. split; [auto |].
  exists why. exact Hlast.
Qed.

End Pass.

End Loop.


(** ** Token rotation: [GitHubTokenManager] *)

Module Tokens.

Import Status (Error, message).

Record GitHubTokenManager := {
  tokens : list string;
  currentTokenIndex : nat;
  (** the token the client authenticates with; [undefined] is [None] *)
  octokit : option string;
  rateLimitThreshold : Z
}.

Section Rotation.

(** What GitHub answers to [rateLimit.get()] for a client that
    authenticates with the given token: the remaining core requests.  The
    answer for a token is taken not to change while one call of [getToken]
    or [rotateToken] runs. *)
Variable rateLimit : option string -> promise Error Z.

(** [getRateLimitInfo()], its [remaining]. *)
Definition getRateLimitInfo (m : GitHubTokenManager) : promise Error Z :=
  match rateLimit (octokit m) with
  | Ok remaining => Ok remaining
  | Err _ => Err {| message := "Failed to get rate limit info" |}
  end.

(** The constructor, from the primary token, the backup tokens split at the
    commas and the threshold read from the environment. *)
Definition new (primaryToken : string) (backupTokens : list string)
    (threshold : Z) : promise Error GitHubTokenManager :=
  if bool_decide (primaryToken = EmptyString)
  then Err {| message := "GITHUB_PRIMARY_TOKEN is required" |}
  else Ok {| tokens :=
               primaryToken
               :: List.filter (fun t => negb (bool_decide (t = EmptyString)))
                              backupTokens;
             currentTokenIndex := 0;
             octokit := Some primaryToken;
             rateLimitThreshold := threshold |}.

(** [this.currentTokenIndex = (this.currentTokenIndex + 1) % length;
     this.octokit = new Octokit({ auth: this.tokens[index] })] *)
Definition advance (m : GitHubTokenManager) : GitHubTokenManager :=
  let i := ((currentTokenIndex m + 1) mod length (tokens m))%nat in
  {| tokens := tokens m; currentTokenIndex := i; octokit := tokens m !! i;
     rateLimitThreshold := rateLimitThreshold m |}.

(** The [do { ... } while (this.currentTokenIndex !== startIndex)] of
    [rotateToken], with [foundValidToken] as the result; [None] when the
    iterations allowed are used up. *)
Fixpoint rotate (fuel : nat) (startIndex : nat) (m : GitHubTokenManager)
    : option (GitHubTokenManager * bool) :=
  match fuel with
  | O => None
  | S fuel' =>
      let m1 := advance m in
      let again :=
        if (currentTokenIndex m1 =? startIndex)%nat
        then Some (m1, false) else rotate fuel' startIndex m1 in
      match getRateLimitInfo m1 with
      | Ok remaining =>
          if remaining >? rateLimitThreshold m1 then Some (m1, true)
          else again
      | Err _ => again
      end
  end.

(** [rotateToken()], with one iteration allowed per token. *)
Definition rotateToken (m : GitHubTokenManager)
    : option (GitHubTokenManager * promise Error unit) :=
  match rotate (length (tokens m)) (currentTokenIndex m) m with
  | Some (m', true) => Some (m', Ok tt)
  | Some (m', false) =>
      Some (m', Err {| message := "No valid GitHub tokens available" |})
  | None => None
  end.

(** [getToken()] *)
Definition getToken (m : GitHubTokenManager)
    : option (GitHubTokenManager * promise Error (option string)) :=
  match getRateLimitInfo m with
  | Err e => Some (m, Err e)
  | Ok remaining =>
      if remaining <=? rateLimitThreshold m
      then
        match rotateToken m with
        | Some (m', Ok _) =>
            Some (m', Ok (tokens m' !! currentTokenIndex m'))
        | Some (m', Err e) => Some (m', Err e)
        | None => None
        end
      else Some (m, Ok (tokens m !! currentTokenIndex m))
  end.

(** The token at position [i] has more requests left than the threshold. *)
Definition usable (m : GitHubTokenManager) (i : nat) : bool :=
  match rateLimit (tokens m !! i) with
  | Ok remaining => remaining >? rateLimitThreshold m
  | Err _ => false
  end.

(** The position reached [k] steps after [start], round the list. *)
Definition around (m : GitHubTokenManager) (start k : nat) : nat :=
  ((start + k) mod length (tokens m))%nat.

Lemma mod_wrap (a n : nat) : (n <= a < 2 * n)%nat -> (a mod n = a - n)%nat.
Proof.
  intros Ha. symmetry. apply (Nat.mod_unique a n 1); lia.
Qed.


(** Going round comes back to [start] after as many steps as there are
    tokens, and not before. *)
Lemma around_start (m : GitHubTokenManager) (start k : nat) :
  (start < length (tokens m))%nat -> (1 <= k <= length (tokens m))%nat ->
  around m start k = start <-> k = length (tokens m).
Proof.
  intros Hs Hk. unfold around.
  destruct (Nat.lt_ge_cases (start + k) (length (tokens m))) as [Hlt | Hge].
  - rewrite Nat.mod_small by exact Hlt. lia.
  - rewrite mod_wrap by lia. lia.
Qed.

(** Every position is reached within one round. *)
Lemma around_reaches (m : GitHubTokenManager) (start i : nat) :
  (start < length (tokens m))%nat -> (i < length (tokens m))%nat ->
  exists k, (1 <= k <= length (tokens m))%nat /\ around m start k = i.
Proof.
  intros Hs Hi. unfold around.
  destruct (Nat.lt_ge_cases start i) as [Hlt | Hge].
  - exists (i - start)%nat. split; [lia |].
    replace (start + (i - start))%nat with i by lia.
    now apply Nat.mod_small.
  - exists (i + length (tokens m) - start)%nat. split; [lia |].
    rewrite mod_wrap by lia. lia.
Qed.

Lemma rotate_step (fuel start : nat) (m : GitHubTokenManager) :
  rotate (S fuel) start m
  = if usable m (currentTokenIndex (advance m))
    then Some (advance m, true)
    else if (currentTokenIndex (advance m) =? start)%nat
         then Some (advance m, false)
         else rotate fuel start (advance m).
Proof.
  cbn [rotate]. unfold getRateLimitInfo, usable.
  cbn [octokit advance currentTokenIndex rateLimitThreshold tokens].
  destruct (rateLimit _) as [remaining | e]; [| reflexivity].
  destruct (remaining >? rateLimitThreshold m); reflexivity.
Qed.

Lemma rotate_spec (start fuel : nat) :
  forall (d : nat) (m m0 : GitHubTokenManager),
    tokens m = tokens m0 -> rateLimitThreshold m = rateLimitThreshold m0 ->
    (start < length (tokens m0))%nat ->
    (d + fuel = length (tokens m0))%nat -> (0 < fuel)%nat ->
    currentTokenIndex m = around m0 start d ->
    (forall j, (1 <= j <= d)%nat -> usable m0 (around m0 start j) = false) ->
    exists m' found,
      rotate fuel start m = Some (m', found)
      /\ tokens m' = tokens m0
      /\ rateLimitThreshold m' = rateLimitThreshold m0
      /\ octokit m' = tokens m0 !! currentTokenIndex m'
      /\ if found
         then exists k,
                (1 <= k <= length (tokens m0))%nat
                /\ currentTokenIndex m' = around m0 start k
                /\ usable m0 (currentTokenIndex m') = true
                /\ forall j, (1 <= j < k)%nat ->
                             usable m0 (around m0 start j) = false
         else currentTokenIndex m' = start
              /\ forall j, (1 <= j <= length (tokens m0))%nat ->
                           usable m0 (around m0 start j) = false.
Proof.
  induction fuel as [| fuel IH]; intros d m m0 Ht Hth Hs Hd Hf Hc Hbad;
    [lia |].
  rewrite rotate_step.
  assert (currentTokenIndex (advance m) = around m0 start (d + 1)) as Hnext.
  { cbn [advance currentTokenIndex]. rewrite Ht, Hc. unfold around.
    rewrite Nat.Div0.add_mod_idemp_l. f_equal. lia. }
  assert (forall i, usable m i = usable m0 i) as Hu.
  { intros i. unfold usable. now rewrite Ht, Hth. }
  assert (octokit (advance m) = tokens m0 !! currentTokenIndex (advance m))
    as Ho by (cbn [advance octokit currentTokenIndex]; now rewrite Ht).
  rewrite Hu.
  destruct (usable m0 (currentTokenIndex (advance m))) eqn:Hnow.
  - exists (advance m), true. repeat split; auto.
    exists (d + 1)%nat. repeat split; auto; try lia.
    intros j Hj. apply Hbad. lia.
  - assert (forall j, (1 <= j <= d + 1)%nat ->
                      usable m0 (around m0 start j) = false) as Hbad'.
    { intros j Hj. destruct (Nat.eq_dec j (d + 1)%nat) as [-> |].
      - now rewrite <- Hnext.
      - apply Hbad. lia. }
    destruct (Nat.eqb_spec (currentTokenIndex (advance m)) start) as [He | Hn].
    + exists (advance m), false. repeat split; auto.
      intros j Hj. apply Hbad'.
      rewrite Hnext in He. apply around_start in He; lia.
    + assert (d + 1 <> length (tokens m0))%nat as Hmore.
      { intros Hlast. apply Hn. rewrite Hnext.
        apply around_start; lia. }
      apply (IH (d + 1)%nat (advance m) m0); auto; lia.
Qed.

(** X22. [rotateToken] always comes to an end within one round of the list.
    It resolves exactly when some token has more requests left than the
    threshold, and then the manager is at the first such token after the
    current one, going round the list, with the client authenticated by it;
    otherwise it throws and the manager is back at the token it started
    from. *)
Theorem rotateToken_first_usable (m : GitHubTokenManager) :
  (currentTokenIndex m < length (tokens m))%nat ->
  exists m' outcome,
    rotateToken m = Some (m', outcome)
    /\ tokens m' = tokens m
    /\ rateLimitThreshold m' = rateLimitThreshold m
    /\ octokit m' = tokens m !! currentTokenIndex m'
    /\ match outcome with
       | Ok _ =>
           exists k,
             (1 <= k <= length (tokens m))%nat
             /\ currentTokenIndex m' = around m (currentTokenIndex m) k
             /\ usable m (currentTokenIndex m') = true
             /\ forall j, (1 <= j < k)%nat ->
                   usable m (around m (currentTokenIndex m) j) = false
       | Err e =>
           message e = "No valid GitHub tokens available"
           /\ currentTokenIndex m' = currentTokenIndex m
           /\ forall i, (i < length (tokens m))%nat -> usable m i = false
       end.
Proof.
  intros Hs.
  assert (currentTokenIndex m = around m (currentTokenIndex m) 0) as Hc.
  { unfold around. rewrite Nat.add_0_r. symmetry. now apply Nat.mod_small. }
  assert (forall j, (1 <= j <= 0)%nat ->
                    usable m (around m (currentTokenIndex m) j) = false)
    as Hbad by (intros j Hj; lia).
  destruct (rotate_spec (currentTokenIndex m) (length (tokens m)) 0 m m
              eq_refl eq_refl Hs eq_refl ltac:(lia) Hc Hbad)
    as (m' & found & Hr & Ht & Hth & Ho & Hfound).
  unfold rotateToken. rewrite Hr. destruct found.
  - exists m', (Ok tt). repeat split; auto.
  - exists m', (Err {| message := "No valid GitHub tokens available" |}).
    destruct Hfound as (Hback & Hnone). repeat split; auto.
    intros i Hi.
    destruct (around_reaches m (currentTokenIndex m) i Hs Hi)
      as (k & Hk & <-).
    now apply Hnone.
Qed.


End Rotation.

(** Three tokens: the first one is used up, the second one cannot be
    checked, the third one has requests left. *)
Definition three_tokens : GitHubTokenManager :=
  {| tokens := ["first"; "second"; "third"]; currentTokenIndex := 0;
     octokit := Some "first"%string; rateLimitThreshold := 1000 |}.

Definition answers (token : option string) : promise Error Z :=
  match token with
  | Some t =>
      if bool_decide (t = "first"%string) then Ok 12
      else if bool_decide (t = "third"%string) then Ok 4000
      else Err {| message := "Bad credentials" |}
  | None => Err {| message := "Bad credentials" |}
  end.

Lemma rotateToken_first_usable_witness :
  (currentTokenIndex three_tokens < length (tokens three_tokens))%nat
  /\ exists m' outcome,
       rotateToken answers three_tokens = Some (m', outcome)
       /\ tokens m' = tokens three_tokens.
Proof.
  assert (currentTokenIndex three_tokens < length (tokens three_tokens))%nat
    as Hs by (cbn; lia).
  split; [exact Hs |].
  destruct (rotateToken_first_usable answers three_tokens Hs)
    as (m' & outcome & Hr & Ht & _).
  exists m', outcome. split; [exact Hr | exact Ht].
Defined.



(** The rotation skips the token that cannot be checked and stops at the
    third. *)
Example getToken_three_tokens :
  getToken answers three_tokens
  = Some ({| tokens := ["first"; "second"; "third"]; currentTokenIndex := 2;
             octokit := Some "third"%string; rateLimitThreshold := 1000 |},
          Ok (Some "third"%string)).
Proof. reflexivity. Qed.

End Tokens.


(** ** The worker pool: [WorkerPool], in
       [src/services/repository-processing/worker-pool.ts] *)

Module Pool.

Import Status (Error, message).

Inductive WorkerStatus := IDLE | BUSY | ERROR | SHUTDOWN.

#[global] Instance WorkerStatus_eq_dec : EqDecision WorkerStatus.
Proof. solve_decision. Defined.

(** A worker; the pool refers to it by the object, which is its position
    in the insertion order of the [workers] map. *)
Record IQueueWorker := {
  status : WorkerStatus;
  completedTasks : Z;
  errors : Z;
  currentTask : option string;
  startedAt : option Z
}.

(** A waiting task; its [task], [resolve] and [reject] are what the events
    below stand for. *)
Record QueueItem := {
  id : string;
  priority : Z;
  addedAt : Z
}.

(** Where a call of [processQueue] is suspended: at the [await] of the
    task, at the [await] of the error notification, or in the timer of one
    second. *)
Inductive Continuation :=
| AfterTask (queueItem : QueueItem)
| AfterNotify (queueItem : QueueItem)
| AfterTimeout.

(** What happened to the promise that [addTask] returned. *)
Inductive Settlement := Resolved (id : string) | Rejected (id : string).

Record WorkerPool := {
  workers : list IQueueWorker;
  queue : list QueueItem;
  maxWorkers : nat;
  isShuttingDown : bool;
  (** the suspended calls of [processQueue], each with its worker *)
  suspended : list (nat * Continuation);
  settled : list Settlement
}.

(** [createWorker()] *)
Definition createWorker : IQueueWorker :=
  {| status := IDLE; completedTasks := 0; errors := 0; currentTask := None;
     startedAt := None |}.

Definition new (maxWorkers : nat) : WorkerPool :=
  {| workers := replicate maxWorkers createWorker; queue := [];
     maxWorkers := maxWorkers; isShuttingDown := false; suspended := [];
     settled := [] |}.

(** [this.queue.sort((a, b) => b.priority - a.priority)]: the sort is
    stable, so its result is the one of any stable sort. *)
Fixpoint insert (x : QueueItem) (l : list QueueItem) : list QueueItem :=
  match l with
  | [] => [x]
  | y :: rest =>
      if priority y >? priority x then y :: insert x rest else x :: l
  end.

Definition sort (l : list QueueItem) : list QueueItem := foldr insert [] l.

Definition with_status (s : WorkerStatus) (w : IQueueWorker) : IQueueWorker :=
  {| status := s; completedTasks := completedTasks w; errors := errors w;
     currentTask := currentTask w; startedAt := startedAt w |}.

(** [processQueue()], up to the [await] of the task. *)
Definition processQueue (now : Z) (pool : WorkerPool) : WorkerPool :=
  match queue pool with
  | [] => pool
  | queueItem :: rest =>
      match list_find (fun w => status w = IDLE) (workers pool) with
      | None => pool
      | Some (availableWorker, _) =>
          {| workers :=
               alter (fun w =>
                        {| status := BUSY; completedTasks := completedTasks w;
                           errors := errors w;
                           currentTask := Some (id queueItem);
                           startedAt := Some now |})
                     availableWorker (workers pool);
             queue := rest;
             maxWorkers := maxWorkers pool;
             isShuttingDown := isShuttingDown pool;
             suspended :=
               suspended pool ++ [(availableWorker, AfterTask queueItem)];
             settled := settled pool |}
      end
  end.

(** [addTask(task, priority)] up to the end of the promise's executor;
    [Some] error is the rejection of a pool that is shutting down. *)
Definition addTask (uuid : string) (priority : Z) (now : Z)
    (pool : WorkerPool) : WorkerPool * option Error :=
  if isShuttingDown pool
  then (pool, Some {| message := "Worker pool is shutting down" |})
  else
    (processQueue now
       {| workers := workers pool;
          queue := sort (queue pool
                         ++ [{| id := uuid; priority := priority;
                                addedAt := now |}]);
          maxWorkers := maxWorkers pool;
          isShuttingDown := isShuttingDown pool;
          suspended := suspended pool;
          settled := settled pool |},
     None).

(** [shutdown()] *)
Definition shutdown (pool : WorkerPool) : WorkerPool :=
  {| workers := with_status SHUTDOWN <$> workers pool;
     queue := [];
     maxWorkers := maxWorkers pool;
     isShuttingDown := true;
     suspended := suspended pool;
     settled := settled pool |}.

(** The first suspended call that [p] selects, and the others. *)
Fixpoint extract {A} (p : A -> bool) (l : list A) : option (A * list A) :=
  match l with
  | [] => None
  | x :: rest =>
      if p x then Some (x, rest)
      else match extract p rest with
           | Some (y, others) => Some (y, x :: others)
           | None => None
           end
  end.

Definition awaits_task (worker : nat) (c : nat * Continuation) : bool :=
  match c with
  | (w, AfterTask _) => bool_decide (w = worker)
  | _ => false
  end.

Definition awaits_notify (worker : nat) (c : nat * Continuation) : bool :=
  match c with
  | (w, AfterNotify _) => bool_decide (w = worker)
  | _ => false
  end.

Definition awaits_timeout (worker : nat) (c : nat * Continuation) : bool :=
  match c with
  | (w, AfterTimeout) => bool_decide (w = worker)
  | _ => false
  end.

(** The task of [worker] resolved: the rest of the [try]. *)
Definition taskResolved (worker : nat) (now : Z) (pool : WorkerPool)
    : WorkerPool :=
  match extract (awaits_task worker) (suspended pool) with
  | Some ((_, AfterTask queueItem), others) =>
      processQueue now
        {| workers :=
             alter (fun w =>
                      {| status := IDLE;
                         completedTasks := completedTasks w + 1;
                         errors := errors w; currentTask := None;
                         startedAt := None |})
                   worker (workers pool);
           queue := queue pool;
           maxWorkers := maxWorkers pool;
           isShuttingDown := isShuttingDown pool;
           suspended := others;
           settled := settled pool ++ [Resolved (id queueItem)] |}
  | _ => pool
  end.

(** The task of [worker] rejected: the [catch], up to the [await] of the
    notification. *)
Definition taskRejected (worker : nat) (pool : WorkerPool) : WorkerPool :=
  match extract (awaits_task worker) (suspended pool) with
  | Some ((_, AfterTask queueItem), others) =>
      {| workers :=
           alter (fun w =>
                    {| status := ERROR; completedTasks := completedTasks w;
                       errors := errors w + 1; currentTask := None;
                       startedAt := None |})
                 worker (workers pool);
         queue := queue pool;
         maxWorkers := maxWorkers pool;
         isShuttingDown := isShuttingDown pool;
         suspended := others ++ [(worker, AfterNotify queueItem)];
         settled := settled pool |}
  | _ => pool
  end.

(** The error notification went out: the promise is rejected and the timer
    is set. *)
Definition notified (worker : nat) (pool : WorkerPool) : WorkerPool :=
  match extract (awaits_notify worker) (suspended pool) with
  | Some ((_, AfterNotify queueItem), others) =>
      {| workers := workers pool;
         queue := queue pool;
         maxWorkers := maxWorkers pool;
         isShuttingDown := isShuttingDown pool;
         suspended := others ++ [(worker, AfterTimeout)];
         settled := settled pool ++ [Rejected (id queueItem)] |}
  | _ => pool
  end.

(** The timer of [worker] fired. *)
Definition timeout (worker : nat) (now : Z) (pool : WorkerPool)
    : WorkerPool :=
  match extract (awaits_timeout worker) (suspended pool) with
  | Some ((_, AfterTimeout), others) =>
      processQueue now
        {| workers := alter (with_status IDLE) worker (workers pool);
           queue := queue pool;
           maxWorkers := maxWorkers pool;
           isShuttingDown := isShuttingDown pool;
           suspended := others;
           settled := settled pool |}
  | _ => pool
  end.

(** What can happen to a pool, one event at a time. *)
Inductive Event :=
| AddTask (uuid : string) (priority : Z) (now : Z)
| TaskResolved (worker : nat) (now : Z)
| TaskRejected (worker : nat)
| Notified (worker : nat)
| Timeout (worker : nat) (now : Z)
| Shutdown.

Definition step (pool : WorkerPool) (e : Event) : WorkerPool :=
  match e with
  | AddTask uuid priority now => fst (addTask uuid priority now pool)
  | TaskResolved worker now => taskResolved worker now pool
  | TaskRejected worker => taskRejected worker pool
  | Notified worker => notified worker pool
  | Timeout worker now => timeout worker now pool
  | Shutdown => shutdown pool
  end.

Definition run (events : list Event) (pool : WorkerPool) : WorkerPool :=
  fold_left step events pool.

(** The tasks that are running. *)
Definition running (pool : WorkerPool) : list QueueItem :=
  omap (fun c => match c with
                 | (_, AfterTask queueItem) => Some queueItem
                 | _ => None
                 end) (suspended pool).

(** The queue holds the higher priority first. *)
Fixpoint descending (l : list QueueItem) : Prop :=
  match l with
  | [] => True
  | x :: rest =>
      Forall (fun y => priority y <= priority x) rest /\ descending rest
  end.

Lemma insert_elements (x : QueueItem) (l : list QueueItem) (P : QueueItem -> Prop) :
  P x -> Forall P l -> Forall P (insert x l).
Proof.
  intros Hx Hl. induction Hl as [| y rest Hy Hrest IH]; cbn [insert].
  - now constructor.
  - destruct (priority y >? priority x); repeat constructor; auto.
Qed.

Lemma insert_descending (x : QueueItem) (l : list QueueItem) :
  descending l -> descending (insert x l).
Proof.
  induction l as [| y rest IH]; cbn [insert descending].
  - intros _. split; [constructor | exact I].
  - intros [Hy Hrest].
    destruct (Z.gtb_spec (priority y) (priority x)) as [Hgt | Hle];
      cbn [descending].
    + split; [| now apply IH].
      apply insert_elements; [lia | exact Hy].
    + split; [| split; assumption].
      constructor; [lia |].
      eapply Forall_impl; [exact Hy |]. cbn. intros z Hz. lia.
Qed.

Lemma sort_descending (l : list QueueItem) : descending (sort l).
Proof.
  induction l as [| x rest IH]; [exact I |].
  cbn [sort foldr]. now apply insert_descending.
Qed.

(** A task that is not below the head goes to the head. *)
Lemma insert_head (x : QueueItem) (l : list QueueItem) :
  Forall (fun y => priority y <= priority x) l -> insert x l = x :: l.
Proof.
  intros Hl. destruct Hl as [| y rest Hy _]; [reflexivity |].
  cbn [insert]. destruct (Z.gtb_spec (priority y) (priority x)); [lia |].
  reflexivity.
Qed.

(** Where the stable sort puts a task that was pushed behind a queue in
    order: behind the tasks of its priority or more, ahead of the others. *)
Lemma sort_pushed (x : QueueItem) (l : list QueueItem) :
  descending l ->
  sort (l ++ [x])
  = List.filter (fun y => priority y >=? priority x) l
    ++ x :: List.filter (fun y => priority y <? priority x) l.
Proof.
  unfold sort. rewrite foldr_app. cbn [foldr insert].
  induction l as [| a rest IH]; [reflexivity |].
  intros [Ha Hrest]. cbn [foldr List.filter]. rewrite (IH Hrest).
  destruct (Z.geb_spec (priority a) (priority x)) as [Hge | Hlt].
  - destruct (Z.ltb_spec (priority a) (priority x)); [lia |].
    cbn [app]. apply insert_head.
    apply Forall_app. split.
    + apply List.Forall_forall. intros y Hy.
      apply List.filter_In in Hy as [Hy _].
      rewrite List.Forall_forall in Ha. now apply Ha.
    + constructor; [lia |].
      apply List.Forall_forall. intros y Hy.
      apply List.filter_In in Hy as [Hy _].
      rewrite List.Forall_forall in Ha. now apply Ha.
  - destruct (Z.ltb_spec (priority a) (priority x)); [| lia].
    assert (List.filter (fun y => priority y >=? priority x) rest = [])
      as ->.
    { clear IH Hrest. induction Ha as [| y rest' Hy _ IH']; [reflexivity |].
      cbn [List.filter].
      destruct (Z.geb_spec (priority y) (priority x)); [lia | exact IH']. }
    assert (List.filter (fun y => priority y <? priority x) rest = rest)
      as ->.
    { clear IH Hrest. induction Ha as [| y rest' Hy _ IH']; [reflexivity |].
      cbn [List.filter].
      destruct (Z.ltb_spec (priority y) (priority x)); [| lia].
      now rewrite IH'. }
    cbn [app insert].
    destruct (Z.gtb_spec (priority x) (priority a)); [| lia].
    now rewrite (insert_head a rest Ha).
Qed.

Lemma extract_spec {A} (p : A -> bool) (l : list A) (x : A)
    (others : list A) :
  extract p l = Some (x, others) ->
  p x = true /\ exists before after,
                 l = before ++ x :: after /\ others = before ++ after.
Proof.
  revert others. induction l as [| y rest IH]; intros others; [discriminate |].
  cbn [extract]. destruct (p y) eqn:Hy.
  - intros [= <- <-]. split; [exact Hy |]. now exists [], rest.
  - destruct (extract p rest) as [[z others'] |]; [| discriminate].
    intros [= <- <-]. destruct (IH others' eq_refl) as (Hz & b & a & -> & ->).
    split; [exact Hz |]. now exists (y :: b), a.
Qed.

(** What holds of a pool between two events, but for the balance of
    waiting tasks and idle workers: a worker with a suspended call is not
    idle and has one such call only, a pool that is shutting down has an
    empty queue, the queue is in order, and no worker comes or goes. *)
Definition tidy (pool : WorkerPool) : Prop :=
  (forall w c, (w, c) ∈ suspended pool ->
     exists worker, workers pool !! w = Some worker /\ status worker <> IDLE)
  /\ NoDup (suspended pool).*1
  /\ (isShuttingDown pool = true -> queue pool = [])
  /\ descending (queue pool)
  /\ length (workers pool) = maxWorkers pool.

(** No task waits while a worker is idle. *)
Definition conserving (pool : WorkerPool) : Prop :=
  queue pool <> [] -> Forall (fun w => status w <> IDLE) (workers pool).

Definition consistent (pool : WorkerPool) : Prop :=
  tidy pool /\ conserving pool.

Lemma processQueue_consistent (now : Z) (pool : WorkerPool) :
  tidy pool ->
  (queue pool <> [] ->
   length (queue pool) = 1%nat
   \/ exists released, forall w worker,
        workers pool !! w = Some worker -> status worker = IDLE ->
        w = released) ->
  consistent (processQueue now pool).
Proof.
  intros (Hbusy & Honce & Hshut & Horder & Hsize) Hone.
  unfold processQueue.
  destruct (queue pool) as [| queueItem rest] eqn:Hq.
  { split; [| intros Hne; rewrite Hq in Hne; now destruct Hne].
    repeat split; auto; rewrite Hq; auto. }
  destruct (list_find _ (workers pool)) as [[available idle] |] eqn:Hfind.
  2:{ split.
      - repeat split; auto; rewrite Hq; auto.
      - intros _. now apply list_find_None in Hfind. }
  apply list_find_Some in Hfind as (Hidle & Hstatus & _).
  assert (available ∉ (suspended pool).*1) as Hfree.
  { intros Hin. apply list_elem_of_fmap in Hin as ([w c] & -> & Hin).
    destruct (Hbusy _ _ Hin) as (worker & Hw & Hn).
    cbn [fst] in Hidle. congruence. }
  split.
  - split; [| split; [| split; [| split]]];
      cbn [suspended workers isShuttingDown queue maxWorkers].
    + intros w c Hin. apply elem_of_app in Hin as [Hin | Hin].
      * destruct (Hbusy _ _ Hin) as (worker & Hw & Hn).
        exists worker. split; [| exact Hn].
        rewrite list_lookup_alter_ne; [exact Hw |].
        intros ->. congruence.
      * apply list_elem_of_singleton in Hin as [= -> ->].
        rewrite list_lookup_alter_eq, Hidle. cbn.
        eexists. split; [reflexivity |]. cbn. discriminate.
    + rewrite fmap_app. apply NoDup_app. split; [exact Honce |].
      split; [| apply NoDup_singleton].
      intros w Hw Hin. cbn in Hin.
      apply list_elem_of_singleton in Hin as ->. contradiction.
    + intros Hdown. specialize (Hshut Hdown). discriminate.
    + cbn [descending] in Horder. tauto.
    + now rewrite length_alter.
  - intros Hrest. cbn [queue workers] in *.
    destruct Hone as [Hlen | (released & Hall)]; [discriminate | |].
    + cbn in Hlen. destruct rest; [contradiction | discriminate].
    + apply Forall_lookup. intros w worker Hw Hi.
      destruct (decide (w = available)) as [-> | Hne].
      * rewrite list_lookup_alter_eq, Hidle in Hw. cbn in Hw.
        injection Hw as <-. discriminate.
      * rewrite list_lookup_alter_ne in Hw by congruence.
        pose proof (Hall _ _ Hw Hi). pose proof (Hall _ _ Hidle Hstatus).
        congruence.
Qed.

Lemma extract_suspended (pool : WorkerPool) (p : nat * Continuation -> bool)
    (x : nat * Continuation) (others : list (nat * Continuation)) :
  NoDup (suspended pool).*1 ->
  extract p (suspended pool) = Some (x, others) ->
  p x = true /\ x ∈ suspended pool
  /\ (forall y, y ∈ others -> y ∈ suspended pool)
  /\ (x.1 ∉ others.*1)
  /\ NoDup others.*1.
Proof.
  intros Honce Hx.
  apply extract_spec in Hx as (Hp & before & after & Hs & ->).
  rewrite Hs in *. clear Hs.
  rewrite fmap_app, fmap_cons in Honce.
  apply NoDup_app in Honce as (Hb & Hba & Ha).
  apply NoDup_cons in Ha as (Hxa & Ha).
  split; [exact Hp |]. split; [apply elem_of_app; right; left |].
  split.
  { intros y Hy. apply elem_of_app in Hy as [Hy | Hy];
      apply elem_of_app; [left | right; right]; exact Hy. }
  rewrite fmap_app. split.
  - intros Hin. apply elem_of_app in Hin as [Hin | Hin]; [| contradiction].
    apply (Hba _ Hin). left.
  - apply NoDup_app. split; [exact Hb |]. split; [| exact Ha].
    intros y Hy Hin. apply (Hba _ Hy). now right.
Qed.

(** A suspended call of [worker] goes on: the worker is updated by [f], and
    either the call ends, or it is suspended again with a worker that is
    not idle. *)
Lemma tidy_resumed (pool : WorkerPool) (worker : nat) (c : Continuation)
    (others next : list (nat * Continuation)) (f : IQueueWorker -> IQueueWorker)
    (outcomes : list Settlement) :
  tidy pool ->
  (worker, c) ∈ suspended pool ->
  (forall y, y ∈ others -> y ∈ suspended pool) ->
  worker ∉ others.*1 -> NoDup others.*1 ->
  next = []
  \/ (exists c', next = [(worker, c')]) /\ (forall w, status (f w) <> IDLE) ->
  tidy {| workers := alter f worker (workers pool); queue := queue pool;
          maxWorkers := maxWorkers pool;
          isShuttingDown := isShuttingDown pool;
          suspended := others ++ next; settled := outcomes |}.
Proof.
  intros (Hbusy & Honce & Hshut & Horder & Hsize) Hin Hsub Hfree Hnd Hnext.
  split; [| split; [| split; [| split]]];
    cbn [suspended workers isShuttingDown queue maxWorkers]; auto.
  - intros w c0 Hw. apply elem_of_app in Hw as [Hw | Hw].
    + destruct (Hbusy _ _ (Hsub _ Hw)) as (wk & Hl & Hn).
      exists wk. split; [| exact Hn].
      rewrite list_lookup_alter_ne; [exact Hl |].
      intros <-. apply Hfree. apply list_elem_of_fmap.
      now exists (worker, c0).
    + destruct Hnext as [-> | ((c' & ->) & Hf)];
        [now apply elem_of_nil in Hw |].
      apply list_elem_of_singleton in Hw. injection Hw as -> ->.
      destruct (Hbusy _ _ Hin) as (wk & Hl & _).
      exists (f wk). split; [| apply Hf].
      now rewrite list_lookup_alter_eq, Hl.
  - destruct Hnext as [-> | ((c' & ->) & _)].
    + now rewrite app_nil_r.
    + rewrite fmap_app. apply NoDup_app. split; [exact Hnd |].
      split; [| apply NoDup_singleton].
      intros y Hy Hy'. cbn in Hy'.
      apply list_elem_of_singleton in Hy' as ->. contradiction.
  - now rewrite length_alter.
Qed.

(** After the worker of a suspended call is set free, it is the only one
    that can be idle while tasks wait. *)
Lemma released_only (pool : WorkerPool) (worker : nat)
    (f : IQueueWorker -> IQueueWorker) :
  conserving pool -> queue pool <> [] ->
  forall w wk,
    alter f worker (workers pool) !! w = Some wk -> status wk = IDLE ->
    w = worker.
Proof.
  intros Hcons Hq w wk Hw Hi.
  destruct (decide (w = worker)) as [| Hne]; [assumption |].
  rewrite list_lookup_alter_ne in Hw by congruence.
  specialize (Hcons Hq). rewrite Forall_lookup in Hcons.
  now destruct (Hcons _ _ Hw).
Qed.

Lemma awaits_task_inv (worker : nat) (x : nat * Continuation) :
  awaits_task worker x = true ->
  exists queueItem, x = (worker, AfterTask queueItem).
Proof.
  destruct x as [w [queueItem | queueItem |]]; cbn; try discriminate.
  intros Hw. apply bool_decide_eq_true in Hw as ->. now exists queueItem.
Qed.

Lemma awaits_notify_inv (worker : nat) (x : nat * Continuation) :
  awaits_notify worker x = true ->
  exists queueItem, x = (worker, AfterNotify queueItem).
Proof.
  destruct x as [w [queueItem | queueItem |]]; cbn; try discriminate.
  intros Hw. apply bool_decide_eq_true in Hw as ->. now exists queueItem.
Qed.

Lemma awaits_timeout_inv (worker : nat) (x : nat * Continuation) :
  awaits_timeout worker x = true -> x = (worker, AfterTimeout).
Proof.
  destruct x as [w [queueItem | queueItem |]]; cbn; try discriminate.
  intros Hw. now apply bool_decide_eq_true in Hw as ->.
Qed.

(** Every event keeps the pool consistent. *)
Lemma step_consistent (pool : WorkerPool) (e : Event) :
  consistent pool -> consistent (step pool e).
Proof.
  intros [Htidy Hcons].
  pose proof Htidy as (Hbusy & Honce & Hshut & Horder & Hsize).
  destruct e as [uuid p now | worker now | worker | worker | worker now |];
    cbn [step].
  - (* addTask *)
    unfold addTask. destruct (isShuttingDown pool) eqn:Hdown;
      [split; assumption |].
    cbn [fst]. apply processQueue_consistent.
    + split; [| split; [| split; [| split]]];
        cbn [suspended workers isShuttingDown queue maxWorkers]; auto;
        [congruence | apply sort_descending].
    + cbn [queue workers]. intros _.
      destruct (queue pool) as [| y rest] eqn:Hq; [left; reflexivity |].
      right. exists 0%nat. intros w wk Hw Hi.
      assert (queue pool <> []) as Hne by (rewrite Hq; discriminate).
      specialize (Hcons Hne). rewrite Forall_lookup in Hcons.
      now destruct (Hcons _ _ Hw).
  - (* the task resolved *)
    unfold taskResolved.
    destruct (extract _ (suspended pool)) as [[x others] |] eqn:Hx;
      [| split; assumption].
    destruct (extract_suspended _ _ _ _ Honce Hx)
      as (Hp & Hin & Hsub & Hfree & Hnd).
    apply awaits_task_inv in Hp as (queueItem & ->). cbn [fst] in Hfree.
    apply processQueue_consistent.
    + rewrite <- (app_nil_r others).
      eapply tidy_resumed; eauto.
    + cbn [queue workers]. intros Hq. right. exists worker.
      now apply released_only.
  - (* the task rejected *)
    unfold taskRejected.
    destruct (extract _ (suspended pool)) as [[x others] |] eqn:Hx;
      [| split; assumption].
    destruct (extract_suspended _ _ _ _ Honce Hx)
      as (Hp & Hin & Hsub & Hfree & Hnd).
    apply awaits_task_inv in Hp as (queueItem & ->). cbn [fst] in Hfree.
    split.
    + eapply tidy_resumed;
        [exact Htidy | exact Hin | exact Hsub | exact Hfree | exact Hnd |].
      right. split; [eauto |]. intros w. cbn. discriminate.
    + intros Hq. cbn [queue workers] in *.
      apply Forall_alter; [now apply Hcons |].
      intros wk _ _. cbn. discriminate.
  - (* the notification went out *)
    unfold notified.
    destruct (extract _ (suspended pool)) as [[x others] |] eqn:Hx;
      [| split; assumption].
    destruct (extract_suspended _ _ _ _ Honce Hx)
      as (Hp & Hin & Hsub & Hfree & Hnd).
    apply awaits_notify_inv in Hp as (queueItem & ->). cbn [fst] in Hfree.
    split; [| exact Hcons].
    split; [| split; [| split; [| split]]];
      cbn [suspended workers isShuttingDown queue maxWorkers]; auto.
    + intros w c Hw. apply elem_of_app in Hw as [Hw | Hw]; [eauto |].
      apply list_elem_of_singleton in Hw. injection Hw as -> ->. eauto.
    + rewrite fmap_app. apply NoDup_app. split; [exact Hnd |].
      split; [| apply NoDup_singleton].
      intros y Hy Hy'. cbn in Hy'.
      apply list_elem_of_singleton in Hy' as ->. contradiction.
  - (* the timer fired *)
    unfold timeout.
    destruct (extract _ (suspended pool)) as [[x others] |] eqn:Hx;
      [| split; assumption].
    destruct (extract_suspended _ _ _ _ Honce Hx)
      as (Hp & Hin & Hsub & Hfree & Hnd).
    apply awaits_timeout_inv in Hp as ->. cbn [fst] in Hfree.
    apply processQueue_consistent.
    + rewrite <- (app_nil_r others).
      eapply tidy_resumed; eauto.
    + cbn [queue workers]. intros Hq. right. exists worker.
      now apply released_only.
  - (* shutdown *)
    split; [| intros Hq; now destruct Hq].
    split; [| split; [| split; [| split]]];
      cbn [shutdown suspended workers isShuttingDown queue maxWorkers descending];
      auto.
    + intros w c Hw. destruct (Hbusy _ _ Hw) as (wk & Hl & _).
      exists (with_status SHUTDOWN wk). split; [| discriminate].
      now rewrite list_lookup_fmap, Hl.
    + now rewrite length_fmap.
Qed.

Lemma new_consistent (maxWorkers : nat) : consistent (new maxWorkers).
Proof.
  split; [| intros Hq; now destruct Hq].
  split; [| split; [| split; [| split]]];
    cbn [new suspended workers isShuttingDown queue descending]; auto.
  - intros w c Hw. now apply elem_of_nil in Hw.
  - constructor.
  - apply length_replicate.
Qed.

Lemma run_consistent (events : list Event) :
  forall pool, consistent pool -> consistent (run events pool).
Proof.
  induction events as [| e rest IH]; intros pool Hc; [exact Hc |].
  apply IH, step_consistent, Hc.
Qed.

Lemma processQueue_maxWorkers (now : Z) (pool : WorkerPool) :
  maxWorkers (processQueue now pool) = maxWorkers pool.
Proof.
  unfold processQueue. destruct (queue pool); [reflexivity |].
  destruct (list_find _ _) as [[w ?] |]; reflexivity.
Qed.

Lemma step_maxWorkers (pool : WorkerPool) (e : Event) :
  maxWorkers (step pool e) = maxWorkers pool.
Proof.
  destruct e; cbn [step];
    unfold addTask, taskResolved, taskRejected, notified, timeout, shutdown;
    repeat match goal with
           | |- context [if ?b then _ else _] => destruct b
           | |- context [match extract ?p ?l with _ => _ end] =>
               destruct (extract p l) as [[[? [? | ? |]] ?] |]
           end;
    cbn [fst]; rewrite ?processQueue_maxWorkers; reflexivity.
Qed.

Lemma run_maxWorkers (events : list Event) :
  forall pool, maxWorkers (run events pool) = maxWorkers pool.
Proof.
  induction events as [| e rest IH]; intros pool; [reflexivity |].
  cbn [run fold_left]. fold (run rest (step pool e)).
  now rewrite IH, step_maxWorkers.
Qed.

Lemma omap_length_le {A B} (f : A -> option B) (l : list A) :
  (length (omap f l) <= length l)%nat.
Proof.
  induction l as [| x rest IH]; [reflexivity |].
  cbn. destruct (f x); cbn; lia.
Qed.

Lemma distinct_below (l : list nat) (n : nat) :
  NoDup l -> (forall x, x ∈ l -> (x < n)%nat) -> (length l <= n)%nat.
Proof.
  intros Hnd Hlt. rewrite <- (List.length_seq n 0).
  apply List.NoDup_incl_length; [now apply NoDup_ListNoDup |].
  intros x Hx. apply List.in_seq. apply list_elem_of_In in Hx.
  specialize (Hlt x Hx). lia.
Qed.

(** X24. Whatever happens to a pool, in whatever order (tasks added, tasks
    resolving or rejecting, notifications, timers, a shutdown): no task
    waits in the queue while a worker is idle; a worker that runs a task,
    or recovers from a failed one, is not idle and so is given no second
    task; and no more tasks run at a time than the pool has workers. *)
Theorem no_task_waits_for_an_idle_worker
    (size : nat) (events : list Event) :
  let pool := run events (new size) in
  (queue pool <> [] -> Forall (fun w => status w <> IDLE) (workers pool))
  /\ (forall w c, (w, c) ∈ suspended pool ->
        exists worker,
          workers pool !! w = Some worker /\ status worker <> IDLE)
  /\ NoDup (suspended pool).*1
  /\ length (workers pool) = size
  /\ (length (running pool) <= size)%nat.
Proof.
  intros pool.
  destruct (run_consistent events (new size) (new_consistent size))
    as ((Hbusy & Honce & _ & _ & Hsize) & Hcons).
  fold pool in Hbusy, Honce, Hsize, Hcons.
  assert (maxWorkers pool = size) as Hmax by apply run_maxWorkers.
  rewrite Hmax in Hsize.
  split; [exact Hcons |]. split; [exact Hbusy |]. split; [exact Honce |].
  split; [exact Hsize |].
  etransitivity; [apply omap_length_le |].
  rewrite <- (length_fmap fst). apply distinct_below; [exact Honce |].
  intros w Hw. apply list_elem_of_fmap in Hw as ([w' c] & -> & Hin).
  destruct (Hbusy _ _ Hin) as (worker & Hl & _).
  rewrite <- Hsize. now apply lookup_lt_Some in Hl.
Qed.

(** X25. Tasks are served by priority, and in the order of arrival within
    a priority.  The queue of a pool is always in descending order of
    priority.  A task added while a worker is idle finds the queue empty
    and starts at once; a task added while no worker is idle waits behind
    every waiting task of its priority or more and ahead of every waiting
    task of less. *)
Theorem addTask_by_priority
    (size : nat) (events : list Event) (uuid : string) (p now : Z) :
  let pool := run events (new size) in
  let queueItem := {| id := uuid; priority := p; addedAt := now |} in
  let pool' := fst (addTask uuid p now pool) in
  isShuttingDown pool = false ->
  descending (queue pool) /\ descending (queue pool')
  /\ ((exists w worker,
         workers pool !! w = Some worker /\ status worker = IDLE) ->
      queue pool = [] /\ queue pool' = []
      /\ running pool' = running pool ++ [queueItem])
  /\ (Forall (fun w => status w <> IDLE) (workers pool) ->
      queue pool'
      = List.filter (fun y => priority y >=? p) (queue pool)
        ++ queueItem :: List.filter (fun y => priority y <? p) (queue pool)
      /\ running pool' = running pool).
Proof.
  intros pool queueItem pool' Hdown.
  pose proof (run_consistent events (new size) (new_consistent size))
    as Hc. fold pool in Hc.
  pose proof (step_consistent pool (AddTask uuid p now) Hc) as Hc'.
  cbn [step] in Hc'. fold pool' in Hc'.
  destruct Hc as ((_ & _ & _ & Horder & _) & Hcons).
  destruct Hc' as ((_ & _ & _ & Horder' & _) & _).
  split; [exact Horder |]. split; [exact Horder' |].
  subst pool' queueItem. unfold addTask. rewrite Hdown. cbn [fst].
  split.
  - intros (w & worker & Hw & Hi).
    assert (queue pool = []) as Hq.
    { destruct (queue pool) eqn:Hq; [reflexivity |].
      assert (queue pool <> []) as Hne by (rewrite Hq; discriminate).
      specialize (Hcons Hne). rewrite Forall_lookup in Hcons.
      now destruct (Hcons _ _ Hw). }
    split; [exact Hq |].
    unfold processQueue. cbn [queue workers]. rewrite Hq. cbn [app sort foldr insert].
    destruct (list_find _ (workers pool)) as [[available idle] |] eqn:Hfind.
    + cbn [queue]. split; [reflexivity |].
      unfold running. cbn [suspended]. now rewrite omap_app.
    + apply list_find_None in Hfind. rewrite Forall_lookup in Hfind.
      now destruct (Hfind _ _ Hw).
  - intros Hnone.
    rewrite (sort_pushed _ (queue pool) Horder). cbn [priority].
    unfold processQueue. cbn [queue workers].
    destruct (List.filter _ (queue pool) ++ _ :: _) eqn:Hq;
      [split; reflexivity |].
    destruct (list_find _ (workers pool)) as [[available idle] |] eqn:Hfind;
      [| split; reflexivity].
    apply list_find_Some in Hfind as (Hl & Hi & _).
    rewrite Forall_lookup in Hnone. now destruct (Hnone _ _ Hl).
Qed.

(** The ids of the tasks that have started and whose promise is not
    settled yet. *)
Definition in_flight (pool : WorkerPool) : list string :=
  omap (fun c => match c with
                 | (_, AfterTask queueItem) => Some (id queueItem)
                 | (_, AfterNotify queueItem) => Some (id queueItem)
                 | _ => None
                 end) (suspended pool).

Definition settlement_id (s : Settlement) : string :=
  match s with Resolved i => i | Rejected i => i end.

Lemma processQueue_empty (now : Z) (pool : WorkerPool) :
  queue pool = [] -> processQueue now pool = pool.
Proof. intros Hq. unfold processQueue. now rewrite Hq. Qed.

(** What a pool that is shut down has in common with the pool it was one
    event before. *)
Definition winding_down (before after : WorkerPool) : Prop :=
  isShuttingDown after = true /\ queue after = []
  /\ (forall queueItem, queueItem ∈ running after ->
                        queueItem ∈ running before)
  /\ (forall i, i ∈ in_flight after -> i ∈ in_flight before)
  /\ exists later,
       settled after = settled before ++ later
       /\ forall s, s ∈ later -> settlement_id s ∈ in_flight before.

Lemma winding_down_refl (pool : WorkerPool) :
  isShuttingDown pool = true -> queue pool = [] -> winding_down pool pool.
Proof.
  intros Hd Hq. repeat split; auto.
  exists []. split; [now rewrite app_nil_r |].
  intros s Hs. now apply elem_of_nil in Hs.
Qed.

Lemma winding_down_trans (a b c : WorkerPool) :
  winding_down a b -> winding_down b c -> winding_down a c.
Proof.
  intros (_ & _ & Hr1 & Hf1 & l1 & Hs1 & Hl1)
         (Hd & Hq & Hr2 & Hf2 & l2 & Hs2 & Hl2).
  repeat split; auto.
  exists (l1 ++ l2). split; [rewrite Hs2, Hs1; now rewrite app_assoc |].
  intros s Hs. apply elem_of_app in Hs as [Hs | Hs]; auto.
Qed.

Lemma extract_sub {A} (p : A -> bool) (l : list A) (x : A)
    (others : list A) :
  extract p l = Some (x, others) ->
  p x = true /\ x ∈ l /\ forall y, y ∈ others -> y ∈ l.
Proof.
  intros Hx. apply extract_spec in Hx as (Hp & before & after & -> & ->).
  split; [exact Hp |]. split; [apply elem_of_app; right; left |].
  intros y Hy. apply elem_of_app in Hy as [Hy | Hy];
    apply elem_of_app; [left | right; right]; exact Hy.
Qed.

Lemma running_sub (l l' : list (nat * Continuation)) (a b : WorkerPool) :
  suspended a = l -> suspended b = l' ->
  (forall y, y ∈ l' ->
     y ∈ l
     \/ (exists w queueItem,
           y = (w, AfterNotify queueItem)
           /\ exists w', (w', AfterTask queueItem) ∈ l)
     \/ (exists w, y = (w, AfterTimeout))) ->
  (forall queueItem, queueItem ∈ running b -> queueItem ∈ running a)
  /\ (forall i, i ∈ in_flight b -> i ∈ in_flight a).
Proof.
  intros Ha Hb Hsub. unfold running, in_flight. rewrite Ha, Hb. split.
  - intros queueItem Hin. apply list_elem_of_omap in Hin as (y & Hy & Hsome).
    apply list_elem_of_omap.
    destruct (Hsub _ Hy) as [Hold | [(w & q & -> & _) | (w & ->)]];
      [now exists y | discriminate | discriminate].
  - intros i Hin. apply list_elem_of_omap in Hin as (y & Hy & Hsome).
    apply list_elem_of_omap.
    destruct (Hsub _ Hy) as [Hold | [(w & q & -> & w' & Hw') | (w & ->)]];
      [now exists y | | discriminate].
    exists (w', AfterTask q). split; [exact Hw' | exact Hsome].
Qed.

Lemma winding_down_intro (before after : WorkerPool)
    (later : list Settlement) :
  isShuttingDown after = true -> queue after = [] ->
  (forall queueItem, queueItem ∈ running after -> queueItem ∈ running before)
  /\ (forall i, i ∈ in_flight after -> i ∈ in_flight before) ->
  settled after = settled before ++ later ->
  (forall s, s ∈ later -> settlement_id s ∈ in_flight before) ->
  winding_down before after.
Proof.
  intros Hd Hq [Hr Hf] Hs Hl. repeat split; auto. now exists later.
Qed.

Lemma step_stopped (pool : WorkerPool) (e : Event) :
  isShuttingDown pool = true -> queue pool = [] ->
  winding_down pool (step pool e).
Proof.
  intros Hd Hq.
  destruct e as [uuid p now | worker now | worker | worker | worker now |];
    cbn [step].
  - unfold addTask. rewrite Hd. now apply winding_down_refl.
  - unfold taskResolved.
    destruct (extract _ (suspended pool)) as [[x others] |] eqn:Hx;
      [| now apply winding_down_refl].
    apply extract_sub in Hx as (Hp & Hin & Hsub).
    apply awaits_task_inv in Hp as (queueItem & ->).
    rewrite processQueue_empty by exact Hq.
    apply (winding_down_intro _ _ [Resolved (id queueItem)]);
      [exact Hd | exact Hq | | reflexivity |].
    + eapply running_sub; [reflexivity | reflexivity |].
      intros y Hy. left. now apply Hsub.
    + intros s Hs. apply list_elem_of_singleton in Hs as ->.
      apply list_elem_of_omap. now exists (worker, AfterTask queueItem).
  - unfold taskRejected.
    destruct (extract _ (suspended pool)) as [[x others] |] eqn:Hx;
      [| now apply winding_down_refl].
    apply extract_sub in Hx as (Hp & Hin & Hsub).
    apply awaits_task_inv in Hp as (queueItem & ->).
    apply (winding_down_intro _ _ []);
      [exact Hd | exact Hq | | cbn [settled]; now rewrite app_nil_r |].
    + eapply running_sub; [reflexivity | reflexivity |].
      intros y Hy. apply elem_of_app in Hy as [Hy | Hy]; [left; auto |].
      apply list_elem_of_singleton in Hy as ->.
      right. left. exists worker, queueItem. split; [reflexivity |].
      now exists worker.
    + intros s Hs. now apply elem_of_nil in Hs.
  - unfold notified.
    destruct (extract _ (suspended pool)) as [[x others] |] eqn:Hx;
      [| now apply winding_down_refl].
    apply extract_sub in Hx as (Hp & Hin & Hsub).
    apply awaits_notify_inv in Hp as (queueItem & ->).
    apply (winding_down_intro _ _ [Rejected (id queueItem)]);
      [exact Hd | exact Hq | | reflexivity |].
    + eapply running_sub; [reflexivity | reflexivity |].
      intros y Hy. apply elem_of_app in Hy as [Hy | Hy]; [left; auto |].
      apply list_elem_of_singleton in Hy as ->.
      right. right. now exists worker.
    + intros s Hs. apply list_elem_of_singleton in Hs as ->.
      apply list_elem_of_omap. now exists (worker, AfterNotify queueItem).
  - unfold timeout.
    destruct (extract _ (suspended pool)) as [[x others] |] eqn:Hx;
      [| now apply winding_down_refl].
    apply extract_sub in Hx as (Hp & Hin & Hsub).
    apply awaits_timeout_inv in Hp as ->.
    rewrite processQueue_empty by exact Hq.
    apply (winding_down_intro _ _ []);
      [exact Hd | exact Hq | | cbn [settled]; now rewrite app_nil_r |].
    + eapply running_sub; [reflexivity | reflexivity |].
      intros y Hy. left. now apply Hsub.
    + intros s Hs. now apply elem_of_nil in Hs.
  - apply (winding_down_intro _ _ []);
      [reflexivity | reflexivity |
       | cbn [shutdown settled]; now rewrite app_nil_r |].
    + eapply running_sub; [reflexivity | reflexivity |]. now left.
    + intros s Hs. now apply elem_of_nil in Hs.
Qed.

Lemma run_stopped (events : list Event) :
  forall pool,
    isShuttingDown pool = true -> queue pool = [] ->
    winding_down pool (run events pool).
Proof.
  induction events as [| e rest IH]; intros pool Hd Hq;
    [now apply winding_down_refl |].
  pose proof (step_stopped pool e Hd Hq) as Hstep.
  apply (winding_down_trans _ _ _ Hstep).
  destruct Hstep as (Hd' & Hq' & _). now apply IH.
Qed.

(** X26. A shutdown is final and drops what waits.  [shutdown] empties the
    queue without settling the promises of the tasks in it.  Whatever
    happens afterwards, the pool stays shut down with an empty queue, every
    [addTask] is rejected and changes nothing, no task starts, and the only
    promises that settle are those of tasks that had started before the
    shutdown. *)
Theorem shutdown_is_final (pool : WorkerPool) (events : list Event) :
  let stopped := shutdown pool in
  let final := run events stopped in
  queue stopped = [] /\ settled stopped = settled pool
  /\ isShuttingDown final = true /\ queue final = []
  /\ (forall uuid p now,
        addTask uuid p now final
        = (final, Some {| message := "Worker pool is shutting down" |}))
  /\ (forall queueItem, queueItem ∈ running final ->
                        queueItem ∈ running pool)
  /\ exists later,
       settled final = settled pool ++ later
       /\ forall s, s ∈ later -> settlement_id s ∈ in_flight pool.
Proof.
  intros stopped final.
  destruct (run_stopped events stopped eq_refl eq_refl)
    as (Hd & Hq & Hrun & Hfl & later & Hs & Hl).
  fold final in Hd, Hq, Hrun, Hfl, Hs.
  split; [reflexivity |]. split; [reflexivity |].
  split; [exact Hd |]. split; [exact Hq |]. split.
  { intros uuid p now. unfold addTask. now rewrite Hd. }
  split; [exact Hrun |].
  exists later. split; [exact Hs | exact Hl].
Qed.

(** Two workers and three tasks: the first two start at once, the third
    waits. *)
Definition two_workers_three_tasks : list Event :=
  [AddTask "a" 1 10; AddTask "b" 1 11; AddTask "c" 5 12].

Lemma addTask_by_priority_witness :
  isShuttingDown (run two_workers_three_tasks (new 2)) = false
  /\ descending
       (queue (fst (addTask "d" 5 13
                            (run two_workers_three_tasks (new 2))))).
Proof.
  assert (isShuttingDown (run two_workers_three_tasks (new 2)) = false)
    as Hd by reflexivity.
  split; [exact Hd |].
  exact (proj1 (proj2 (addTask_by_priority 2 two_workers_three_tasks
                         "d" 5 13 Hd))).
Defined.

(** The task added last, of priority 5, waits behind the waiting task of
    priority 5 and ahead of nothing; a task of priority 9 would go first. *)
Example queue_after_four_tasks :
  id <$> queue (run (two_workers_three_tasks
                     ++ [AddTask "d" 5 13; AddTask "e" 9 14; AddTask "f" 1 15])
                    (new 2))
  = ["e"; "c"; "d"; "f"].
Proof. reflexivity. Qed.

End Pool.


(** ** The analysis pipeline: [PipelineManager], over the queue, the cache
       and the notification service *)

Module Pipeline.

Import Status (Error, message).
Import Orchestrator (M, ret, bind, throw, try_catch, modify, settle, read).

#[local] Instance M_bind {S} : MBind (M S) := fun A B k c => bind c k.
#[local] Instance M_ret {S} : MRet (M S) := fun A a => ret a.

Inductive AnalysisMethod := QUICK | DEEP | FALLBACK.

Inductive NotificationType :=
| ANALYSIS_START | ANALYSIS_PROGRESS | ANALYSIS_COMPLETE | ANALYSIS_ERROR
| ANALYSIS_RETRY | QUEUE_UPDATE.

Section Manager.

(** What [getRepositoryInfo] resolves with, and the values of the cache
    ([any] in the source). *)
Context {IRepositoryMetadata Any : Type}.

Record Details := {
  codeQuality : Q;
  commitHistory : Q;
  documentation : Q;
  testCoverage : Q;
  dependencies : Q
}.

Record IAnalysisResult := {
  repositoryUrl : string;
  analysisMethod : AnalysisMethod;
  summary : string;
  confidence : Q;
  isLarp : bool;
  details : Details;
  metadata : option IRepositoryMetadata;
  timestamp : Z
}.

(** [context.results], a [Partial<IAnalysisResult>]: the empty object, the
    object with [metadata] only, or the object with every field. *)
Inductive Results :=
| Empty
| Metadata (metadata : option IRepositoryMetadata)
| Complete (result : IAnalysisResult).

(** [context.results.metadata] *)
Definition metadata_of (r : Results) : option IRepositoryMetadata :=
  match r with
  | Empty => None
  | Metadata m => m
  | Complete result => metadata result
  end.

(** [context.results.metadata = m] *)
Definition set_metadata (m : option IRepositoryMetadata) (r : Results)
    : Results :=
  match r with
  | Empty | Metadata _ => Metadata m
  | Complete result =>
      Complete {| repositoryUrl := repositoryUrl result;
                  analysisMethod := analysisMethod result;
                  summary := summary result;
                  confidence := confidence result;
                  isLarp := isLarp result;
                  details := details result;
                  metadata := m;
                  timestamp := timestamp result |}
  end.

(** The [metadata] object of a notification (the stack of an error is left
    out). *)
Inductive Payload :=
| OfStart (repositoryUrl : string)
| OfProgress (repositoryUrl : string) (progress : Z)
| OfComplete (repositoryUrl : string) (result : Results)
| OfError (repositoryUrl : string).

Record INotification := {
  type : NotificationType;
  message : string;
  payload : Payload;
  sent : Z
}.

(** How the calls to the repository service and the storage service
    settle, per call site. *)
Record Repository := {
  validateRepository : promise Error bool;
  getRepositoryInfo : promise Error (option IRepositoryMetadata);
  getLanguages : promise Error unit;
  cloneRepository : promise Error unit;
  getCommitHistory : promise Error unit;
  getDependencies : promise Error unit;
  cleanupRepository : promise Error unit
}.

(** The services the manager writes to, the number of clock readings so
    far, and the [PipelineContext] of the run. *)
Record State := {
  queueService : Queue.QueueService;
  cacheService : gmap string (Cache.CacheEntry Any);
  notifications : list INotification;
  readings : nat;
  progress : Z;
  results : Results;
  lastUpdate : Z
}.

(** The clock: what the [n]-th [new Date()] of the run reads. *)
Variable time : nat -> Z.
(** The id that the queue gives to the row of the run. *)
Variable uuid : string.
(** A result as a value of the cache. *)
Variable any : Results -> Any.

(** [new Date()] *)
Definition now : M State Z :=
  fun s =>
    ({| queueService := queueService s; cacheService := cacheService s;
        notifications := notifications s; readings := S (readings s);
        progress := progress s; results := results s;
        lastUpdate := lastUpdate s |},
     Ok (time (readings s))).

Definition on_queue (f : Queue.QueueService -> Queue.QueueService)
    : M State unit :=
  modify (fun s =>
    {| queueService := f (queueService s); cacheService := cacheService s;
       notifications := notifications s; readings := readings s;
       progress := progress s; results := results s;
       lastUpdate := lastUpdate s |}).

Definition on_cache
    (f : gmap string (Cache.CacheEntry Any)
         -> gmap string (Cache.CacheEntry Any)) : M State unit :=
  modify (fun s =>
    {| queueService := queueService s; cacheService := f (cacheService s);
       notifications := notifications s; readings := readings s;
       progress := progress s; results := results s;
       lastUpdate := lastUpdate s |}).

(** [notificationService.notify(notification)]; the subscribers'
    callbacks are asynchronous, so it resolves. *)
Definition notify (n : INotification) : M State unit :=
  modify (fun s =>
    {| queueService := queueService s; cacheService := cacheService s;
       notifications := notifications s ++ [n]; readings := readings s;
       progress := progress s; results := results s;
       lastUpdate := lastUpdate s |}).

(** [context.progress = p] *)
Definition set_progress (p : Z) : M State unit :=
  modify (fun s =>
    {| queueService := queueService s; cacheService := cacheService s;
       notifications := notifications s; readings := readings s;
       progress := p; results := results s; lastUpdate := lastUpdate s |}).

(** [context.results = r] *)
Definition set_results (f : Results -> Results) : M State unit :=
  modify (fun s =>
    {| queueService := queueService s; cacheService := cacheService s;
       notifications := notifications s; readings := readings s;
       progress := progress s; results := f (results s);
       lastUpdate := lastUpdate s |}).

(** [context.lastUpdate = new Date()] *)
Definition touch : M State unit :=
  t ← now;
  modify (fun s =>
    {| queueService := queueService s; cacheService := cacheService s;
       notifications := notifications s; readings := readings s;
       progress := progress s; results := results s; lastUpdate := t |}).

Definition notifyAnalysisStart (url : string) : M State unit :=
  t ← now;
  notify {| type := ANALYSIS_START; message := "Analysis started";
            payload := OfStart url; sent := t |}.

Definition notifyAnalysisProgress (url : string) (p : Z) : M State unit :=
  t ← now;
  notify {| type := ANALYSIS_PROGRESS;
            message := "Analysis " +:+ pretty (p * 100) +:+ "% complete";
            payload := OfProgress url p; sent := t |}.

Definition notifyAnalysisComplete (url : string) (result : Results)
    : M State unit :=
  t ← now;
  notify {| type := ANALYSIS_COMPLETE; message := "Analysis completed";
            payload := OfComplete url result; sent := t |}.

Definition notifyAnalysisError (url : string) (error : Error)
    : M State unit :=
  t ← now;
  notify {| type := ANALYSIS_ERROR; message := Status.message error;
            payload := OfError url; sent := t |}.

(** [queueService.updateStatus(url, status)]: the clock is read, for
    [completedAt], when the status is Completed, Failed or Cancelled, and
    not otherwise ([completedAt: undefined] leaves the column alone, so
    the time passed on is not used). *)
Definition updateStatus (url : string) (st : AnalysisStatus.t)
    : M State unit :=
  match st with
  | AnalysisStatus.COMPLETED | AnalysisStatus.FAILED
  | AnalysisStatus.CANCELLED =>
      t ← now; on_queue (Queue.updateStatus t url st)
  | _ => on_queue (Queue.updateStatus 0 url st)
  end.

(** [updateProgress(context)] *)
Definition updateProgress (url : string) : M State unit :=
  touch ;;
  s ← read;
  notifyAnalysisProgress url (progress s) ;;
  updateStatus url (if progress s >=? 100 then AnalysisStatus.COMPLETED
                    else AnalysisStatus.IN_PROGRESS).

(** [initializePipeline(context)] *)
Definition initializePipeline (url userId : string) : M State unit :=
  (t ← now; on_queue (Queue.enqueue uuid t url userId)) ;;
  notifyAnalysisStart url ;;
  updateProgress url.

(** [finalizePipeline(context)] *)
Definition finalizePipeline (url : string) : M State Results :=
  s ← read;
  let result := results s in
  (t ← now; on_cache (CacheOps.setAnalysisResult url (any result) t)) ;;
  notifyAnalysisComplete url result ;;
  on_queue (Queue.removeFromQueue url) ;;
  ret result.

(** [handlePipelineError(context, error)] *)
Definition handlePipelineError (url : string) (error : Error)
    : M State unit :=
  notifyAnalysisError url error ;;
  updateStatus url AnalysisStatus.FAILED ;;
  on_cache (CacheOps.invalidateAll url).

(** The object that the three analyses build in the end. *)
Definition built (url : string) (method : AnalysisMethod) (text : string)
    (c q h d t p : Q) (m : option IRepositoryMetadata) (at_ : Z)
    : IAnalysisResult :=
  {| repositoryUrl := url; analysisMethod := method; summary := text;
     confidence := c; isLarp := false;
     details := {| codeQuality := q; commitHistory := h;
                   documentation := d; testCoverage := t;
                   dependencies := p |};
     metadata := m; timestamp := at_ |}.

(** [executeQuickAnalysis(context)] *)
Definition executeQuickAnalysis (url : string) (method : AnalysisMethod)
    (r : Repository) : M State unit :=
  isValid ← settle (validateRepository r);
  (if isValid : bool then ret tt
   else throw {| Status.message := "Invalid repository" |}) ;;
  m ← settle (getRepositoryInfo r);
  set_results (set_metadata m) ;;
  set_progress 30 ;;
  updateProgress url ;;
  settle (getLanguages r) ;;
  set_progress 60 ;;
  updateProgress url ;;
  s ← read;
  t ← now;
  set_results (fun _ =>
    Complete (built url method
      "Quick analysis based on repository metadata and patterns"
      (7 # 10) (8 # 10) (7 # 10) (6 # 10) (5 # 10) (9 # 10)
      (metadata_of (results s)) t)) ;;
  set_progress 100 ;;
  updateProgress url.

(** [executeDeepAnalysis(context)] *)
Definition executeDeepAnalysis (url : string) (method : AnalysisMethod)
    (r : Repository) : M State unit :=
  settle (cloneRepository r) ;;
  set_progress 20 ;;
  updateProgress url ;;
  m ← settle (getRepositoryInfo r);
  set_results (set_metadata m) ;;
  set_progress 40 ;;
  updateProgress url ;;
  settle (getCommitHistory r) ;;
  set_progress 60 ;;
  updateProgress url ;;
  settle (getDependencies r) ;;
  set_progress 80 ;;
  updateProgress url ;;
  s ← read;
  t ← now;
  set_results (fun _ =>
    Complete (built url method
      "Deep analysis based on repository content and history"
      (9 # 10) (8 # 10) (9 # 10) (7 # 10) (6 # 10) (8 # 10)
      (metadata_of (results s)) t)) ;;
  set_progress 100 ;;
  updateProgress url ;;
  settle (cleanupRepository r).

(** [executeFallbackAnalysis(context)] *)
Definition executeFallbackAnalysis (url : string) (method : AnalysisMethod)
    (r : Repository) : M State unit :=
  m ← settle (getRepositoryInfo r);
  set_results (set_metadata m) ;;
  set_progress 50 ;;
  updateProgress url ;;
  s ← read;
  t ← now;
  set_results (fun _ =>
    Complete (built url method
      "Fallback analysis based on basic repository information"
      (5 # 10) (5 # 10) (5 # 10) (5 # 10) (5 # 10) (5 # 10)
      (metadata_of (results s)) t)) ;;
  set_progress 100 ;;
  updateProgress url.

(** The services before a run, with the context that [executePipeline]
    creates; its first two clock readings are [startTime] and
    [lastUpdate]. *)
Definition start (queue : Queue.QueueService)
    (cache : gmap string (Cache.CacheEntry Any))
    (sentBefore : list INotification) : State :=
  {| queueService := queue; cacheService := cache;
     notifications := sentBefore; readings := 2; progress := 0;
     results := Empty; lastUpdate := time 1 |}.

(** [executePipeline(repositoryUrl, method, userId)], from the [try]. *)
Definition executePipeline (url : string) (method : AnalysisMethod)
    (userId : string) (r : Repository) : M State Results :=
  try_catch
    (initializePipeline url userId ;;
     match method with
     | QUICK => executeQuickAnalysis url method r
     | DEEP => executeDeepAnalysis url method r
     | FALLBACK => executeFallbackAnalysis url method r
     end ;;
     finalizePipeline url)
    (fun error => handlePipelineError url error ;; throw error).

Ltac run_pipeline :=
  cbv [executePipeline initializePipeline finalizePipeline
       handlePipelineError updateProgress executeQuickAnalysis
       executeDeepAnalysis executeFallbackAnalysis notifyAnalysisStart
       notifyAnalysisProgress notifyAnalysisComplete notifyAnalysisError
       updateStatus touch now notify on_queue on_cache set_progress
       set_results set_metadata metadata_of start built
       mbind M_bind mret M_ret bind ret throw try_catch modify settle read
       queueService cacheService notifications readings progress results
       lastUpdate fst snd
       Z.geb Z.compare Pos.compare Pos.compare_cont].

(** *** What the run does to the queue *)

(** The rows of the other repositories. *)
Definition others (url : string) (q : Queue.QueueService) : list Queue.Row :=
  Queue.deleteMany_by_url url (Queue.table q).

(** The row of the run is in the table. *)
Definition has_row (url : string) (q : Queue.QueueService) : Prop :=
  exists row, In row (Queue.table q) /\ Queue.id row = uuid
              /\ Queue.repositoryUrl row = url.

(** Every row of the repository has the status [st], set at [t]. *)
Definition all_rows (url : string) (st : QueueStatus.t) (t : Z)
    (q : Queue.QueueService) : Prop :=
  forall row, In row (Queue.table q) -> Queue.repositoryUrl row = url ->
    Queue.status row = st /\ Queue.completedAt row = Some t.

Lemma others_updateMany (url : string) (f : Queue.Row -> Queue.Row)
    (rows : list Queue.Row) :
  (forall row, Queue.repositoryUrl (f row) = Queue.repositoryUrl row) ->
  Queue.deleteMany_by_url url (Queue.updateMany_by_url url f rows)
  = Queue.deleteMany_by_url url rows.
Proof.
  intros Hf. unfold Queue.deleteMany_by_url, Queue.updateMany_by_url.
  induction rows as [| row rest IH]; [reflexivity |].
  cbn [List.map List.filter]. rewrite IH.
  destruct (bool_decide (Queue.repositoryUrl row = url)) eqn:Hrow.
  - rewrite Hf, Hrow. reflexivity.
  - rewrite Hrow. reflexivity.
Qed.

Lemma others_updateStatus (t : Z) (url : string) (st : AnalysisStatus.t)
    (q : Queue.QueueService) :
  others url (Queue.updateStatus t url st q) = others url q.
Proof.
  unfold others, Queue.updateStatus.
  destruct (Queue.mapAnalysisStatusToQueueStatus st) as [qs |];
    [| reflexivity].
  destruct (Queue.is_terminal qs); cbn [Queue.table Queue.with_table
                                         Queue.with_processing];
    now apply others_updateMany.
Qed.

Lemma others_enqueue (t : Z) (url user : string) (q : Queue.QueueService) :
  others url (Queue.enqueue uuid t url user q) = others url q.
Proof.
  unfold others, Queue.enqueue, Queue.create, Queue.deleteMany_by_url.
  cbn [Queue.table Queue.with_table]. rewrite List.filter_app.
  cbn [List.filter Queue.repositoryUrl].
  rewrite bool_decide_eq_true_2 by reflexivity. cbn [negb].
  apply app_nil_r.
Qed.

Lemma has_row_enqueue (t : Z) (url user : string) (q : Queue.QueueService) :
  has_row url (Queue.enqueue uuid t url user q).
Proof.
  unfold has_row, Queue.enqueue, Queue.create.
  cbn [Queue.table Queue.with_table].
  eexists. split; [apply in_or_app; right; left; reflexivity |].
  split; reflexivity.
Qed.

Lemma has_row_updateStatus (t : Z) (url : string) (st : AnalysisStatus.t)
    (q : Queue.QueueService) :
  has_row url q -> has_row url (Queue.updateStatus t url st q).
Proof.
  intros (row & Hin & Hid & Hurl). unfold Queue.updateStatus.
  destruct (Queue.mapAnalysisStatusToQueueStatus st) as [qs |];
    [| now exists row].
  exists (Queue.set_status t qs row).
  split; [| split; [exact Hid | exact Hurl]].
  assert (In (Queue.set_status t qs row)
             (Queue.updateMany_by_url url (Queue.set_status t qs)
                                      (Queue.table q))) as Hin'.
  { unfold Queue.updateMany_by_url. apply List.in_map_iff.
    exists row. split; [| exact Hin].
    now rewrite bool_decide_eq_true_2. }
  destruct (Queue.is_terminal qs); exact Hin'.
Qed.

Lemma all_rows_failed (t : Z) (url : string) (q : Queue.QueueService) :
  all_rows url QueueStatus.FAILED t
           (Queue.updateStatus t url AnalysisStatus.FAILED q).
Proof.
  intros row Hin Hurl. unfold Queue.updateStatus in Hin.
  cbn [Queue.mapAnalysisStatusToQueueStatus Queue.is_terminal Queue.table
       Queue.with_table Queue.with_processing] in Hin.
  unfold Queue.updateMany_by_url in Hin.
  apply List.in_map_iff in Hin as (old & <- & _).
  destruct (bool_decide (Queue.repositoryUrl old = url)) eqn:Hold.
  - split; reflexivity.
  - apply bool_decide_eq_false in Hold. contradiction.
Qed.

Lemma processing_terminal (t : Z) (url : string) (q : Queue.QueueService)
    (st : AnalysisStatus.t) :
  st = AnalysisStatus.COMPLETED \/ st = AnalysisStatus.FAILED ->
  Queue.processingItems (Queue.updateStatus t url st q)
  = Queue.processingItems q ∖ {[ url ]}.
Proof. intros [-> | ->]; reflexivity. Qed.

Lemma processing_in_progress (t : Z) (url : string)
    (q : Queue.QueueService) :
  Queue.processingItems
    (Queue.updateStatus t url AnalysisStatus.IN_PROGRESS q)
  = Queue.processingItems q.
Proof. reflexivity. Qed.

Lemma removed_twice (url : string) (P : gset string) :
  P ∖ {[ url ]} ∖ {[ url ]} = P ∖ {[ url ]}.
Proof.
  apply set_eq. intros x. rewrite !elem_of_difference. tauto.
Qed.

(** *** What the run does to the cache *)

Lemma analysis_invalidated (url : string) (t : Z)
    (cache : gmap string (Cache.CacheEntry Any)) :
  fst (CacheOps.getAnalysisResult url t (CacheOps.invalidateAll url cache))
  = None
  /\ fst (CacheOps.getRepositoryMetadata url t
            (CacheOps.invalidateAll url cache)) = None.
Proof.
  unfold CacheOps.getAnalysisResult, CacheOps.getRepositoryMetadata,
    CacheOps.invalidateAll.
  split; rewrite Cache.get_absent; try reflexivity;
    apply map_lookup_filter_None; right; intros entry _; cbn [fst].
  - rewrite (CacheOps.subject_key_prefix url "analysis"
             : String.prefix _ ("repo:" +:+ url +:+ ":analysis") = true).
    discriminate.
  - rewrite (CacheOps.subject_key_prefix url "metadata"
             : String.prefix _ ("repo:" +:+ url +:+ ":metadata") = true).
    discriminate.
Qed.

Lemma analysis_cached (url : string) (value : Any) (t later : Z)
    (cache : gmap string (Cache.CacheEntry Any)) :
  t <= later <= t + Cache.DEFAULT_TTL ->
  fst (CacheOps.getAnalysisResult url later
         (CacheOps.setAnalysisResult url value t cache)) = Some value.
Proof.
  intros Hl. unfold CacheOps.getAnalysisResult, CacheOps.setAnalysisResult.
  replace later with (t + (later - t)) by lia.
  change (Cache.set ?k ?v None ?t0 ?c)
    with (Cache.set k v (Some Cache.DEFAULT_TTL) t0 c).
  rewrite Cache.get_set_live by lia. reflexivity.
Qed.

(** *** The runs, one by one *)

(** The progress values that a run of the method reports, in order. *)
Definition schedule (method : AnalysisMethod) : list Z :=
  match method with
  | QUICK => [0; 30; 60; 100]
  | DEEP => [0; 20; 40; 60; 80; 100]
  | FALLBACK => [0; 50; 100]
  end.

(** The progress values of the progress notifications. *)
Definition progress_reports (sent : list INotification) : list Z :=
  omap (fun n => match payload n with
                 | OfProgress _ p => Some p
                 | _ => None
                 end) sent.

Ltac split_repository r :=
  repeat (run_pipeline;
          match goal with
          | |- context [match validateRepository r with _ => _ end] =>
              destruct (validateRepository r) as [[|] | ?]
          | |- context [match cloneRepository r with _ => _ end] =>
              destruct (cloneRepository r)
          | |- context [match getRepositoryInfo r with _ => _ end] =>
              destruct (getRepositoryInfo r)
          | |- context [match getLanguages r with _ => _ end] =>
              destruct (getLanguages r)
          | |- context [match getCommitHistory r with _ => _ end] =>
              destruct (getCommitHistory r)
          | |- context [match getDependencies r with _ => _ end] =>
              destruct (getDependencies r)
          | |- context [match cleanupRepository r with _ => _ end] =>
              destruct (cleanupRepository r)
          end).

Ltac tidy_queue :=
  change (Queue.table (Queue.removeFromQueue ?u ?q)) with (others u q);
  rewrite ?others_updateStatus, ?others_enqueue.

Ltac flatten := repeat rewrite <- app_assoc; cbn [app].

Ltac pick := first [reflexivity | left; reflexivity | right; pick].

(** X27. A run of the pipeline that resolves.  The result is the one the
    method builds: it names the repository and the method, carries the
    metadata that [getRepositoryInfo] resolved with and the method's
    confidence, and its [isLarp] is false whatever the repository.  The run
    leaves no row of the repository in the queue, neither its own nor one
    that was there before, takes the repository out of the processing set
    and leaves the rows of other repositories as they were.  The result is
    cached and read back for 24 hours.  The notifications sent are the
    start, the progress values of the method's schedule, and the
    completion. *)
Theorem pipeline_success
    (url : string) (method : AnalysisMethod) (userId : string)
    (r : Repository) (queue : Queue.QueueService)
    (cache : gmap string (Cache.CacheEntry Any))
    (sentBefore : list INotification) (result : Results) :
  let run := executePipeline url method userId r
                             (start queue cache sentBefore) in
  snd run = Ok result ->
  let final := fst run in
  (exists b,
     result = Complete b /\ repositoryUrl b = url
     /\ analysisMethod b = method /\ isLarp b = false
     /\ confidence b = match method with
                       | QUICK => 7 # 10 | DEEP => 9 # 10
                       | FALLBACK => 5 # 10
                       end
     /\ getRepositoryInfo r = Ok (metadata b))
  /\ Queue.table (queueService final) = others url queue
  /\ Queue.processingItems (queueService final)
     = Queue.processingItems queue ∖ {[ url ]}
  /\ (exists t,
        cacheService final
        = CacheOps.setAnalysisResult url (any result) t cache
        /\ forall later, t <= later <= t + Cache.DEFAULT_TTL ->
             fst (CacheOps.getAnalysisResult url later (cacheService final))
             = Some (any result))
  /\ (exists new t,
        notifications final = sentBefore ++ new
        /\ type <$> new
           = ANALYSIS_START
             :: replicate (length (schedule method)) ANALYSIS_PROGRESS
             ++ [ANALYSIS_COMPLETE]
        /\ progress_reports new = schedule method
        /\ last new
           = Some {| type := ANALYSIS_COMPLETE;
                     message := "Analysis completed";
                     payload := OfComplete url result; sent := t |})
  /\ progress final = 100.
Proof.
  intros run. subst run.
  destruct (executePipeline url method userId r
                            (start queue cache sentBefore))
    as [final outcome] eqn:Hrun.
  cbn [fst snd]. intros ->. revert Hrun.
  destruct method; split_repository r;
    (intros Hrun; try discriminate Hrun; injection Hrun as Hfinal Hres;
     subst result final);
    (split; [eexists; repeat split; reflexivity |]);
    (split; [tidy_queue; reflexivity |]);
    (split; [exact (removed_twice url _) |]);
    (split; [eexists; split; [reflexivity |];
             intros later Hl; now apply analysis_cached |]);
    (split; [| reflexivity]);
    flatten; eexists; eexists; (split; [reflexivity |]);
    repeat split; reflexivity.
Qed.

(** X28. A run of the pipeline that rejects.  It rejects with the error of
    the call that failed, or with "Invalid repository".  The row of the run
    is in the queue and every row of the repository, also one that was
    there before, is Failed; the repository is out of the processing set
    and the rows of other repositories are as they were.  Every cache entry
    of the repository is gone, so no analysis result and no metadata is
    read back.  The last notification is the error with the message of the
    rejection, no completion is notified, and the progress values reported
    are a beginning of the method's schedule. *)
Theorem pipeline_failure
    (url : string) (method : AnalysisMethod) (userId : string)
    (r : Repository) (queue : Queue.QueueService)
    (cache : gmap string (Cache.CacheEntry Any))
    (sentBefore : list INotification) (error : Error) :
  let run := executePipeline url method userId r
                             (start queue cache sentBefore) in
  snd run = Err error ->
  let final := fst run in
  (error = {| Status.message := "Invalid repository" |}
   \/ validateRepository r = Err error \/ getRepositoryInfo r = Err error
   \/ getLanguages r = Err error \/ cloneRepository r = Err error
   \/ getCommitHistory r = Err error \/ getDependencies r = Err error
   \/ cleanupRepository r = Err error)
  /\ others url (queueService final) = others url queue
  /\ has_row url (queueService final)
  /\ (exists t, all_rows url QueueStatus.FAILED t (queueService final))
  /\ Queue.processingItems (queueService final)
     = Queue.processingItems queue ∖ {[ url ]}
  /\ cacheService final = CacheOps.invalidateAll url cache
  /\ (forall t,
        fst (CacheOps.getAnalysisResult url t (cacheService final)) = None
        /\ fst (CacheOps.getRepositoryMetadata url t (cacheService final))
           = None)
  /\ (exists new t,
        notifications final = sentBefore ++ new
        /\ last new
           = Some {| type := ANALYSIS_ERROR;
                     message := Status.message error;
                     payload := OfError url; sent := t |}
        /\ progress_reports new `prefix_of` schedule method
        /\ Forall (fun n => type n <> ANALYSIS_COMPLETE) new).
Proof.
  intros run. subst run.
  destruct (executePipeline url method userId r
                            (start queue cache sentBefore))
    as [final outcome] eqn:Hrun.
  cbn [fst snd]. intros ->. revert Hrun.
  destruct method; split_repository r;
    (intros Hrun; try discriminate Hrun; injection Hrun as Hfinal Herr;
     subst error final);
    (split; [pick |]);
    (split; [rewrite ?others_updateStatus, ?others_enqueue; reflexivity |]);
    (split; [repeat apply has_row_updateStatus; apply has_row_enqueue |]);
    (split; [eexists; apply all_rows_failed |]);
    (split; [first [reflexivity | exact (removed_twice url _)] |]);
    (split; [reflexivity |]);
    (split; [intros t; apply analysis_invalidated |]);
    flatten; eexists; eexists; (split; [reflexivity |]);
    (split; [reflexivity |]);
    (split; [eexists; reflexivity |]);
    repeat constructor; discriminate.
Qed.

(** X29. What a failed clean-up does to a deep analysis.  When every call
    of a deep run resolves but the removal of the clone, the run has
    reported the whole schedule up to 100 and set the rows of the
    repository to Completed; it then rejects with the error of the
    clean-up, sets the rows to Failed, caches nothing, and notifies an
    error and no completion. *)
Theorem deep_cleanup_failure
    (url userId : string) (r : Repository) (queue : Queue.QueueService)
    (cache : gmap string (Cache.CacheEntry Any))
    (sentBefore : list INotification) (error : Error)
    (m : option IRepositoryMetadata) :
  cloneRepository r = Ok tt -> getRepositoryInfo r = Ok m ->
  getCommitHistory r = Ok tt -> getDependencies r = Ok tt ->
  cleanupRepository r = Err error ->
  let run := executePipeline url DEEP userId r
                             (start queue cache sentBefore) in
  let final := fst run in
  snd run = Err error
  /\ progress final = 100
  /\ (exists b, results final = Complete b /\ confidence b = 9 # 10)
  /\ (exists t t' before,
        queueService final
        = Queue.updateStatus t' url AnalysisStatus.FAILED
            (Queue.updateStatus t url AnalysisStatus.COMPLETED before))
  /\ (exists t, all_rows url QueueStatus.FAILED t (queueService final))
  /\ cacheService final = CacheOps.invalidateAll url cache
  /\ exists new,
       notifications final = sentBefore ++ new
       /\ progress_reports new = schedule DEEP
       /\ type <$> last new = Some ANALYSIS_ERROR
       /\ Forall (fun n => type n <> ANALYSIS_COMPLETE) new.
Proof.
  intros Hclone Hinfo Hcommits Hdeps Hcleanup run final. subst final run.
  destruct (executePipeline url DEEP userId r
                            (start queue cache sentBefore))
    as [final outcome] eqn:Hrun.
  cbn [fst snd]. revert Hrun.
  run_pipeline. rewrite Hclone. run_pipeline. rewrite Hinfo. run_pipeline.
  rewrite Hcommits. run_pipeline. rewrite Hdeps. run_pipeline.
  rewrite Hcleanup. run_pipeline.
  intros Hrun. injection Hrun as Hfinal Hout. subst outcome final.
  split; [reflexivity |]. split; [reflexivity |].
  split; [eexists; split; reflexivity |].
  split; [do 3 eexists; reflexivity |].
  split; [eexists; apply all_rows_failed |].
  split; [reflexivity |].
  flatten. eexists. split; [reflexivity |].
  split; [reflexivity |]. split; [reflexivity |].
  repeat constructor; discriminate.
Qed.

End Manager.

(** A run on examples: the clock reads 1000, 1001, ..., the metadata is a
    name, the cache holds results, and another user's request for the same
    repository is already waiting. *)
Definition ticking (n : nat) : Z := 1000 + Z.of_nat n.

Definition waiting : Queue.QueueService :=
  Queue.new [Queue.pending_row "row-0" "repo" "bob" 2 900;
             Queue.pending_row "row-9" "other" "bob" 2 950]
            Queue.DEFAULT_CONFIG.

Definition all_resolve : Repository (IRepositoryMetadata := string) :=
  {| validateRepository := Ok true;
     getRepositoryInfo := Ok (Some "octocat/repo"%string);
     getLanguages := Ok tt; cloneRepository := Ok tt;
     getCommitHistory := Ok tt; getDependencies := Ok tt;
     cleanupRepository := Ok tt |}.

(** The repository is gone when its information is asked for. *)
Definition info_rejects : Repository (IRepositoryMetadata := string) :=
  {| validateRepository := Ok true;
     getRepositoryInfo := Err {| Status.message := "Not Found" |};
     getLanguages := Ok tt; cloneRepository := Ok tt;
     getCommitHistory := Ok tt; getDependencies := Ok tt;
     cleanupRepository := Ok tt |}.

(** The clone cannot be removed. *)
Definition cleanup_rejects : Repository (IRepositoryMetadata := string) :=
  {| validateRepository := Ok true;
     getRepositoryInfo := Ok (Some "octocat/repo"%string);
     getLanguages := Ok tt; cloneRepository := Ok tt;
     getCommitHistory := Ok tt; getDependencies := Ok tt;
     cleanupRepository := Err {| Status.message := "EBUSY" |} |}.

Abbreviation example_run method r :=
  (executePipeline ticking "row-1" (fun result => result)
                   "repo" method "alice" r
                   (start ticking waiting ∅ [])).

Definition quick_result : Results (IRepositoryMetadata := string) :=
  Complete {| repositoryUrl := "repo"; analysisMethod := QUICK;
              summary :=
                "Quick analysis based on repository metadata and patterns";
              confidence := 7 # 10; isLarp := false;
              details := {| codeQuality := 8 # 10; commitHistory := 7 # 10;
                            documentation := 6 # 10;
                            testCoverage := 5 # 10;
                            dependencies := 9 # 10 |};
              metadata := Some "octocat/repo"%string;
              timestamp := 1010 |}.

Lemma pipeline_success_witness :
  snd (example_run QUICK all_resolve) = Ok quick_result
  /\ Queue.table (queueService (fst (example_run QUICK all_resolve)))
     = others "repo" waiting.
Proof.
  assert (snd (example_run QUICK all_resolve) = Ok quick_result) as Hok
    by (vm_compute; reflexivity).
  split; [exact Hok |].
  exact (proj1 (proj2 (pipeline_success
                         ticking "row-1" (fun result => result)
                         "repo" QUICK "alice" all_resolve waiting ∅ []
                         quick_result Hok))).
Defined.

Lemma pipeline_failure_witness :
  snd (example_run FALLBACK info_rejects)
  = Err {| Status.message := "Not Found" |}
  /\ cacheService (fst (example_run FALLBACK info_rejects))
     = CacheOps.invalidateAll "repo" ∅.
Proof.
  assert (snd (example_run FALLBACK info_rejects)
          = Err {| Status.message := "Not Found" |}) as Herr
    by (vm_compute; reflexivity).
  split; [exact Herr |].
  exact (proj1 (proj2 (proj2 (proj2 (proj2 (proj2
           (pipeline_failure ticking "row-1" (fun result => result)
              "repo" FALLBACK "alice" info_rejects waiting ∅ []
              {| Status.message := "Not Found" |} Herr))))))).
Defined.

Lemma deep_cleanup_failure_witness :
  cloneRepository cleanup_rejects = Ok tt
  /\ cleanupRepository cleanup_rejects
     = Err {| Status.message := "EBUSY" |}
  /\ snd (example_run DEEP cleanup_rejects)
     = Err {| Status.message := "EBUSY" |}
  /\ progress (fst (example_run DEEP cleanup_rejects)) = 100.
Proof.
  split; [reflexivity |]. split; [reflexivity |].
  pose proof (deep_cleanup_failure
                ticking "row-1" (fun result => result) "repo" "alice"
                cleanup_rejects waiting ∅ []
                {| Status.message := "EBUSY" |} (Some "octocat/repo"%string)
                eq_refl eq_refl eq_refl eq_refl eq_refl) as H.
  split; [exact (proj1 H) | exact (proj1 (proj2 H))].
Defined.

(** The request that the other user had queued for the same repository is
    swept along: deleted by a run that resolves, failed by one that
    rejects; and the progress is notified as a percentage of a percentage. *)
Example other_request_swept_along :
  Queue.id <$> Queue.table (queueService (fst (example_run QUICK all_resolve)))
  = ["row-9"]
  /\ (fun row => (Queue.id row, Queue.status row))
       <$> Queue.table
             (queueService (fst (example_run FALLBACK info_rejects)))
     = [("row-0", QueueStatus.FAILED); ("row-9", QueueStatus.PENDING);
        ("row-1", QueueStatus.FAILED)]
  /\ message <$> notifications (fst (example_run FALLBACK all_resolve))
     = ["Analysis started"; "Analysis 0% complete";
        "Analysis 5000% complete"; "Analysis 10000% complete";
        "Analysis completed"].
Proof. vm_compute. repeat split. Qed.

End Pipeline.


(** ** Routing by size: [AnalysisRouter], in
       [src/services/repository-processing/analysis-router.ts] *)

Module Router.

Import Status (Error, message).
Import Pipeline (AnalysisMethod, QUICK, DEEP, FALLBACK).

#[global] Instance AnalysisMethod_eq_dec : EqDecision AnalysisMethod.
Proof. solve_decision. Defined.

(** The result as the router's strategies build it. *)
Record IAnalysisResult := {
  isLarp : bool;
  explanation : string;
  confidence : Q
}.

(** A strategy; of the metadata, [canHandle] reads the size. *)
Record AnalysisStrategy := {
  analyze : string -> promise Error IAnalysisResult;
  canHandle : Z -> promise Error bool
}.

(** [registerStrategies()]: the map, in the order of insertion. *)
Definition strategies : list (AnalysisMethod * AnalysisStrategy) :=
  [ (QUICK,
     {| analyze := fun _ =>
          Ok {| isLarp := false; explanation := "Quick analysis completed";
                confidence := 5 # 10 |};
        canHandle := fun size => Ok (size <? 1000000) |});
    (DEEP,
     {| analyze := fun _ =>
          Ok {| isLarp := false; explanation := "Deep analysis completed";
                confidence := 8 # 10 |};
        canHandle := fun size => Ok (size >=? 1000000) |});
    (FALLBACK,
     {| analyze := fun _ =>
          Ok {| isLarp := false; explanation := "Fallback analysis completed";
                confidence := 3 # 10 |};
        canHandle := fun _ => Ok true |}) ].

(** [this.strategies.get(method)] *)
Definition get (method : AnalysisMethod) : option AnalysisStrategy :=
  snd <$> List.find (fun entry => bool_decide (fst entry = method))
                    strategies.

(** A completion notification that the notification service has recorded. *)
Record Completion := {
  repositoryUrl : string;
  result : IAnalysisResult
}.

Section Routing.

(** How [notifyAnalysisComplete] settles while the strategy of a method is
    tried; the notification is recorded before the subscribers are
    called. *)
Variable delivery : AnalysisMethod -> promise Error unit.

(** The [for] loop of [routeAnalysis] over the methods that are left. *)
Fixpoint route (methods : list AnalysisMethod) (url : string) (size : Z)
    (sent : list Completion)
    : list Completion * promise Error IAnalysisResult :=
  match methods with
  | [] =>
      (sent, Err {| message := "No suitable analysis strategy found" |})
  | method :: rest =>
      match get method with
      | None => route rest url size sent
      | Some strategy =>
          match canHandle strategy size with
          | Err e => (sent, Err e)
          | Ok false => route rest url size sent
          | Ok true =>
              match analyze strategy url with
              | Err _ => route rest url size sent
              | Ok result =>
                  let sent' :=
                    sent ++ [{| repositoryUrl := url; result := result |}] in
                  match delivery method with
                  | Ok _ => (sent', Ok result)
                  | Err _ => route rest url size sent'
                  end
              end
          end
      end
  end.

(** [routeAnalysis(repositoryUrl)]; [getMetadata] settles with the size of
    the repository or rejects. *)
Definition routeAnalysis (url : string) (getMetadata : promise Error Z)
    (sent : list Completion)
    : list Completion * promise Error IAnalysisResult :=
  match getMetadata with
  | Err e => (sent, Err e)
  | Ok size => route [QUICK; DEEP; FALLBACK] url size sent
  end.

(** The loop of [getPreferredMethod] over the entries of the map. *)
Fixpoint preferred (entries : list (AnalysisMethod * AnalysisStrategy))
    (size : Z) : promise Error AnalysisMethod :=
  match entries with
  | [] => Ok FALLBACK
  | (method, strategy) :: rest =>
      match canHandle strategy size with
      | Err e => Err e
      | Ok true => Ok method
      | Ok false => preferred rest size
      end
  end.

(** [getPreferredMethod(metadata)] *)
Definition getPreferredMethod (size : Z) : promise Error AnalysisMethod :=
  preferred strategies size.

(** The method that the size of a repository calls for. *)
Definition by_size (size : Z) : AnalysisMethod :=
  if size <? 1000000 then QUICK else DEEP.

(** What the strategy of a method answers. *)
Definition result_of (method : AnalysisMethod) : IAnalysisResult :=
  match method with
  | QUICK => {| isLarp := false; explanation := "Quick analysis completed";
                confidence := 5 # 10 |}
  | DEEP => {| isLarp := false; explanation := "Deep analysis completed";
               confidence := 8 # 10 |}
  | FALLBACK => {| isLarp := false;
                   explanation := "Fallback analysis completed";
                   confidence := 3 # 10 |}
  end.

(** Every method has its strategy registered. *)
Lemma get_registered (method : AnalysisMethod) :
  exists strategy,
    get method = Some strategy
    /\ (forall url, analyze strategy url = Ok (result_of method))
    /\ (forall size,
          canHandle strategy size
          = Ok match method with
               | QUICK => size <? 1000000
               | DEEP => size >=? 1000000
               | FALLBACK => true
               end).
Proof. destruct method; eexists; repeat split. Qed.

(** One turn of the loop for a method that can handle the size. *)
Lemma route_handled (method : AnalysisMethod) (rest : list AnalysisMethod)
    (url : string) (size : Z) (sent : list Completion) :
  match method with
  | QUICK => size <? 1000000
  | DEEP => size >=? 1000000
  | FALLBACK => true
  end = true ->
  route (method :: rest) url size sent
  = let sent' := sent ++ [{| repositoryUrl := url;
                             result := result_of method |}] in
    match delivery method with
    | Ok _ => (sent', Ok (result_of method))
    | Err _ => route rest url size sent'
    end.
Proof.
  intros Hcan. destruct (get_registered method) as (strategy & Hg & Ha & Hc).
  cbn [route]. now rewrite Hg, Hc, Hcan, Ha.
Qed.

(** One turn of the loop for a method that cannot. *)
Lemma route_skipped (method : AnalysisMethod) (rest : list AnalysisMethod)
    (url : string) (size : Z) (sent : list Completion) :
  match method with
  | QUICK => size <? 1000000
  | DEEP => size >=? 1000000
  | FALLBACK => true
  end = false ->
  route (method :: rest) url size sent = route rest url size sent.
Proof.
  intros Hcan. destruct (get_registered method) as (strategy & Hg & Ha & Hc).
  cbn [route]. now rewrite Hg, Hc, Hcan.
Qed.

(** X30. The router decides by size alone, and its fallback strategy is
    reached through a failed notification only.  [getPreferredMethod]
    answers [QUICK] below 1000000 and [DEEP] from there on, never
    [FALLBACK].  [routeAnalysis] rejects with the error of [getMetadata]
    and records nothing when the metadata cannot be read.  Otherwise it
    analyses with the method the size calls for and records the completion;
    if that notification resolves, this result is returned.  If it
    rejects, the fallback strategy runs, a second completion is recorded,
    and the fallback's result is returned if its notification resolves;
    else the call rejects with both completions recorded. *)
Theorem route_by_size (url : string) (size : Z) (sent : list Completion)
    (e : Error) :
  getPreferredMethod size = Ok (by_size size)
  /\ routeAnalysis url (Err e) sent = (sent, Err e)
  /\ (let first := {| repositoryUrl := url;
                      result := result_of (by_size size) |} in
      let second := {| repositoryUrl := url;
                       result := result_of FALLBACK |} in
      routeAnalysis url (Ok size) sent
      = match delivery (by_size size) with
        | Ok _ => (sent ++ [first], Ok (result_of (by_size size)))
        | Err _ =>
            match delivery FALLBACK with
            | Ok _ => (sent ++ [first; second], Ok (result_of FALLBACK))
            | Err _ =>
                (sent ++ [first; second],
                 Err {| message := "No suitable analysis strategy found" |})
            end
        end).
Proof.
  unfold getPreferredMethod, routeAnalysis, by_size.
  split; [| split; [reflexivity |]].
  - cbn [preferred strategies canHandle].
    destruct (Z.ltb_spec size 1000000); [reflexivity |].
    destruct (Z.geb_spec size 1000000); [reflexivity | lia].
  - cbv zeta.
    destruct (Z.ltb_spec size 1000000) as [Hlt | Hge].
    + rewrite (route_handled QUICK) by (now apply Z.ltb_lt). cbv zeta.
      destruct (delivery QUICK); [reflexivity |].
      rewrite (route_skipped DEEP)
        by (destruct (Z.geb_spec size 1000000); [lia | reflexivity]).
      rewrite (route_handled FALLBACK) by reflexivity. cbv zeta.
      rewrite <- app_assoc.
      destruct (delivery FALLBACK); reflexivity.
    + rewrite (route_skipped QUICK) by (now apply Z.ltb_ge).
      rewrite (route_handled DEEP)
        by (destruct (Z.geb_spec size 1000000); [reflexivity | lia]).
      cbv zeta.
      destruct (delivery DEEP); [reflexivity |].
      rewrite (route_handled FALLBACK) by reflexivity. cbv zeta.
      rewrite <- app_assoc.
      destruct (delivery FALLBACK); reflexivity.
Qed.

End Routing.

End Router.
